(** * Interview-practice client: the generation helpers and the live session hook

    A shallow embedding of [src/services/geminiService.ts] (credential
    resolution, mock payloads, [cleanJson], the six generation helpers) and of
    the [useLiveInterview] hook (connect, the message handler with its
    transcript buffers and playback cursor, the demo script, disconnect).

    Conventions of the embedding.
    - A JavaScript string is a Rocq [string] read as the UTF-8 bytes of its
      text; the source files contain only ASCII literals.
    - A JSON value keeps the numbers of its text as exact rationals and the
      members of an object in the order of the text.
    - A JavaScript number that holds a time on the playback clock is the
      rational value ([Q], seconds) of an IEEE 754 double; sums and quotients
      of such numbers are rounded to the nearest double, ties to even
      ([Double.round]).  Timer times are integers ([Z], milliseconds).
    - A promise is its final outcome together with the effects performed on the
      way (console lines, sleeps, requests); React state setters are applied at
      once.
    - Platform calls that the code cannot influence (the network request, media
      capture, the storage read) are inputs of the functions.
    - What the hook sends to the session is recorded by its MIME type;
      [createBlob] and [encode] are embedded on their own, the canvas is
      not. *)

From Stdlib Require Import Ascii String NArith ZArith QArith Qminmax Qabs Qround
  Qpower Lia Lqa.
From stdpp Require Import base option strings list gmap.

Open Scope string_scope.
Open Scope list_scope.

(** ** JavaScript strings *)

Module JsString.

(** [!!s] for a string: only the empty string is falsy. *)
Definition truthy (s : string) : bool :=
  match s with EmptyString => false | String _ _ => true end.

Definition code (c : ascii) : N := N_of_ascii c.

(** One-byte white space: TAB, LF, VT, FF, CR, SPACE. *)
Definition is_space1 (a : ascii) : bool :=
  ((9 <=? code a) && (code a <=? 13) || (code a =? 32))%N.

(** Two-byte white space: U+00A0 (C2 A0). *)
Definition is_space2 (a b : ascii) : bool :=
  ((code a =? 194) && (code b =? 160))%N.

(** Three-byte white space: U+1680, U+2000..U+200A, U+2028, U+2029, U+202F,
    U+205F, U+3000, U+FEFF. *)
Definition is_space3 (a b c : ascii) : bool :=
  let '(x, y, z) := (code a, code b, code c) in
  ((x =? 225) && (y =? 154) && (z =? 128)
   || (x =? 226) && (y =? 128)
      && ((128 <=? z) && (z <=? 138) || (z =? 168) || (z =? 169) || (z =? 175))
   || (x =? 226) && (y =? 129) && (z =? 159)
   || (x =? 227) && (y =? 128) && (z =? 128)
   || (x =? 239) && (y =? 187) && (z =? 191))%N.

(** Drop every white-space character at the head of [s]; [p2] and [p3]
    recognise the two- and three-byte ones in the order the bytes are met. *)
Fixpoint drop_spaces (p2 : ascii -> ascii -> bool)
    (p3 : ascii -> ascii -> ascii -> bool) (s : string) : string :=
  match s with
  | EmptyString => s
  | String a r =>
      if is_space1 a then drop_spaces p2 p3 r
      else match r with
           | EmptyString => s
           | String b r2 =>
               if p2 a b then drop_spaces p2 p3 r2
               else match r2 with
                    | EmptyString => s
                    | String c r3 =>
                        if p3 a b c then drop_spaces p2 p3 r3 else s
                    end
           end
  end.

(** [String.prototype.trimStart], also the greedy [\s*] at a fixed start. *)
Definition trimStart (s : string) : string :=
  drop_spaces is_space2 is_space3 s.

(** [String.prototype.trimEnd]: the same scan over the reversed bytes. *)
Definition trimEnd (s : string) : string :=
  String.rev
    (drop_spaces (fun a b => is_space2 b a) (fun a b c => is_space3 c b a)
       (String.rev s)).

(** [String.prototype.trim]. *)
Definition trim (s : string) : string := trimEnd (trimStart s).

(** [s] minus the prefix [p] when it starts with it. *)
Fixpoint strip_prefix (p s : string) : option string :=
  match p, s with
  | EmptyString, _ => Some s
  | String a p', String b s' =>
      if Ascii.eqb a b then strip_prefix p' s' else None
  | String _ _, EmptyString => None
  end.

(** [s] minus the suffix [p] when it ends with it. *)
Definition strip_suffix (p s : string) : option string :=
  String.rev <$> strip_prefix (String.rev p) (String.rev s).

End JsString.

(** ** cleanJson *)

(** [text.replace(/^```json\s*/, '')]: the pattern is anchored at the start,
    so it matches iff the text starts with the fence, and the greedy [\s*]
    takes all the white space that follows. *)
Definition replace_fence_open (text : string) : string :=
  match JsString.strip_prefix "```json" text with
  | Some rest => JsString.trimStart rest
  | None => text
  end.

(** [text.replace(/\s*```$/, '')]: without the [m] flag [$] is the end of the
    input, so there is a match iff the text ends with three backticks; the
    leftmost match starts at the beginning of the white-space run before them. *)
Definition replace_fence_close (text : string) : string :=
  match JsString.strip_suffix "```" text with
  | Some body => JsString.trimEnd body
  | None => text
  end.

Definition cleanJson (text : string) : string :=
  if JsString.truthy text
  then JsString.trim (replace_fence_close (replace_fence_open text))
  else "{}".

(** ** JSON values and [JSON.parse] *)

(** A JavaScript value as [JSON.parse] builds it and as the object literals of
    the module write it.  Numbers are exact rationals (no rounding to a
    double); the fields of an object are kept in insertion order (keys that
    look like array indices are not moved to the front). *)
#[local] Unset Elimination Schemes.
Inductive json : Type :=
  | JNull
  | JBool (b : bool)
  | JNumber (q : Q)
  | JString (s : string)
  | JArray (items : list json)
  | JObject (fields : list (string * json)).
#[local] Set Elimination Schemes.

Module JsonParse.

Inductive parsed (A : Type) : Type :=
  | Parsed (a : A) (rest : string)
  | SyntaxError
  | OutOfFuel.
Arguments Parsed {A} a rest.
Arguments SyntaxError {A}.
Arguments OutOfFuel {A}.

Definition code := JsString.code.

(** JSON white space: SPACE, TAB, LF, CR. *)
Definition is_ws (a : ascii) : bool :=
  ((code a =? 32) || (code a =? 9) || (code a =? 10) || (code a =? 13))%N.

Fixpoint skip_ws (s : string) : string :=
  match s with
  | String a r => if is_ws a then skip_ws r else s
  | EmptyString => s
  end.

Definition is_digit (a : ascii) : bool :=
  ((48 <=? code a) && (code a <=? 57))%N.

(** Read a run of decimal digits: its value after [acc], how many digits
    were read, and the rest. *)
Fixpoint digits (s : string) (acc : N) (n : nat) : N * nat * string :=
  match s with
  | String a r =>
      if is_digit a then digits r (acc * 10 + (code a - 48))%N (S n)
      else (acc, n, s)
  | EmptyString => (acc, n, s)
  end.

(** The number [(-1)^neg * m * 10^e] in lowest terms. *)
Definition decimal (neg : bool) (m : N) (e : Z) : Q :=
  let m' := if neg then Z.opp (Z.of_N m) else Z.of_N m in
  Qred (match e with
        | Zneg p => Qmake m' (Pos.pow 10 p)
        | _ => Qmake (m' * 10 ^ e) 1
        end).

(** The optional exponent part of a number. *)
Definition parse_exponent (s : string) : option (Z * string) :=
  match s with
  | String a r =>
      if ((code a =? 101) || (code a =? 69))%N then
        let '(neg, r1) :=
          match r with
          | String b r' =>
              if (code b =? 45)%N then (true, r')
              else if (code b =? 43)%N then (false, r') else (false, r)
          | EmptyString => (false, r)
          end in
        let '(v, n, r2) := digits r1 0%N 0 in
        match n with
        | O => None
        | S _ => Some (if neg then Z.opp (Z.of_N v) else Z.of_N v, r2)
        end
      else Some (0%Z, s)
  | EmptyString => Some (0%Z, s)
  end.

(** A JSON number: an optional minus sign; a zero, or a nonzero digit and
    more digits; an optional fraction (a dot and one digit or more); an
    optional exponent (e or E, an optional sign, one digit or more). *)
Definition parse_number (s : string) : option (Q * string) :=
  let '(neg, s1) :=
    match s with
    | String a r => if (code a =? 45)%N then (true, r) else (false, s)
    | EmptyString => (false, s)
    end in
  match s1 with
  | String a r =>
      if is_digit a then
        let '(int, _, r1) :=
          if (code a =? 48)%N then (0%N, 1, r) else digits s1 0%N 0 in
        '(m, fl, r2) ←
          match r1 with
          | String d r' =>
              if (code d =? 46)%N then
                let '(v, n, r'') := digits r' int 0 in
                match n with O => None | S _ => Some (v, n, r'') end
              else Some (int, 0, r1)
          | EmptyString => Some (int, 0, r1)
          end;
        '(e, r3) ← parse_exponent r2;
        Some (decimal neg m (e - Z.of_nat fl), r3)
      else None
  | EmptyString => None
  end.

Definition hex_digit (a : ascii) : option N :=
  let c := code a in
  if ((48 <=? c) && (c <=? 57))%N then Some (c - 48)%N
  else if ((65 <=? c) && (c <=? 70))%N then Some (c - 55)%N
  else if ((97 <=? c) && (c <=? 102))%N then Some (c - 87)%N
  else None.

(** What a string literal is made of: a byte of the text as it stands, or a
    UTF-16 code unit written as an escape. *)
Inductive item : Type :=
  | Raw (a : ascii)
  | Unit (u : N).

Definition simple_escape (a : ascii) : option N :=
  let c := code a in
  if (c =? 34)%N then Some 34%N          (* quote *)
  else if (c =? 92)%N then Some 92%N     (* backslash *)
  else if (c =? 47)%N then Some 47%N     (* slash *)
  else if (c =? 98)%N then Some 8%N      (* b *)
  else if (c =? 102)%N then Some 12%N    (* f *)
  else if (c =? 110)%N then Some 10%N    (* n *)
  else if (c =? 114)%N then Some 13%N    (* r *)
  else if (c =? 116)%N then Some 9%N     (* t *)
  else None.

(** The items of a string literal after its opening quote, up to the
    closing quote. Control characters below U+0020 are refused. *)
Fixpoint string_items (s : string) : option (list item * string) :=
  match s with
  | EmptyString => None
  | String a r =>
      if (code a =? 34)%N then Some ([], r)
      else if (code a <? 32)%N then None
      else if (code a =? 92)%N then
        match r with
        | String b r1 =>
            if (code b =? 117)%N then
              match r1 with
              | String h1 (String h2 (String h3 (String h4 r2))) =>
                  x1 ← hex_digit h1; x2 ← hex_digit h2;
                  x3 ← hex_digit h3; x4 ← hex_digit h4;
                  '(its, rest) ← string_items r2;
                  Some (Unit (((x1 * 16 + x2) * 16 + x3) * 16 + x4)%N :: its,
                        rest)
              | _ => None
              end
            else
              u ← simple_escape b;
              '(its, rest) ← string_items r1;
              Some (Unit u :: its, rest)
        | EmptyString => None
        end
      else
        '(its, rest) ← string_items r;
        Some (Raw a :: its, rest)
  end.

Definition byte (n : N) : ascii := ascii_of_N n.

(** The (generalised) UTF-8 bytes of a code point. *)
Definition utf8 (cp : N) : list ascii :=
  (if cp <? 128 then [byte cp]
   else if cp <? 2048 then [byte (192 + cp / 64); byte (128 + cp mod 64)]
   else if cp <? 65536 then
     [byte (224 + cp / 4096); byte (128 + (cp / 64) mod 64);
      byte (128 + cp mod 64)]
   else
     [byte (240 + cp / 262144); byte (128 + (cp / 4096) mod 64);
      byte (128 + (cp / 64) mod 64); byte (128 + cp mod 64)])%N.

Definition is_high (u : N) : bool := ((55296 <=? u) && (u <=? 56319))%N.
Definition is_low (u : N) : bool := ((56320 <=? u) && (u <=? 57343))%N.

(** The bytes of the string the items denote: a high surrogate followed by
    a low one is one code point. *)
Fixpoint bytes_of_items (its : list item) : list ascii :=
  match its with
  | [] => []
  | Raw a :: r => a :: bytes_of_items r
  | Unit h :: r =>
      match r with
      | Unit l :: r' =>
          if is_high h && is_low l
          then utf8 (65536 + (h - 55296) * 1024 + (l - 56320))%N
                 ++ bytes_of_items r'
          else utf8 h ++ bytes_of_items r
      | _ => utf8 h ++ bytes_of_items r
      end
  end.

(** A string literal after its opening quote. *)
Definition parse_string (s : string) : option (string * string) :=
  '(its, rest) ← string_items s;
  Some (string_of_list_ascii (bytes_of_items its), rest).

(** Define property [k] of an object under construction: an existing key
    keeps its place and takes the new value. *)
Fixpoint set_field (k : string) (v : json) (fields : list (string * json))
    : list (string * json) :=
  match fields with
  | [] => [(k, v)]
  | (k', v') :: r =>
      if String.eqb k k' then (k, v) :: r else (k', v') :: set_field k v r
  end.

Definition lift {A} (o : option (A * string)) : parsed A :=
  match o with Some (a, r) => Parsed a r | None => SyntaxError end.

Definition QUOTE : N := 34.

Fixpoint parse_value (fuel : nat) (s : string) : parsed json :=
  match fuel with
  | O => OutOfFuel
  | S f =>
      match skip_ws s with
      | EmptyString => SyntaxError
      | String a r as s' =>
          if (code a =? 123)%N then                         (* { *)
            match skip_ws r with
            | String b r' =>
                if (code b =? 125)%N then Parsed (JObject []) r'
                else parse_members f r []
            | EmptyString => SyntaxError
            end
          else if (code a =? 91)%N then                     (* [ *)
            match skip_ws r with
            | String b r' =>
                if (code b =? 93)%N then Parsed (JArray []) r'
                else parse_elements f r []
            | EmptyString => SyntaxError
            end
          else if (code a =? QUOTE)%N then
            match parse_string r with
            | Some (str, r') => Parsed (JString str) r'
            | None => SyntaxError
            end
          else
            match JsString.strip_prefix "true" s',
                  JsString.strip_prefix "false" s',
                  JsString.strip_prefix "null" s' with
            | Some r', _, _ => Parsed (JBool true) r'
            | _, Some r', _ => Parsed (JBool false) r'
            | _, _, Some r' => Parsed JNull r'
            | None, None, None =>
                match parse_number s' with
                | Some (q, r') => Parsed (JNumber q) r'
                | None => SyntaxError
                end
            end
      end
  end
with parse_elements (fuel : nat) (s : string) (acc : list json)
    : parsed json :=
  match fuel with
  | O => OutOfFuel
  | S f =>
      match parse_value f s with
      | Parsed v r =>
          match skip_ws r with
          | String b r' =>
              if (code b =? 44)%N then parse_elements f r' (acc ++ [v])
              else if (code b =? 93)%N then Parsed (JArray (acc ++ [v])) r'
              else SyntaxError
          | EmptyString => SyntaxError
          end
      | SyntaxError => SyntaxError
      | OutOfFuel => OutOfFuel
      end
  end
with parse_members (fuel : nat) (s : string) (acc : list (string * json))
    : parsed json :=
  match fuel with
  | O => OutOfFuel
  | S f =>
      match skip_ws s with
      | String q r =>
          if (code q =? QUOTE)%N then
            match parse_string r with
            | Some (k, r1) =>
                match skip_ws r1 with
                | String c r2 =>
                    if (code c =? 58)%N then
                      match parse_value f r2 with
                      | Parsed v r3 =>
                          match skip_ws r3 with
                          | String b r' =>
                              if (code b =? 44)%N
                              then parse_members f r' (set_field k v acc)
                              else if (code b =? 125)%N
                              then Parsed (JObject (set_field k v acc)) r'
                              else SyntaxError
                          | EmptyString => SyntaxError
                          end
                      | SyntaxError => SyntaxError
                      | OutOfFuel => OutOfFuel
                      end
                    else SyntaxError
                | EmptyString => SyntaxError
                end
            | None => SyntaxError
            end
          else SyntaxError
      | EmptyString => SyntaxError
      end
  end.

End JsonParse.

(** Exceptions: a computation returns or throws. *)
Inductive JsError : Type :=
  | SyntaxError_                 (* JSON.parse *)
  | ApiError (message : string)  (* a failed request *)
  | Error_ (message : string).   (* new Error(message) *)

Inductive exn (A : Type) : Type :=
  | Return (a : A)
  | Throw (e : JsError).
Arguments Return {A} a.
Arguments Throw {A} e.

(** [JSON.parse]: one value between optional white space. *)
Definition JSON_parse (text : string) : exn json :=
  match JsonParse.parse_value (2 * String.length text + 2) text with
  | JsonParse.Parsed v rest =>
      match JsonParse.skip_ws rest with
      | EmptyString => Return v
      | String _ _ => Throw SyntaxError_
      end
  | _ => Throw SyntaxError_
  end.

Definition LF : string := String (ascii_of_N 10) EmptyString.
Definition DQ : string := String (ascii_of_N 34) EmptyString.

(** The text [{"a":1}]. *)
Definition plain_sample : string := "{" +:+ DQ +:+ "a" +:+ DQ +:+ ":1}".

(** The same text inside a Markdown fence. *)
Definition fenced_sample : string :=
  "```json" +:+ LF +:+ plain_sample +:+ LF +:+ "```".

(** ** The helper module: credential, client and mock payloads *)

(** [localStorage]: a string-keyed store, or one whose every access throws
    (storage disabled by the browser). *)
Inductive Storage : Type :=
  | Blocked
  | Store (entries : gmap string string).

(** The global [process], when the bundle defines one, and its [env]. *)
Record Process : Type := { env : option (gmap string string) }.

Record Host : Type := {
  localStorage : Storage;
  process : option Process;
}.

Definition SecurityError : JsError := Error_ "SecurityError".

Definition getItem (st : Storage) (key : string) : exn (option string) :=
  match st with
  | Blocked => Throw SecurityError
  | Store m => Return (m !! key)
  end.

Definition setItem (st : Storage) (key value : string) : exn Storage :=
  match st with
  | Blocked => Throw SecurityError
  | Store m => Return (Store (<[key := value]> m))
  end.

Definition removeItem (st : Storage) (key : string) : exn Storage :=
  match st with
  | Blocked => Throw SecurityError
  | Store m => Return (Store (delete key m))
  end.

(** Truthiness of a value that is a string, [null] or [undefined]. *)
Definition truthy_opt (o : option string) : bool :=
  match o with Some s => JsString.truthy s | None => false end.

(** [typeof process !== 'undefined' && process.env && process.env.API_KEY]. *)
Definition env_API_KEY (p : option Process) : option string :=
  pr ← p; e ← env pr; e !! "API_KEY".

(** The SDK client: what the module keeps of it is the key it was built with. *)
Record GoogleGenAI : Type := { apiKey : string }.

Definition new_GoogleGenAI (key : string) : exn GoogleGenAI :=
  Return {| apiKey := key |}.

#[global] Instance exn_ret : MRet exn := fun _ a => Return a.
#[global] Instance exn_bind : MBind exn := fun _ _ f m =>
  match m with Return a => f a | Throw e => Throw e end.

Definition MODEL_FLASH : string := "gemini-2.5-flash".
Definition STORAGE_KEY : string := "gemini_api_key".

(** [initializeAI]: the new value of the module variable [ai], given its old
    one.  The whole body is inside one [try]; the [catch] only warns. *)
Definition initializeAI (h : Host) (ai : option GoogleGenAI)
    : option GoogleGenAI :=
  let body : exn (option GoogleGenAI) :=
    localKey ← getItem (localStorage h) STORAGE_KEY;
    if truthy_opt localKey then
      c ← new_GoogleGenAI (default EmptyString localKey); mret (Some c)
    else
      let k := env_API_KEY (process h) in
      if truthy_opt k then
        c ← new_GoogleGenAI (default EmptyString k); mret (Some c)
      else mret ai in
  match body with
  | Return ai' => ai'
  | Throw _ => ai
  end.

(** The module runs [initializeAI] once when it is loaded, with [ai = null]. *)
Definition ai_at_load (h : Host) : option GoogleGenAI := initializeAI h None.

(** [updateApiKey]: the new [ai] and storage, and whether the call threw. *)
Definition updateApiKey (key : string) (ai : option GoogleGenAI) (st : Storage)
    : option GoogleGenAI * Storage * exn unit :=
  if negb (JsString.truthy key) then
    match removeItem st STORAGE_KEY with
    | Return st' => (None, st', Return tt)
    | Throw e => (None, st, Throw e)
    end
  else
    match new_GoogleGenAI key with
    | Return c =>
        match setItem st STORAGE_KEY key with
        | Return st' => (Some c, st', Return tt)
        | Throw _ => (Some c, st, Return tt)
        end
    | Throw _ => (ai, st, Return tt)
    end.

Definition hasApiKey (ai : option GoogleGenAI) : bool :=
  match ai with Some _ => true | None => false end.

(** *** Mock data for the offline mode *)

Definition num (z : Z) : json := JNumber (inject_Z z).
Definition strings (l : list string) : json := JArray (JString <$> l).

Definition suggested_role (title : string) (matchScore : Z)
    (reasoning : string) (requiredSkills : list string) : json :=
  JObject [("title", JString title); ("matchScore", num matchScore);
           ("reasoning", JString reasoning);
           ("requiredSkills", strings requiredSkills)].

Definition MOCK_RESUME : json :=
  JObject
    [("fullName", JString "Alex Demo (Offline Mode)");
     ("summary", JString "This is a generated profile for the Demo Mode. The candidate is a skilled Frontend Engineer with experience in React and modern web technologies. (No API Key detected)");
     ("skills", strings ["React"; "TypeScript"; "Tailwind CSS"; "Node.js"; "System Design"; "GraphQL"]);
     ("yearsOfExperience", num 4);
     ("suggestedRoles", JArray
        [suggested_role "Senior Frontend Engineer" 92
           "Excellent match based on strong React and TypeScript background demonstrated in the demo profile."
           ["Advanced React"; "Performance Optimization"; "Micro-frontends"; "CI/CD"];
         suggested_role "Full Stack Developer" 85
           "Solid foundation for full stack, though stronger on the frontend. Good potential for growth."
           ["Node.js"; "PostgreSQL"; "AWS"; "Docker"];
         suggested_role "Product Engineer" 78
           "Skills align well with product-focused roles that require both technical implementation and UX sensitivity."
           ["Product Analytics"; "A/B Testing"; "UX Research"; "Agile Methodologies"]])].

Definition resource (title type url description : string) : json :=
  JObject [("title", JString title); ("type", JString type);
           ("url", JString url); ("description", JString description)].

Definition MOCK_RESOURCES : list json :=
  [resource "Advanced React Patterns & Performance" "Course"
     "https://react.dev/learn"
     "Deep dive into concurrency, suspense, and advanced hooks for building scalable applications.";
   resource "The Total TypeScript Handbook" "Documentation"
     "https://www.typescriptlang.org/docs/"
     "Comprehensive guide to static typing, generics, and type manipulation.";
   resource "System Design for Client-Side Engineers" "Article" "#"
     "Learn how to design large-scale frontend applications, focusing on caching, state management, and network performance.";
   resource "Web Accessibility (A11y) Masterclass" "Video" "#"
     "Ensure your applications are usable by everyone. Covers ARIA, focus management, and screen readers.";
   resource "Modern CSS Architecture" "Article" "#"
     "Strategies for scalable CSS using Tailwind, CSS Modules, or CSS-in-JS."].

Definition question (text : string) (options : list string)
    (correctAnswer : Z) (explanation category : string) : json :=
  JObject [("question", JString text); ("options", strings options);
           ("correctAnswer", num correctAnswer);
           ("explanation", JString explanation);
           ("category", JString category)].

Definition MOCK_QUIZ : list json :=
  [question "In React, what is the main purpose of the `useEffect` cleanup function?"
     ["To clear the component's state";
      "To cancel subscriptions, timers, or listeners to prevent memory leaks";
      "To trigger a re-render";
      "To delete the component from the DOM immediately"]
     1
     "The cleanup function is called before the component unmounts or before the effect runs again, allowing you to clean up side effects like subscriptions."
     "Technical";
   question "Which HTTP status code indicates that the resource was not found on the server?"
     ["200 OK"; "301 Moved Permanently"; "404 Not Found"; "500 Internal Server Error"]
     2
     "404 indicates that the server cannot find the requested resource."
     "Technical";
   question "A bat and a ball cost $1.10 in total. The bat costs $1.00 more than the ball. How much does the ball cost?"
     ["$0.05"; "$0.10"; "$0.15"; "$0.01"]
     0
     "If Ball = x, then Bat = x + 1. Total = x + (x + 1) = 1.10. 2x = 0.10, so x = 0.05."
     "Aptitude";
   question "What does the 'C' in ACID properties of database transactions stand for?"
     ["Capacity"; "Consistency"; "Concurrency"; "Durability"]
     1
     "ACID stands for Atomicity, Consistency, Isolation, and Durability."
     "Technical";
   question "You have a disagreement with a senior engineer about a technical implementation. How do you handle it?"
     ["Do it their way immediately to avoid conflict";
      "Argue until they agree with you";
      "Present data and pros/cons for both approaches and discuss openly";
      "Escalate to the manager"]
     2
     "Focusing on data, trade-offs, and open discussion is the most professional and productive approach."
     "Behavioral"].

Definition job (title company location url : string) : json :=
  JObject [("title", JString title); ("company", JString company);
           ("location", JString location); ("url", JString url)].

Definition MOCK_JOBS : list json :=
  [job "Senior Frontend Developer" "TechCorp (Demo)" "Remote" "#";
   job "React Native Engineer" "AppStudio (Demo)" "New York, NY" "#";
   job "UI Platform Engineer" "CloudScale (Demo)" "San Francisco, CA" "#";
   job "Software Engineer, Frontend" "Streamline (Demo)" "London, UK" "#";
   job "Full Stack Engineer" "StartupX (Demo)" "Austin, TX" "#"].

(** *** Prompts *)

Definition parseResumeDocument_prompt : string :=
    String.concat LF
      [ EmptyString;
        "      Analyze this document. It could be a Resume, a CV, or an Employment Offer Letter.";
        "      ";
        "      1. If it is a **Resume/CV**: Extract the candidate's details normally.";
        "      2. If it is an **Offer Letter** or **Job Description**: ";
        "         - Extract the candidate name (if present).";
        "         - Treat the " +:+ DQ +:+ "Job Role" +:+ DQ +:+ " mentioned as a " +:+ DQ +:+ "Suggested Role" +:+ DQ +:+ ".";
        "         - Treat the " +:+ DQ +:+ "Required Skills" +:+ DQ +:+ " mentioned in the letter as the candidate's current or required skills.";
        "         - Construct a summary based on the role offered.";
        "      ";
        "      Return structured JSON with:";
        "      1. Full Name";
        "      2. A professional summary (max 50 words)";
        "      3. Key skills (array of strings) - if an offer letter, list skills mentioned in the letter (e.g. ML, Deep Learning, Data Analysis).";
        "      4. Total years of experience (number) - estimate or set to 0 if intern.";
        "      5. Suggest 3 distinct job roles. If it's an offer letter, the FIRST role MUST be the one offered in the document.";
        "         For each role, provide a match score (0-100), a brief reasoning, and a list of 5 required technical skills.";
        "    " ].

Definition generateLearningPath_prompt (role : string)
    (currentSkills : list string) : string :=
    String.concat LF
      [ EmptyString;
        "      Create a study plan for a candidate targeting the role of " +:+ DQ +:+ role +:+ DQ +:+ ".";
        "      Their current skills are: " +:+ String.concat ", " currentSkills +:+ ".";
        "      Provide a list of 5 high-quality learning resources (Courses, Articles, Documentation) to close skill gaps.";
        "    " ].

Definition generateQuiz_prompt (role difficulty topic : string) : string :=
    String.concat LF
      [ EmptyString;
        "      Generate a " +:+ difficulty +:+ " " +:+ topic +:+ " quiz for a " +:+ DQ +:+ role +:+ DQ +:+ " interview.";
        "      Create 5 multiple-choice questions.";
        "    " ].

Definition generateAptitudePrep_prompt : string :=
    String.concat LF
      [ EmptyString;
        "      Provide 5 general aptitude and logical reasoning preparation topics and resources for a job interview.";
        "      Focus on quantitative aptitude, logical reasoning, and verbal ability.";
        "    " ].

Definition generateFullMockTest_prompt (role : string) : string :=
    String.concat LF
      [ EmptyString;
        "      Create a comprehensive 10-question mock test for a " +:+ DQ +:+ role +:+ DQ +:+ " candidate.";
        "      Include:";
        "      - 5 Technical questions related to the role";
        "      - 3 Aptitude/Logic questions";
        "      - 2 Behavioral/Situational questions";
        "      Return as a JSON array.";
        "    " ].

Definition searchJobs_prompt (role location : string) : string :=
    "Find 5 recent job listings for " +:+ DQ +:+ role +:+ DQ +:+ " in " +:+ DQ +:+ location +:+ DQ +:+ ". Return the results using the Google Search tool.".

(** *** Response schemas *)

(** The part of the SDK's schema language the module uses: [Type.STRING] with
    an optional [enum], [Type.NUMBER], [Type.INTEGER], [Type.ARRAY] with its
    [items], [Type.OBJECT] with its [properties]. *)
#[local] Unset Elimination Schemes.
Inductive Schema : Type :=
  | TString (enum : option (list string))
  | TNumber
  | TInteger
  | TArray (items : Schema)
  | TObject (properties : list (string * Schema)).
#[local] Set Elimination Schemes.

Definition STRING : Schema := TString None.
Definition STRINGS : Schema := TArray STRING.

Definition resumeSchema : Schema :=
  TObject
    [("fullName", STRING);
     ("summary", STRING);
     ("skills", STRINGS);
     ("yearsOfExperience", TNumber);
     ("suggestedRoles", TArray (TObject
        [("title", STRING);
         ("matchScore", TNumber);
         ("reasoning", STRING);
         ("requiredSkills", STRINGS)]))].

Definition learningPathSchema : Schema :=
  TArray (TObject
    [("title", STRING);
     ("type", TString (Some ["Course"; "Article"; "Video"; "Documentation"]));
     ("url", STRING);
     ("description", STRING)]).

Definition quizSchema : Schema :=
  TArray (TObject
    [("question", STRING);
     ("options", STRINGS);
     ("correctAnswer", TInteger);
     ("explanation", STRING);
     ("category", TString (Some ["Technical"; "Aptitude"; "Behavioral"]))]).

Definition aptitudePrepSchema : Schema :=
  TArray (TObject
    [("title", STRING);
     ("type", TString (Some ["Article"; "Video"; "Documentation"]));
     ("url", STRING);
     ("description", STRING)]).

Definition fullMockTestSchema : Schema :=
  TArray (TObject
    [("question", STRING);
     ("options", STRINGS);
     ("correctAnswer", TInteger);
     ("explanation", STRING);
     ("category", TString (Some ["Technical"; "Aptitude"; "Behavioral"]))]).

Definition mem (s : string) (l : list string) : bool :=
  existsb (String.eqb s) l.

(** The value of property [k], the last definition winning. *)
Fixpoint field (k : string) (fields : list (string * json)) : option json :=
  match fields with
  | [] => None
  | (k', v) :: r =>
      match field k r with
      | Some v' => Some v'
      | None => if String.eqb k k' then Some v else None
      end
  end.

(** A value has the shape a schema declares: the right kind of value, a
    string inside the [enum] when there is one, an integral number for
    [Type.INTEGER], every element of an array shaped as [items], and for an
    object every declared property present and well shaped and no property
    that is not declared. *)
Fixpoint conforms (sc : Schema) (v : json) {struct sc} : bool :=
  match sc, v with
  | TString None, JString _ => true
  | TString (Some allowed), JString s => mem s allowed
  | TNumber, JNumber _ => true
  | TInteger, JNumber q => (Qden (Qred q) =? 1)%positive
  | TArray it, JArray l => forallb (conforms it) l
  | TObject props, JObject fields =>
      (fix declared (ps : list (string * Schema)) : bool :=
         match ps with
         | [] => true
         | (k, s) :: r =>
             match field k fields with
             | Some x => conforms s x
             | None => false
             end && declared r
         end) props
      && forallb (fun kv => mem (fst kv) (fst <$> props)) fields
  | _, _ => false
  end.

(** *** Requests, responses and the effects of a helper *)

Inductive Part : Type :=
  | InlineData (mimeType data : string)
  | Text (text : string).

Inductive Contents : Type :=
  | Prompt (text : string)
  | Parts (parts : list Part).

Inductive Tool : Type := GoogleSearch.

Record Config : Type := {
  responseMimeType : option string;
  responseSchema : option Schema;
  tools : list Tool;
}.

Record GenerateContentParameters : Type := {
  model : string;
  contents : Contents;
  config : Config;
}.

Record Web : Type := { uri : option string; title : option string }.
Record GroundingChunk : Type := { web : option Web }.
Record GroundingMetadata : Type := {
  groundingChunks : option (list GroundingChunk);
}.
Record Candidate : Type := { groundingMetadata : option GroundingMetadata }.

Record GenerateContentResponse : Type := {
  text : option string;
  candidates : option (list Candidate);
}.

(** What [ai.models.generateContent] does with a request: the service and the
    network behind it are not part of the program. *)
Definition Network : Type :=
  GoogleGenAI -> GenerateContentParameters -> exn GenerateContentResponse.

Inductive Effect : Type :=
  | ConsoleInfo (message : string)
  | ConsoleWarn (message : string) (error : JsError)
  | Sleep (ms : Z)
  | Request (client : GoogleGenAI) (params : GenerateContentParameters).

(** An [async] function body: the effects it performed, in order, and how the
    promise it returned is settled ([Return]: resolved, [Throw]: rejected). *)
Definition Async (A : Type) : Type := (list Effect * exn A)%type.

#[global] Instance Async_ret : MRet Async := fun _ a => ([], Return a).
#[global] Instance Async_bind : MBind Async := fun _ _ f m =>
  match m with
  | (es, Return a) => let '(es', r) := f a in ((es ++ es')%list, r)
  | (es, Throw e) => (es, Throw e)
  end.

Definition perform (e : Effect) : Async unit := ([e], Return tt).
Definition settle {A} (x : exn A) : Async A := ([], x).

(** [try { body } catch (error) { handler }]. *)
Definition try_catch {A} (body : Async A) (handler : JsError -> Async A)
    : Async A :=
  match body with
  | (es, Return a) => (es, Return a)
  | (es, Throw e) => let '(es', r) := handler e in ((es ++ es')%list, r)
  end.

(** [await new Promise(r => setTimeout(r, ms))]. *)
Definition sleep (ms : Z) : Async unit := perform (Sleep ms).

(** [await ai.models.generateContent(params)]. *)
Definition generateContent (net : Network) (client : GoogleGenAI)
    (params : GenerateContentParameters) : Async GenerateContentResponse :=
  perform (Request client params);; settle (net client params).

Definition resolved {A} (r : Async A) : option A :=
  match r.2 with Return a => Some a | Throw _ => None end.

Definition rejected {A} (r : Async A) : bool :=
  match r.2 with Return _ => false | Throw _ => true end.

(** [a || b] for strings that may be undefined. *)
Definition or_else (a : option string) (b : string) : string :=
  match a with
  | Some s => if JsString.truthy s then s else b
  | None => b
  end.

Definition handleOfflineError {A} (error : JsError) (mockData : A)
    (context : string) : Async A :=
  perform (ConsoleWarn ("Gemini API Error in " +:+ context
                        +:+ " (or Offline Mode). Returning mock data.") error);;
  mret mockData.

Definition json_config (sc : Schema) : Config :=
  {| responseMimeType := Some "application/json";
     responseSchema := Some sc;
     tools := [] |}.

(** *** The helpers *)

(** The request each helper sends. *)
Definition parseResumeDocument_request (base64Data mimeType : string)
    : GenerateContentParameters :=
  {| model := MODEL_FLASH;
     contents := Parts [InlineData mimeType base64Data;
                        Text parseResumeDocument_prompt];
     config := json_config resumeSchema |}.

Definition generateLearningPath_request (role : string)
    (currentSkills : list string) : GenerateContentParameters :=
  {| model := MODEL_FLASH;
     contents := Prompt (generateLearningPath_prompt role currentSkills);
     config := json_config learningPathSchema |}.

Definition generateQuiz_request (role difficulty topic : string)
    : GenerateContentParameters :=
  {| model := MODEL_FLASH;
     contents := Prompt (generateQuiz_prompt role difficulty topic);
     config := json_config quizSchema |}.

Definition generateAptitudePrep_request : GenerateContentParameters :=
  {| model := MODEL_FLASH;
     contents := Prompt generateAptitudePrep_prompt;
     config := json_config aptitudePrepSchema |}.

Definition generateFullMockTest_request (role : string)
    : GenerateContentParameters :=
  {| model := MODEL_FLASH;
     contents := Prompt (generateFullMockTest_prompt role);
     config := json_config fullMockTestSchema |}.

Definition searchJobs_request (role location : string)
    : GenerateContentParameters :=
  {| model := MODEL_FLASH;
     contents := Prompt (searchJobs_prompt role location);
     config := {| responseMimeType := None; responseSchema := None;
                  tools := [GoogleSearch] |} |}.

Definition parseResumeDocument (ai : option GoogleGenAI) (net : Network)
    (base64Data mimeType : string) : Async json :=
  match ai with
  | None =>
      perform (ConsoleInfo "Offline Mode: Returning mock resume.");;
      sleep 1500;;
      mret MOCK_RESUME
  | Some client =>
      try_catch
        (response ← generateContent net client
           (parseResumeDocument_request base64Data mimeType);
         settle (JSON_parse (cleanJson (or_else (text response) "{}"))))
        (fun error => handleOfflineError error MOCK_RESUME "parseResumeDocument")
  end.

Definition generateLearningPath (ai : option GoogleGenAI) (net : Network)
    (role : string) (currentSkills : list string) : Async json :=
  match ai with
  | None => sleep 1000;; mret (JArray MOCK_RESOURCES)
  | Some client =>
      try_catch
        (response ← generateContent net client
           (generateLearningPath_request role currentSkills);
         settle (JSON_parse (cleanJson (or_else (text response) "[]"))))
        (fun error =>
           handleOfflineError error (JArray MOCK_RESOURCES) "generateLearningPath")
  end.

Inductive Difficulty : Type := Easy | Medium | Hard.

Definition Difficulty_text (d : Difficulty) : string :=
  match d with Easy => "Easy" | Medium => "Medium" | Hard => "Hard" end.

(** [topic] is optional and defaults to ['Technical']. *)
Definition generateQuiz (ai : option GoogleGenAI) (net : Network)
    (role : string) (difficulty : Difficulty) (topic : option string)
    : Async json :=
  let topic := default "Technical" topic in
  match ai with
  | None => sleep 1000;; mret (JArray MOCK_QUIZ)
  | Some client =>
      try_catch
        (response ← generateContent net client
           (generateQuiz_request role (Difficulty_text difficulty) topic);
         settle (JSON_parse (cleanJson (or_else (text response) "[]"))))
        (fun error => handleOfflineError error (JArray MOCK_QUIZ) "generateQuiz")
  end.

Definition generateAptitudePrep (ai : option GoogleGenAI) (net : Network)
    : Async json :=
  match ai with
  | None => sleep 1000;; mret (JArray MOCK_RESOURCES)
  | Some client =>
      try_catch
        (response ← generateContent net client
           generateAptitudePrep_request;
         settle (JSON_parse (cleanJson (or_else (text response) "[]"))))
        (fun error =>
           handleOfflineError error (JArray MOCK_RESOURCES) "generateAptitudePrep")
  end.

Definition generateFullMockTest (ai : option GoogleGenAI) (net : Network)
    (role : string) : Async json :=
  match ai with
  | None => sleep 1500;; mret (JArray (MOCK_QUIZ ++ MOCK_QUIZ))
  | Some client =>
      try_catch
        (response ← generateContent net client
           (generateFullMockTest_request role);
         settle (JSON_parse (cleanJson (or_else (text response) "[]"))))
        (fun error =>
           handleOfflineError error (JArray (MOCK_QUIZ ++ MOCK_QUIZ))
             "generateFullMockTest")
  end.

(** [encodeURIComponent]: letters, digits and [-_.!~*'()] stand for
    themselves, every other byte of the UTF-8 text becomes [%XX]; a lone
    surrogate (bytes ED A0..BF ..) raises a [URIError]. *)
Module Uri.

Definition code := JsString.code.

Definition unreserved (a : ascii) : bool :=
  let c := code a in
  ((65 <=? c) && (c <=? 90) || (97 <=? c) && (c <=? 122)
   || (48 <=? c) && (c <=? 57)
   || existsb (N.eqb c) [45; 95; 46; 33; 126; 42; 39; 40; 41])%N.

Definition hex (n : N) : ascii :=
  ascii_of_N (if n <? 10 then 48 + n else 55 + n)%N.

Definition percent (a : ascii) : string :=
  String "%" (String (hex (code a / 16)) (String (hex (code a mod 16)) EmptyString)).

Fixpoint lone_surrogate (s : string) : bool :=
  match s with
  | String a (String b _ as r) =>
      ((code a =? 237) && (160 <=? code b))%N || lone_surrogate r
  | _ => false
  end.

Fixpoint escape (s : string) : string :=
  match s with
  | EmptyString => EmptyString
  | String a r =>
      if unreserved a then String a (escape r) else percent a +:+ escape r
  end.

Definition encodeURIComponent (s : string) : exn string :=
  if lone_surrogate s then Throw (Error_ "URIError") else Return (escape s).

End Uri.

(** [c.web?.uri && c.web?.title] as a condition. *)
Definition cited (c : GroundingChunk) : bool :=
  truthy_opt (w ← web c; uri w) && truthy_opt (w ← web c; title w).

(** The listing made from a citation. *)
Definition listing_of (location : string) (c : GroundingChunk) : json :=
  job (or_else (w ← web c; title w) "Job Opening") "Source: Web" location
      (or_else (w ← web c; uri w) "#").

(** [response.candidates?.[0]?.groundingMetadata?.groundingChunks || []]. *)
Definition chunks_of (response : GenerateContentResponse)
    : list GroundingChunk :=
  default [] (cs ← candidates response; c ← head cs;
              g ← groundingMetadata c; groundingChunks g).

(** [location] is optional and defaults to ["Remote"]. *)
Definition searchJobs (ai : option GoogleGenAI) (net : Network)
    (role : string) (location : option string) : Async json :=
  let location := default "Remote" location in
  match ai with
  | None => sleep 1000;; mret (JArray MOCK_JOBS)
  | Some client =>
      try_catch
        (response ← generateContent net client
           (searchJobs_request role location);
         let chunks := chunks_of response in
         let listings :=
           take 6 (listing_of location <$> List.filter cited chunks) in
         if (length listings =? 0)%nat then
           q ← settle (Uri.encodeURIComponent (role +:+ " jobs"));
           mret (JArray
                   [job (role +:+ " - Search Results") "Google Search" location
                      ("https://www.google.com/search?q=" +:+ q)])
         else mret (JArray listings))
        (fun error => handleOfflineError error (JArray MOCK_JOBS) "searchJobs")
  end.

(** ** Equality of values *)

Fixpoint json_eqb (x y : json) {struct x} : bool :=
  match x, y with
  | JNull, JNull => true
  | JBool a, JBool b => Bool.eqb a b
  | JNumber p, JNumber q =>
      (Qnum p =? Qnum q)%Z && (Qden p =? Qden q)%positive
  | JString s, JString t => String.eqb s t
  | JArray l, JArray m =>
      (fix go (l m : list json) {struct l} : bool :=
         match l, m with
         | [], [] => true
         | a :: l', b :: m' => json_eqb a b && go l' m'
         | _, _ => false
         end) l m
  | JObject l, JObject m =>
      (fix go (l m : list (string * json)) {struct l} : bool :=
         match l, m with
         | [], [] => true
         | (j, a) :: l', (k, b) :: m' =>
             String.eqb j k && json_eqb a b && go l' m'
         | _, _ => false
         end) l m
  | _, _ => false
  end.

(** How many elements of [l] are the value [x]. *)
Definition occurrences (x : json) (l : list json) : nat :=
  length (List.filter (json_eqb x) l).

(** ** JavaScript numbers *)

(** The finite IEEE 754 doubles, as rationals: 53 significant bits, the least
    exponent of the last bit is -1074.  Numbers beyond the largest finite
    double (about 1.8e308, where JavaScript gives [Infinity]) are outside the
    model: the exponent is not bounded above. *)
Module Double.
#[local] Open Scope Q_scope.

Definition pow2 (k : Z) : Q := 2 ^ k.

(** For [0 < x], the [k] with [2^k <= x < 2^(k+1)]. *)
Definition ilog2 (x : Q) : Z :=
  let k := (Z.log2 (Qnum x) - Z.log2 (Z.pos (Qden x)))%Z in
  if Qle_bool (pow2 k) x then k else (k - 1)%Z.

(** The nearest integer, a tie going to the even one. *)
Definition nearest (x : Q) : Z :=
  let f := Qfloor x in
  match Qcompare (2 * (x - inject_Z f)) 1 with
  | Lt => f
  | Gt => (f + 1)%Z
  | Eq => if Z.even f then f else (f + 1)%Z
  end.

(** The exponent of the last bit of the double nearest to [x]. *)
Definition exponent (x : Q) : Z := Z.max (ilog2 (Qabs x) - 52) (-1074).

(** Rounding to the nearest double. *)
Definition round (x : Q) : Q :=
  if Qeq_bool x 0 then 0
  else let e := exponent x in
       Qred (inject_Z (nearest (x / pow2 e)) * pow2 e).

(** [x + y] and [x / y] on doubles. *)
Definition add (x y : Q) : Q := round (x + y).
Definition div (x y : Q) : Q := round (x / y).

(** Whether a rational is the value of a double. *)
Definition is_double (x : Q) : bool := Qeq_bool (round x) x.

End Double.

(** ** The live interview hook *)

Module LiveInterview.

(** *** Audio utilities *)

(** [atob]: forgiving base64 decoding.  ASCII white space is dropped, up to
    two padding signs are removed when the length is a multiple of four, a
    length of 1 modulo 4 or a foreign character is an error. *)
Module Base64.

Definition code := JsString.code.

Definition is_ascii_ws (a : ascii) : bool :=
  existsb (N.eqb (code a)) [9; 10; 12; 13; 32]%N.

Definition sextet (a : ascii) : option N :=
  let c := code a in
  if ((65 <=? c) && (c <=? 90))%N then Some (c - 65)%N
  else if ((97 <=? c) && (c <=? 122))%N then Some (c - 71)%N
  else if ((48 <=? c) && (c <=? 57))%N then Some (c + 4)%N
  else if (c =? 43)%N then Some 62%N
  else if (c =? 47)%N then Some 63%N
  else None.

Definition is_pad (a : ascii) : bool := (code a =? 61)%N.

(** Remove one or two trailing padding signs. *)
Definition unpad (l : list ascii) : list ascii :=
  match rev l with
  | a :: b :: r =>
      if is_pad a then (if is_pad b then rev r else rev (b :: r)) else l
  | _ => l
  end.

(** Four sextets make three bytes; two or three left at the end make one
    or two. *)
Fixpoint bytes (l : list N) : list N :=
  match l with
  | a :: b :: c :: d :: r =>
      (a * 4 + b / 16) :: ((b mod 16) * 16 + c / 4) :: ((c mod 4) * 64 + d)
        :: bytes r
  | [a; b; c] => [a * 4 + b / 16; (b mod 16) * 16 + c / 4]
  | [a; b] => [a * 4 + b / 16]
  | _ => []
  end%N.

Definition atob (s : string) : exn (list N) :=
  let l := List.filter (fun a => negb (is_ascii_ws a))
             (list_ascii_of_string s) in
  let l := if (length l mod 4 =? 0)%nat then unpad l else l in
  if (length l mod 4 =? 1)%nat then Throw (Error_ "InvalidCharacterError")
  else match mapM sextet l with
       | Some xs => Return (bytes xs)
       | None => Throw (Error_ "InvalidCharacterError")
       end.

(** The base64 digit of a sextet. *)
Definition digit (n : N) : ascii :=
  ascii_of_N (if n <? 26 then 65 + n
              else if n <? 52 then 71 + n
              else if n <? 62 then n - 4
              else if n =? 62 then 43 else 47)%N.

Definition PAD : ascii := ascii_of_N 61.

(** [btoa] on a string of bytes: three bytes make four digits, one or two
    bytes left at the end make two or three digits and padding. *)
Fixpoint btoa (bytes : list N) : list ascii :=
  match bytes with
  | a :: b :: c :: r =>
      digit (a / 4) :: digit ((a mod 4) * 16 + b / 16)
        :: digit ((b mod 16) * 4 + c / 64) :: digit (c mod 64) :: btoa r
  | [a; b] =>
      [digit (a / 4); digit ((a mod 4) * 16 + b / 16); digit ((b mod 16) * 4);
       PAD]
  | [a] => [digit (a / 4); digit ((a mod 4) * 16); PAD; PAD]
  | [] => []
  end%N.

End Base64.

(** [decode]: the bytes of a base64 string. *)
Definition decode (base64 : string) : exn (list N) := Base64.atob base64.

(** [encode]: the bytes as a binary string, then [btoa]. *)
Definition encode (bytes : list N) : string :=
  string_of_list_ascii (Base64.btoa bytes).

Record AudioBuffer : Type := {
  sampleRate : positive;
  frameCount : nat;
  channelData : list (list Q);
}.

(** [AudioBuffer.duration], in seconds: the number of frames divided by the
    sample rate, as a double. *)
Definition duration (b : AudioBuffer) : Q :=
  Double.div (inject_Z (Z.of_nat (frameCount b)))
    (inject_Z (Z.pos (sampleRate b))).

(** [new Int16Array(data.buffer)]: little-endian pairs of bytes as signed
    16-bit numbers; a buffer of odd length is a [RangeError]. *)
Fixpoint int16s (data : list N) : exn (list Z) :=
  match data with
  | [] => Return []
  | lo :: hi :: r =>
      xs ← int16s r;
      let u := Z.of_N (lo + 256 * hi) in
      Return ((if (u <? 32768)%Z then u else (u - 65536)%Z) :: xs)
  | [_] => Throw (Error_ "RangeError")
  end.

(** [decodeAudioData(data, ctx, sampleRate, numChannels)]: [createBuffer]
    refuses a buffer without frames. *)
Definition decodeAudioData (data : list N) (rate : positive)
    (numChannels : nat) : exn AudioBuffer :=
  dataInt16 ← int16s data;
  let frames := (length dataInt16 / numChannels)%nat in
  if (frames =? 0)%nat then Throw (Error_ "NotSupportedError")
  else
    Return {|
      sampleRate := rate;
      frameCount := frames;
      channelData :=
        (fun channel =>
           (fun i => (dataInt16 !!! (i * numChannels + channel)%nat) # 32768)
             <$> seq 0 frames) <$> seq 0 numChannels;
    |}.

(** *** Messages of the live session *)

Record Transcription : Type := { text : option string }.
Record Blob : Type := { data : option string; mimeType : option string }.

(** Storing a number in an [Int16Array]: truncate towards zero, then wrap
    modulo 2^16 into the signed range. *)
Definition ToInt16 (x : Q) : Z :=
  let m := (Z.quot (Qnum x) (Z.pos (Qden x)) mod 65536)%Z in
  if (m <? 32768)%Z then m else (m - 65536)%Z.

(** The two bytes of a 16-bit number as [new Uint8Array(int16.buffer)] shows
    them, low byte first (the byte order of the platforms in use). *)
Definition int16_bytes (x : Z) : list N :=
  let u := Z.to_N (x mod 65536) in [u mod 256; u / 256]%N.

(** [createBlob]: the samples times 32768 stored as 16-bit numbers, their
    bytes in base64, and the MIME type of 16 kHz PCM.  A sample is a float
    with 24 significant bits, so its product with 32768 is exact. *)
Definition createBlob (samples : list Q) : Blob :=
  {| data := Some (encode (flat_map int16_bytes
                             ((fun x => ToInt16 (x * 32768)) <$> samples)));
     mimeType := Some "audio/pcm;rate=16000" |}.

Record Part : Type := { inlineData : option Blob }.
Record Content : Type := { parts : option (list Part) }.

Record ServerContent : Type := {
  outputTranscription : option Transcription;
  inputTranscription : option Transcription;
  turnComplete : bool;
  modelTurn : option Content;
}.

Record LiveServerMessage : Type := { serverContent : option ServerContent }.

(** *** The page around the hook *)

Inductive TrackState : Type := Live | Ended.
Record MediaStream : Type := { tracks : list TrackState }.

(** The video element the caller's ref points to. *)
Record Video : Type := { srcObject : option MediaStream }.

Inductive ContextState : Type := Suspended | Running | Closed.
Record AudioContext : Type := { state : ContextState; rate : positive }.

(** An audio node: whether its output is connected, and whether an
    [onaudioprocess] handler is installed on it. *)
Record AudioNode : Type := { connected : bool; onaudioprocess : bool }.

(** What a timer runs.  The demo script's closure owns [demoStep] and
    [demoScripts]. *)
Inductive Action : Type :=
  | DemoTick (demoStep : nat) (demoScripts : list string)
  | SpeakingOff
  | VideoFrame.

Record Timer : Type := {
  id : Z;
  due : Z;
  every : option Z;
  action : Action;
}.

(** The duplex session [ai.live.connect] was asked for. *)
Record LiveSession : Type := {
  apiKey : string;
  model : string;
  voiceName : string;
  systemInstruction : string;
}.

(** React state, refs, and the browser objects the hook touches. *)
Record Hook : Type := {
  isConnected : bool;
  isSpeaking : bool;
  error : option string;
  logs : list string;
  audioContextRef : option AudioContext;
  inputSourceRef : option AudioNode;
  processorRef : option AudioNode;
  nextStartTimeRef : Q;
  videoIntervalRef : option Z;
  demoIntervalRef : option Z;
  currentInputTranscription : string;
  currentOutputTranscription : string;
  video : option Video;
  clock : Z;
  nextTimerId : Z;
  timers : list Timer;
  started : list (Q * Q);
  sent : list string;
  session : option LiveSession;
}.

(** Assignments to one field. *)
Definition set_isConnected (v : bool) (h : Hook) : Hook :=
  Build_Hook v (isSpeaking h) (error h) (logs h) (audioContextRef h)
    (inputSourceRef h) (processorRef h) (nextStartTimeRef h)
    (videoIntervalRef h) (demoIntervalRef h) (currentInputTranscription h)
    (currentOutputTranscription h) (video h) (clock h) (nextTimerId h)
    (timers h) (started h) (sent h) (session h).
Definition set_isSpeaking (v : bool) (h : Hook) : Hook :=
  Build_Hook (isConnected h) v (error h) (logs h) (audioContextRef h)
    (inputSourceRef h) (processorRef h) (nextStartTimeRef h)
    (videoIntervalRef h) (demoIntervalRef h) (currentInputTranscription h)
    (currentOutputTranscription h) (video h) (clock h) (nextTimerId h)
    (timers h) (started h) (sent h) (session h).
Definition set_error (v : option string) (h : Hook) : Hook :=
  Build_Hook (isConnected h) (isSpeaking h) v (logs h) (audioContextRef h)
    (inputSourceRef h) (processorRef h) (nextStartTimeRef h)
    (videoIntervalRef h) (demoIntervalRef h) (currentInputTranscription h)
    (currentOutputTranscription h) (video h) (clock h) (nextTimerId h)
    (timers h) (started h) (sent h) (session h).
Definition set_logs (v : list string) (h : Hook) : Hook :=
  Build_Hook (isConnected h) (isSpeaking h) (error h) v (audioContextRef
    h) (inputSourceRef h) (processorRef h) (nextStartTimeRef h)
    (videoIntervalRef h) (demoIntervalRef h) (currentInputTranscription h)
    (currentOutputTranscription h) (video h) (clock h) (nextTimerId h)
    (timers h) (started h) (sent h) (session h).
Definition set_audioContextRef (v : option AudioContext) (h : Hook) : Hook :=
  Build_Hook (isConnected h) (isSpeaking h) (error h) (logs h) v
    (inputSourceRef h) (processorRef h) (nextStartTimeRef h)
    (videoIntervalRef h) (demoIntervalRef h) (currentInputTranscription h)
    (currentOutputTranscription h) (video h) (clock h) (nextTimerId h)
    (timers h) (started h) (sent h) (session h).
Definition set_inputSourceRef (v : option AudioNode) (h : Hook) : Hook :=
  Build_Hook (isConnected h) (isSpeaking h) (error h) (logs h)
    (audioContextRef h) v (processorRef h) (nextStartTimeRef h)
    (videoIntervalRef h) (demoIntervalRef h) (currentInputTranscription h)
    (currentOutputTranscription h) (video h) (clock h) (nextTimerId h)
    (timers h) (started h) (sent h) (session h).
Definition set_processorRef (v : option AudioNode) (h : Hook) : Hook :=
  Build_Hook (isConnected h) (isSpeaking h) (error h) (logs h)
    (audioContextRef h) (inputSourceRef h) v (nextStartTimeRef h)
    (videoIntervalRef h) (demoIntervalRef h) (currentInputTranscription h)
    (currentOutputTranscription h) (video h) (clock h) (nextTimerId h)
    (timers h) (started h) (sent h) (session h).
Definition set_nextStartTimeRef (v : Q) (h : Hook) : Hook :=
  Build_Hook (isConnected h) (isSpeaking h) (error h) (logs h)
    (audioContextRef h) (inputSourceRef h) (processorRef h) v
    (videoIntervalRef h) (demoIntervalRef h) (currentInputTranscription h)
    (currentOutputTranscription h) (video h) (clock h) (nextTimerId h)
    (timers h) (started h) (sent h) (session h).
Definition set_videoIntervalRef (v : option Z) (h : Hook) : Hook :=
  Build_Hook (isConnected h) (isSpeaking h) (error h) (logs h)
    (audioContextRef h) (inputSourceRef h) (processorRef h)
    (nextStartTimeRef h) v (demoIntervalRef h) (currentInputTranscription
    h) (currentOutputTranscription h) (video h) (clock h) (nextTimerId h)
    (timers h) (started h) (sent h) (session h).
Definition set_demoIntervalRef (v : option Z) (h : Hook) : Hook :=
  Build_Hook (isConnected h) (isSpeaking h) (error h) (logs h)
    (audioContextRef h) (inputSourceRef h) (processorRef h)
    (nextStartTimeRef h) (videoIntervalRef h) v (currentInputTranscription
    h) (currentOutputTranscription h) (video h) (clock h) (nextTimerId h)
    (timers h) (started h) (sent h) (session h).
Definition set_currentInputTranscription (v : string) (h : Hook) : Hook :=
  Build_Hook (isConnected h) (isSpeaking h) (error h) (logs h)
    (audioContextRef h) (inputSourceRef h) (processorRef h)
    (nextStartTimeRef h) (videoIntervalRef h) (demoIntervalRef h) v
    (currentOutputTranscription h) (video h) (clock h) (nextTimerId h)
    (timers h) (started h) (sent h) (session h).
Definition set_currentOutputTranscription (v : string) (h : Hook) : Hook :=
  Build_Hook (isConnected h) (isSpeaking h) (error h) (logs h)
    (audioContextRef h) (inputSourceRef h) (processorRef h)
    (nextStartTimeRef h) (videoIntervalRef h) (demoIntervalRef h)
    (currentInputTranscription h) v (video h) (clock h) (nextTimerId h)
    (timers h) (started h) (sent h) (session h).
Definition set_video (v : option Video) (h : Hook) : Hook :=
  Build_Hook (isConnected h) (isSpeaking h) (error h) (logs h)
    (audioContextRef h) (inputSourceRef h) (processorRef h)
    (nextStartTimeRef h) (videoIntervalRef h) (demoIntervalRef h)
    (currentInputTranscription h) (currentOutputTranscription h) v (clock
    h) (nextTimerId h) (timers h) (started h) (sent h) (session h).
Definition set_clock (v : Z) (h : Hook) : Hook :=
  Build_Hook (isConnected h) (isSpeaking h) (error h) (logs h)
    (audioContextRef h) (inputSourceRef h) (processorRef h)
    (nextStartTimeRef h) (videoIntervalRef h) (demoIntervalRef h)
    (currentInputTranscription h) (currentOutputTranscription h) (video h)
    v (nextTimerId h) (timers h) (started h) (sent h) (session h).
Definition set_nextTimerId (v : Z) (h : Hook) : Hook :=
  Build_Hook (isConnected h) (isSpeaking h) (error h) (logs h)
    (audioContextRef h) (inputSourceRef h) (processorRef h)
    (nextStartTimeRef h) (videoIntervalRef h) (demoIntervalRef h)
    (currentInputTranscription h) (currentOutputTranscription h) (video h)
    (clock h) v (timers h) (started h) (sent h) (session h).
Definition set_timers (v : list Timer) (h : Hook) : Hook :=
  Build_Hook (isConnected h) (isSpeaking h) (error h) (logs h)
    (audioContextRef h) (inputSourceRef h) (processorRef h)
    (nextStartTimeRef h) (videoIntervalRef h) (demoIntervalRef h)
    (currentInputTranscription h) (currentOutputTranscription h) (video h)
    (clock h) (nextTimerId h) v (started h) (sent h) (session h).
Definition set_started (v : list (Q * Q)) (h : Hook) : Hook :=
  Build_Hook (isConnected h) (isSpeaking h) (error h) (logs h)
    (audioContextRef h) (inputSourceRef h) (processorRef h)
    (nextStartTimeRef h) (videoIntervalRef h) (demoIntervalRef h)
    (currentInputTranscription h) (currentOutputTranscription h) (video h)
    (clock h) (nextTimerId h) (timers h) v (sent h) (session h).
Definition set_sent (v : list string) (h : Hook) : Hook :=
  Build_Hook (isConnected h) (isSpeaking h) (error h) (logs h)
    (audioContextRef h) (inputSourceRef h) (processorRef h)
    (nextStartTimeRef h) (videoIntervalRef h) (demoIntervalRef h)
    (currentInputTranscription h) (currentOutputTranscription h) (video h)
    (clock h) (nextTimerId h) (timers h) (started h) v (session h).
Definition set_session (v : option LiveSession) (h : Hook) : Hook :=
  Build_Hook (isConnected h) (isSpeaking h) (error h) (logs h)
    (audioContextRef h) (inputSourceRef h) (processorRef h)
    (nextStartTimeRef h) (videoIntervalRef h) (demoIntervalRef h)
    (currentInputTranscription h) (currentOutputTranscription h) (video h)
    (clock h) (nextTimerId h) (timers h) (started h) (sent h) v.

(** The state of a freshly mounted hook: the [useState] and [useRef]
    initial values, no timer, a page clock at zero. *)
Definition initial (v : option Video) : Hook := {|
  isConnected := false;
  isSpeaking := false;
  error := None;
  logs := [];
  audioContextRef := None;
  inputSourceRef := None;
  processorRef := None;
  nextStartTimeRef := 0;
  videoIntervalRef := None;
  demoIntervalRef := None;
  currentInputTranscription := EmptyString;
  currentOutputTranscription := EmptyString;
  video := v;
  clock := 0;
  nextTimerId := 1;
  timers := [];
  started := [];
  sent := [];
  session := None;
|}.

Definition setIsConnected := set_isConnected.
Definition setIsSpeaking := set_isSpeaking.
Definition setError := set_error.

(** [addLog]: [setLogs(prev => [...prev, msg])]. *)
Definition addLog (msg : string) (h : Hook) : Hook :=
  set_logs (logs h ++ [msg]) h.

(** *** Timers *)

(** [window.setInterval] and [setTimeout]: the new state and the handle. *)
Definition add_timer (delay : Z) (period : option Z) (a : Action) (h : Hook)
    : Hook * Z :=
  let t := {| id := nextTimerId h; due := clock h + delay; every := period;
              action := a |} in
  (set_nextTimerId (nextTimerId h + 1) (set_timers (timers h ++ [t]) h),
   nextTimerId h).

Definition setInterval (a : Action) (ms : Z) (h : Hook) : Hook * Z :=
  add_timer ms (Some ms) a h.

Definition setTimeout (a : Action) (ms : Z) (h : Hook) : Hook :=
  (add_timer ms None a h).1.

(** [clearInterval(handle)]: unknown handles are ignored. *)
Definition clearInterval (handle : Z) (h : Hook) : Hook :=
  set_timers (List.filter (fun t => negb (id t =? handle)%Z) (timers h)) h.

(** A timer handle held in a ref is truthy unless it is [null] or [0]. *)
Definition truthy_handle (r : option Z) : option Z :=
  match r with
  | Some n => if (n =? 0)%Z then None else Some n
  | None => None
  end.

(** [if (ref.current) clearInterval(ref.current)]. *)
Definition clear_ref (r : option Z) (h : Hook) : Hook :=
  match truthy_handle r with
  | Some n => clearInterval n h
  | None => h
  end.

(** The body of the demo interval's callback: the new [demoStep] and state. *)
Definition demo_tick (demoStep : nat) (demoScripts : list string) (h : Hook)
    : nat * Hook :=
  if (demoStep <? length demoScripts)%nat then
    let msg := default "undefined" (demoScripts !! demoStep) in
    let h := addLog msg h in
    let h := setIsSpeaking true h in
    let h := setTimeout SpeakingOff 3000 h in
    (S demoStep, h)
  else
    let h := addLog "AI: This concludes our demo interview session. Thank you!" h in
    (demoStep, clear_ref (demoIntervalRef h) h).

(** The body of the video interval's callback: a frame is sent when the
    video element is there (the canvas context is taken to exist). *)
Definition video_tick (h : Hook) : Hook :=
  match video h with
  | Some _ => set_sent (sent h ++ ["image/jpeg"]) h
  | None => h
  end.

(** The timer that fires next: the earliest, the oldest among equals. *)
Fixpoint earliest (ts : list Timer) : option Timer :=
  match ts with
  | [] => None
  | t :: r =>
      match earliest r with
      | Some u => if (due u <? due t)%Z then Some u else Some t
      | None => Some t
      end
  end.

Definition replace_action (handle : Z) (a : Action) (ts : list Timer)
    : list Timer :=
  (fun t => if (id t =? handle)%Z
            then {| id := id t; due := due t; every := every t; action := a |}
            else t) <$> ts.

(** Fire timer [t]: the clock reaches its due time, a timeout is dropped and
    an interval re-armed, and the callback runs. *)
Definition fire (t : Timer) (h : Hook) : Hook :=
  let rest := List.filter (fun u => negb (id u =? id t)%Z) (timers h) in
  let armed :=
    match every t with
    | Some ms => rest ++ [{| id := id t; due := due t + ms; every := every t;
                             action := action t |}]
    | None => rest
    end in
  let h := set_timers armed (set_clock (due t) h) in
  match action t with
  | DemoTick demoStep demoScripts =>
      let '(demoStep', h) := demo_tick demoStep demoScripts h in
      set_timers (replace_action (id t) (DemoTick demoStep' demoScripts)
                    (timers h)) h
  | SpeakingOff => setIsSpeaking false h
  | VideoFrame => video_tick h
  end.

(** One turn of the event loop, when a timer is pending. *)
Definition step (h : Hook) : option Hook :=
  t ← earliest (timers h); Some (fire t h).

(** The states after each of the next [n] timer events (fewer when the
    timers run out). *)
Fixpoint run (n : nat) (h : Hook) : list Hook :=
  match n with
  | O => []
  | S n' =>
      match step h with
      | Some h' => h' :: run n' h'
      | None => []
      end
  end.

(** *** connect *)

(** What [connect] finds around it: storage and environment, the outcome of
    [getUserMedia], and whether the window has an audio context class. *)
Record Page : Type := {
  host : Host;
  userMedia : exn MediaStream;
  AudioContextClass : bool;
}.

Definition message (e : JsError) : string :=
  match e with
  | SyntaxError_ => "Unexpected token in JSON"
  | ApiError m => m
  | Error_ m => m
  end.

(** The key retrieval at the head of [connect]: local storage first, its
    failure ignored; the environment only when that gave nothing truthy. *)
Definition retrieve_apiKey (hst : Host) : option string :=
  let apiKey :=
    match getItem (localStorage hst) STORAGE_KEY with
    | Return k => k
    | Throw _ => None
    end in
  if negb (truthy_opt apiKey) then
    match process hst with
    | Some p =>
        match env p with
        | Some e =>
            let k := e !! "API_KEY" in if truthy_opt k then k else None
        | None => apiKey
        end
    | None => apiKey
    end
  else apiKey.

Definition demoScripts (role : string) : list string :=
  [ "AI: I see you are applying for the " +:+ role
      +:+ " position. Can you tell me a bit about yourself?";
    "AI: That's a great background. What specific technical challenges have you faced recently?";
    "AI: Interesting approach. How do you handle conflict within a team setting?";
    "AI: Thank you for sharing that. Do you have any questions for us about the company?" ].

Definition systemInstruction_for (role : string) : string :=
  String.concat LF
    [ "You are a professional HR manager conducting a video interview for a candidate applying for the position of " +:+ DQ +:+ role +:+ DQ +:+ ". ";
      "          You can see the candidate via their camera feed. ";
      "          Start by greeting them warmly and asking them to introduce themselves. ";
      "          Ask one question at a time. ";
      "          Focus on soft skills, past experience, and situational questions related to " +:+ role +:+ "." ].

(** The [try] block of [connect]: the state it leaves and whether it threw. *)
Definition connect_try (pg : Page) (role : string) (h : Hook)
    : Hook * exn unit :=
  let h := setError None h in
  let apiKey := retrieve_apiKey (host pg) in
  if negb (AudioContextClass pg)
  then (h, Throw (Error_ "AudioContextClass is not a constructor"))
  else
    let h := set_audioContextRef (Some {| state := Running; rate := 24000 |}) h in
    let stream := match userMedia pg with Return s => Some s | Throw _ => None end in
    let h :=
      match stream, video h with
      | Some s, Some _ => set_video (Some {| srcObject := Some s |}) h
      | _, _ => h
      end in
    if negb (bool_decide (is_Some stream)) && truthy_opt apiKey
    then (h, Throw (Error_ "Microphone and Camera access are required for the live interview."))
    else if negb (truthy_opt apiKey) then
      (* demo / offline mode *)
      let h := setIsConnected true h in
      let h := addLog "[DEMO MODE] No API Key detected. Starting simulated interview session." h in
      let h := addLog "AI: Hello! Welcome to your interview simulation." h in
      let '(h, handle) := setInterval (DemoTick 0 (demoScripts role)) 6000 h in
      (set_demoIntervalRef (Some handle) h, Return tt)
    else
      match stream with
      | None => (h, Throw (Error_ "Stream not initialized"))
      | Some _ =>
          let h := set_inputSourceRef
                     (Some {| connected := true; onaudioprocess := false |}) h in
          let h := set_processorRef
                     (Some {| connected := true; onaudioprocess := false |}) h in
          (set_session
             (Some {| apiKey := default EmptyString apiKey;
                      model := "gemini-2.5-flash-native-audio-preview-09-2025";
                      voiceName := "Fenrir";
                      systemInstruction := systemInstruction_for role |}) h,
           Return tt)
      end.

(** [connect]: the [catch] stores the message and marks the session
    disconnected. *)
Definition connect (pg : Page) (role : string) (h : Hook) : Hook :=
  match connect_try pg role h with
  | (h', Return _) => h'
  | (h', Throw err) => setIsConnected false (setError (Some (message err)) h')
  end.

(** *** Callbacks of the live session *)

Definition onopen (h : Hook) : Hook :=
  let h := setIsConnected true h in
  let h := addLog "Connected to Interviewer" h in
  let h :=
    match processorRef h with
    | Some n => set_processorRef
                  (Some {| connected := connected n; onaudioprocess := true |}) h
    | None => h
    end in
  let '(h, handle) := setInterval VideoFrame 1000 h in
  set_videoIntervalRef (Some handle) h.

(** [processor.onaudioprocess]: one PCM chunk is sent per captured block. *)
Definition onaudioprocess_event (h : Hook) : Hook :=
  match processorRef h with
  | Some n =>
      if onaudioprocess n then set_sent (sent h ++ ["audio/pcm;rate=16000"]) h
      else h
  | None => h
  end.

(** [buffer += t.text]: an absent text is appended as ["undefined"]. *)
Definition append_text (buffer : string) (t : Transcription) : string :=
  buffer +:+ default "undefined" (text t).

(** [msg.serverContent?.modelTurn?.parts?.[0]?.inlineData?.data]. *)
Definition audioData_of (msg : LiveServerMessage) : option string :=
  sc ← serverContent msg; mt ← modelTurn sc; ps ← parts mt; p ← head ps;
  b ← inlineData p; data b.

(** The transcription part of [onmessage]. *)
Definition on_transcription (msg : LiveServerMessage) (h : Hook) : Hook :=
  match serverContent msg ≫= outputTranscription with
  | Some t =>
      set_currentOutputTranscription
        (append_text (currentOutputTranscription h) t) h
  | None =>
      match serverContent msg ≫= inputTranscription with
      | Some t =>
          set_currentInputTranscription
            (append_text (currentInputTranscription h) t) h
      | None => h
      end
  end.

(** The turn-complete part of [onmessage]. *)
Definition on_turnComplete (msg : LiveServerMessage) (h : Hook) : Hook :=
  if default false (turnComplete <$> serverContent msg) then
    let h :=
      if JsString.truthy (currentInputTranscription h)
      then set_currentInputTranscription EmptyString
             (addLog ("You: " +:+ currentInputTranscription h) h)
      else h in
    if JsString.truthy (currentOutputTranscription h)
    then set_currentOutputTranscription EmptyString
           (addLog ("AI: " +:+ currentOutputTranscription h) h)
    else h
  else h.

(** The audio part of [onmessage]; [now] is [audioCtx.currentTime] when the
    clip is scheduled.  A payload that cannot be decoded rejects the
    handler's promise after the speaking flag was set. *)
Definition on_audio (msg : LiveServerMessage) (now : Q) (h : Hook) : Hook :=
  match audioData_of msg with
  | Some audioData =>
      if JsString.truthy audioData then
        let h := setIsSpeaking true h in
        match audioContextRef h with
        | None => h
        | Some _ =>
            match decode audioData ≫= (fun bytes => decodeAudioData bytes 24000 1) with
            | Throw _ => h
            | Return audioBuffer =>
                (* source.start(startTime), then the cursor moves on *)
                let startTime := Qmax now (nextStartTimeRef h) in
                let h := set_started
                           (started h ++ [(startTime, duration audioBuffer)]) h in
                set_nextStartTimeRef
                  (Double.add startTime (duration audioBuffer)) h
            end
        end
      else h
  | None => h
  end.

(** [onmessage].  The handler's only [await] is on [decodeAudioData], which
    does not wait for anything outside the handler, so clips are scheduled in
    the order in which their messages arrived; the handler is run here in one
    piece. *)
Definition onmessage (msg : LiveServerMessage) (now : Q) (h : Hook) : Hook :=
  on_audio msg now (on_turnComplete msg (on_transcription msg h)).

(** [source.onended], with the playback clock at that moment. *)
Definition onended (now : Q) (h : Hook) : Hook :=
  if Qle_bool (nextStartTimeRef h) now then setIsSpeaking false h else h.

Definition onclose (h : Hook) : Hook :=
  addLog "Connection closed" (setIsConnected false h).

Definition onerror (h : Hook) : Hook :=
  setIsConnected false
    (setError (Some "Connection error occurred. Please check your network.") h).

(** *** disconnect *)

(** The platform calls of the teardown.  None of them throws:
    [AudioNode.disconnect()] without argument, [AudioContext.close()]
    (which answers with a promise), [MediaStreamTrack.stop()]. *)
Definition AudioNode_disconnect (n : AudioNode) : exn AudioNode :=
  Return {| connected := false; onaudioprocess := onaudioprocess n |}.

Definition AudioContext_close (c : AudioContext) : exn AudioContext :=
  Return {| state := Closed; rate := rate c |}.

Definition track_stop (t : TrackState) : exn TrackState := Return Ended.

Definition is_closed (c : AudioContext) : bool :=
  match state c with Closed => true | _ => false end.

Fixpoint forEach_stop (ts : list TrackState) : exn (list TrackState) :=
  match ts with
  | [] => Return []
  | t :: r => t' ← track_stop t; r' ← forEach_stop r; Return (t' :: r')
  end.

Definition disconnect (h : Hook) : exn Hook :=
  h ← match inputSourceRef h with
      | Some n => n' ← AudioNode_disconnect n;
                  Return (set_inputSourceRef (Some n') h)
      | None => Return h
      end;
  h ← match processorRef h with
      | Some n => n' ← AudioNode_disconnect n;
                  Return (set_processorRef (Some n') h)
      | None => Return h
      end;
  h ← match audioContextRef h with
      | Some c =>
          if negb (is_closed c)
          then c' ← AudioContext_close c;
               Return (set_audioContextRef (Some c') h)
          else Return h
      | None => Return h
      end;
  let h := clear_ref (videoIntervalRef h) h in
  let h := clear_ref (demoIntervalRef h) h in
  h ← match video h with
      | Some v =>
          match srcObject v with
          | Some stream =>
              _ ← forEach_stop (tracks stream);
              Return (set_video (Some {| srcObject := None |}) h)
          | None => Return h
          end
      | None => Return h
      end;
  let h := setIsConnected false h in
  let h := setIsSpeaking false h in
  Return (set_nextStartTimeRef 0 h).

End LiveInterview.

(** ** Definitions used to state the properties *)

(** A request that never reaches the service. *)
Definition unreachable : Network := fun _ _ => Throw (ApiError "Failed to fetch").

(** A service that answers every request with the text [t]. *)
Definition answering (t : string) : Network :=
  fun _ _ => Return {| text := Some t; candidates := None |}.

Definition demo_client : GoogleGenAI := {| apiKey := "demo-key" |}.

(** A schema without its [enum] constraints: the field names and the kinds
    of values only. *)
Fixpoint relax (sc : Schema) : Schema :=
  match sc with
  | TString _ => TString None
  | TNumber => TNumber
  | TInteger => TInteger
  | TArray it => TArray (relax it)
  | TObject props =>
      TObject ((fix go (ps : list (string * Schema)) :=
                  match ps with
                  | [] => []
                  | (k, s) :: r => (k, relax s) :: go r
                  end) props)
  end.

(** The shape of a job listing, as the object literals of [searchJobs] and
    [MOCK_JOBS] have it (the helper declares no response schema). *)
Definition jobListingShape : Schema :=
  TArray (TObject [("title", STRING); ("company", STRING);
                   ("location", STRING); ("url", STRING)]).

(** The precedence of section 4.2 in the spec's words: the persisted value
    first, then the environment's, else none. *)
Definition precedence (persisted environment : option string) : option string :=
  if truthy_opt persisted then persisted
  else if truthy_opt environment then environment
  else None.



(** What a helper with a client does, in the words of section 4.3: the parsed
    answer when the request and the parse go through, else a warning that
    names the helper and the helper's mock data. *)
Definition absorbed (context fallback_text : string) (mock : json)
    (net : Network) (client : GoogleGenAI) (req : GenerateContentParameters)
    : Async json :=
  let warn e :=
    ConsoleWarn ("Gemini API Error in " +:+ context
                 +:+ " (or Offline Mode). Returning mock data.") e in
  match net client req with
  | Throw e => ([Request client req; warn e], Return mock)
  | Return resp =>
      match JSON_parse (cleanJson (or_else (text resp) fallback_text)) with
      | Return v => ([Request client req], Return v)
      | Throw e => ([Request client req; warn e], Return mock)
      end
  end.



(** Texts around a fence: a string of one-byte white space; an ASCII
    character that is neither white space nor a backtick; a text that starts
    and ends with such a character. *)
Fixpoint blank (s : string) : bool :=
  match s with
  | EmptyString => true
  | String a r => JsString.is_space1 a && blank r
  end.

Definition plain (a : ascii) : bool :=
  (JsString.code a <? 128)%N && negb (JsString.is_space1 a)
  && negb (JsString.code a =? 96)%N.

Definition starts_plain (s : string) : bool :=
  match s with
  | String a _ => plain a
  | EmptyString => false
  end.

Definition solid (s : string) : bool :=
  starts_plain s && starts_plain (String.rev s).

(** A text whose first character is one-byte white space or plain. *)
Definition starts_clear (s : string) : bool :=
  match s with
  | String a _ => JsString.is_space1 a || plain a
  | EmptyString => false
  end.

(** A text that is empty or starts with a backtick. *)
Definition fence_or_empty (s : string) : bool :=
  match s with
  | EmptyString => true
  | String a _ => Ascii.eqb "`" a
  end.

Module LiveSpec.
Import LiveInterview.

(** Messages that carry one thing each. *)
Definition input_delta (t : string) : LiveServerMessage :=
  {| serverContent :=
       Some {| outputTranscription := None;
               inputTranscription := Some {| text := Some t |};
               turnComplete := false; modelTurn := None |} |}.

Definition output_delta (t : string) : LiveServerMessage :=
  {| serverContent :=
       Some {| outputTranscription := Some {| text := Some t |};
               inputTranscription := None;
               turnComplete := false; modelTurn := None |} |}.

Definition turn_complete : LiveServerMessage :=
  {| serverContent :=
       Some {| outputTranscription := None; inputTranscription := None;
               turnComplete := true; modelTurn := None |} |}.

Definition audio_chunk (base64 : string) : LiveServerMessage :=
  {| serverContent :=
       Some {| outputTranscription := None; inputTranscription := None;
               turnComplete := false;
               modelTurn :=
                 Some {| parts :=
                           Some [{| inlineData :=
                                      Some {| data := Some base64;
                                              mimeType := Some "audio/pcm;rate=24000" |} |}] |} |} |}.

(** The lines a turn-complete message flushes. *)
Definition flushed (h : Hook) : list string :=
  (if JsString.truthy (currentInputTranscription h)
   then ["You: " +:+ currentInputTranscription h] else [])
  ++ (if JsString.truthy (currentOutputTranscription h)
      then ["AI: " +:+ currentOutputTranscription h] else []).

(** The decoded clip a message carries, if any. *)
Definition clip_of (msg : LiveServerMessage) : option AudioBuffer :=
  audioData ← audioData_of msg;
  if JsString.truthy audioData then
    match decode audioData ≫= (fun bytes => decodeAudioData bytes 24000 1) with
    | Return b => Some b
    | Throw _ => None
    end
  else None.

(** The doubles described directly: an integer of at most 53 bits times a
    power of two whose exponent is at least -1074. *)
Definition representable (x : Q) : Prop :=
  exists (m e : Z),
    (-1074 <= e)%Z /\ (Z.abs m <= 2 ^ 53)%Z
    /\ (x == inject_Z m * Double.pow2 e)%Q.

(** Messages handled in arrival order, each with the playback clock's time
    at that moment. *)
Definition handle (events : list (LiveServerMessage * Q)) (h : Hook) : Hook :=
  foldl (fun h ev => onmessage ev.1 ev.2 h) h events.

(** The clips among the events: clock time and duration. *)
Definition clips (events : list (LiveServerMessage * Q)) : list (Q * Q) :=
  omap (fun ev => (fun b => (ev.2, duration b)) <$> clip_of ev.1) events.

(** The schedule in the spec's words: a clip starts at the later of the
    clock and the cursor, and the cursor moves to that start plus the
    duration, the sum being the program's, a double. *)
Fixpoint schedule (cursor : Q) (cs : list (Q * Q)) : list (Q * Q) :=
  match cs with
  | [] => []
  | (now, d) :: r =>
      let start := Qmax now cursor in
      (start, d) :: schedule (Double.add start d) r
  end.

(** The cursor before clip [i]: the initial one, or the end of clip [i-1]. *)
Fixpoint cursor_before (cursor : Q) (cs : list (Q * Q)) (i : nat) : Q :=
  match i, cs with
  | S j, (now, d) :: r => cursor_before (Double.add (Qmax now cursor) d) r j
  | _, _ => cursor
  end.

(** The cursor after all clips. *)
Definition cursor_after (cursor : Q) (cs : list (Q * Q)) : Q :=
  cursor_before cursor cs (length cs).

(** What the teardown leaves, in the words of section 4.1: nodes detached,
    the context closed, both intervals cancelled, the preview unbound, the
    flags and the cursor reset. *)
Definition cancelled (r : option Z) (ts : list Timer) : list Timer :=
  match truthy_handle r with
  | Some n => List.filter (fun t => negb (id t =? n)%Z) ts
  | None => ts
  end.

Definition torn_down (h : Hook) : Hook := {|
  isConnected := false;
  isSpeaking := false;
  error := error h;
  logs := logs h;
  audioContextRef :=
    (fun c => {| state := Closed; rate := rate c |}) <$> audioContextRef h;
  inputSourceRef :=
    (fun n => {| connected := false; onaudioprocess := onaudioprocess n |})
      <$> inputSourceRef h;
  processorRef :=
    (fun n => {| connected := false; onaudioprocess := onaudioprocess n |})
      <$> processorRef h;
  nextStartTimeRef := 0;
  videoIntervalRef := videoIntervalRef h;
  demoIntervalRef := demoIntervalRef h;
  currentInputTranscription := currentInputTranscription h;
  currentOutputTranscription := currentOutputTranscription h;
  video := (fun _ => {| srcObject := None |}) <$> video h;
  clock := clock h;
  nextTimerId := nextTimerId h;
  timers := cancelled (demoIntervalRef h) (cancelled (videoIntervalRef h) (timers h));
  started := started h;
  sent := sent h;
  session := session h;
|}.

(** A hook whose playback context exists, and two clips of three frames
    that arrive while the clock stands at 0. *)
Definition ready : Hook :=
  set_audioContextRef (Some {| state := Running; rate := 24000 |})
    (initial None).

Definition two_clips : list (LiveServerMessage * Q) :=
  [(audio_chunk "AAABAP//", 0%Q); (audio_chunk "AAABAP//", 0%Q)].

(** A page without any credential, where capture is refused. *)
Definition bare_page : Page :=
  {| host := {| localStorage := Store ∅; process := None |};
     userMedia := Throw (Error_ "NotAllowedError");
     AudioContextClass := true |}.

(** What is observed after a timer event: the page clock, the speaking
    flag, the number of log lines, the number of pending timers. *)
Definition observe (h : Hook) : Z * bool * nat * nat :=
  (clock h, isSpeaking h, length (logs h), length (timers h)).

(** An exhausted demo interval that its own callback cannot cancel: it is the
    only timer, its script is used up, and the handle in [demoIntervalRef]
    is not its own. *)
Definition leaking (h : Hook) : bool :=
  match timers h with
  | [t] =>
      match action t, every t with
      | DemoTick demoStep scripts, Some _ =>
          (length scripts <=? demoStep)%nat
          && match truthy_handle (demoIntervalRef h) with
             | Some r => negb (r =? id t)%Z
             | None => true
             end
      | _, _ => false
      end
  | _ => false
  end.

Definition demo_notice : string :=
  "[DEMO MODE] No API Key detected. Starting simulated interview session.".
Definition demo_greeting : string :=
  "AI: Hello! Welcome to your interview simulation.".
Definition demo_closing : string :=
  "AI: This concludes our demo interview session. Thank you!".

(** Capture refused, and a credential found. *)
Definition denied (pg : Page) : bool :=
  match userMedia pg with Throw _ => true | Return _ => false end.

Definition has_key (pg : Page) : bool := truthy_opt (retrieve_apiKey (host pg)).

(** The video producer is the only pending timer. *)
Definition streaming (h : Hook) (handle at_ms : Z) : Prop :=
  timers h = [{| id := handle; due := at_ms; every := Some 1000%Z;
                 action := VideoFrame |}].

(** What [n] ticks of the video producer send. *)
Definition frames (h : Hook) (n : nat) : list string :=
  match video h with
  | Some _ => replicate n "image/jpeg"
  | None => []
  end.

(** A timeout that clears the speaking flag. *)
Definition is_off (t : Timer) : bool :=
  match action t with SpeakingOff => true | _ => false end.

(** The texts of a list of deltas, joined in order. *)
Definition joined (ts : list string) : string :=
  foldr String.append EmptyString ts.

(** A transcript delta said by the user ([true]) or by the model. *)
Definition delta_message (d : bool * string) : LiveServerMessage :=
  if d.1 then input_delta d.2 else output_delta d.2.

Definition said (who : bool) (ds : list (bool * string * Q)) : list string :=
  (fun d => d.1.2) <$> List.filter (fun d => Bool.eqb d.1.1 who) ds.

(** A message that carries both an output and an input delta. *)
Definition both_deltas (o i : option string) : LiveServerMessage :=
  {| serverContent :=
       Some {| outputTranscription := Some {| text := o |};
               inputTranscription := Some {| text := i |};
               turnComplete := false; modelTurn := None |} |}.

(** The sextets of the digits of [btoa], without the padding. *)
Fixpoint sextets (bytes : list N) : list N :=
  match bytes with
  | a :: b :: c :: r =>
      a / 4 :: (a mod 4) * 16 + b / 16 :: (b mod 16) * 4 + c / 64 :: c mod 64
        :: sextets r
  | [a; b] => [a / 4; (a mod 4) * 16 + b / 16; (b mod 16) * 4]
  | [a] => [a / 4; (a mod 4) * 16]
  | [] => []
  end%N.

(** The range of a signed 16-bit number, and truncation towards zero. *)
Definition int16 (x : Z) : Prop := (-32768 <= x < 32768)%Z.


(** A page with a persisted key where capture is granted, and the hook
    there after [connect] and [onopen], with a video element. *)
Definition live_page : Page :=
  {| host := {| localStorage := Store {[ STORAGE_KEY := "user-key" ]};
                process := None |};
     userMedia := Return {| tracks := [Live] |};
     AudioContextClass := true |}.

Definition live : Hook :=
  onopen (connect live_page "Engineer" (initial (Some {| srcObject := None |}))).

(** What a demo started by a second [connect] leaves when it has run to its
    end: the hook was marked connected, the notice and the greeting were
    appended at once, the timer events stop, and at the end the log holds
    the whole script after what it held at [h], with no timer pending. *)
Definition reconnected (role : string) (h h1 : Hook) : Prop :=
  isConnected h1 = true
  /\ logs h1 = logs h ++ [demo_notice; demo_greeting]
  /\ length (run 11 h1) <= 10
  /\ (fun s => (logs s, timers s)) <$> last (run 10 h1)
     = Some (logs h ++ [demo_notice; demo_greeting] ++ demoScripts role
               ++ [demo_closing], []).

End LiveSpec.

(** The induction principle of [json]: the elements of an array and the
    values of an object satisfy the property. *)
Section json_induction.
Variable P : json -> Prop.
Hypothesis Hnull : P JNull.
Hypothesis Hbool : forall b, P (JBool b).
Hypothesis Hnumber : forall q, P (JNumber q).
Hypothesis Hstring : forall s, P (JString s).
Hypothesis Harray : forall l, Forall P l -> P (JArray l).
Hypothesis Hobject : forall l, Forall (fun kv => P kv.2) l -> P (JObject l).

Fixpoint json_ind (v : json) : P v :=
  match v with
  | JNull => Hnull
  | JBool b => Hbool b
  | JNumber q => Hnumber q
  | JString s => Hstring s
  | JArray l =>
      Harray l ((fix go (l : list json) : Forall P l :=
                   match l with
                   | [] => @List.Forall_nil _ P
                   | x :: r => @List.Forall_cons _ P x r (json_ind x) (go r)
                   end) l)
  | JObject l =>
      Hobject l ((fix go (l : list (string * json))
                    : Forall (fun kv => P kv.2) l :=
                    match l with
                    | [] => @List.Forall_nil _ _
                    | kv :: r =>
                        @List.Forall_cons _ (fun kv => P kv.2) kv r
                          (json_ind kv.2) (go r)
                    end) l)
  end.
End json_induction.

(** Induction on lists two and three elements at a time. *)
Section list_ind2.
Context {A : Type} (P : list A -> Prop).
Hypothesis H0 : P [].
Hypothesis H1 : forall a, P [a].
Hypothesis H2 : forall a b r, P r -> P (a :: b :: r).

Fixpoint list_ind2 (l : list A) : P l :=
  match l with
  | [] => H0
  | [a] => H1 a
  | a :: b :: r => H2 a b r (list_ind2 r)
  end.
End list_ind2.

Section list_ind3.
Context {A : Type} (P : list A -> Prop).
Hypothesis H0 : P [].
Hypothesis H1 : forall a, P [a].
Hypothesis H2 : forall a b, P [a; b].
Hypothesis H3 : forall a b c r, P r -> P (a :: b :: c :: r).

Fixpoint list_ind3 (l : list A) : P l :=
  match l with
  | [] => H0
  | [a] => H1 a
  | [a; b] => H2 a b
  | a :: b :: c :: r => H3 a b c r (list_ind3 r)
  end.
End list_ind3.

(** * Properties *)

(** ** Values *)

Lemma json_eqb_refl (x : json) : json_eqb x x = true.
Proof.
  induction x as [| b | q | s | l IH | l IH] using json_ind; simpl.
  - reflexivity.
  - by destruct b.
  - by rewrite Z.eqb_refl, Pos.eqb_refl.
  - apply String.eqb_refl.
  - induction IH as [| x r Hx _ IHr]; [done |]. by rewrite Hx, IHr.
  - induction IH as [| [k x] r Hx _ IHr]; [done |].
    simpl in Hx. by rewrite String.eqb_refl, Hx, IHr.
Qed.

Lemma json_eqb_eq (x y : json) : json_eqb x y = true <-> x = y.
Proof.
  split; [| intros ->; apply json_eqb_refl].
  revert y.
  induction x as [| b | q | s | l IH | l IH] using json_ind;
    intros [| b' | q' | s' | l' | l']; simpl; try discriminate; try done.
  - intros H. by apply Bool.eqb_prop in H as ->.
  - intros [H1 H2]%andb_prop. apply Z.eqb_eq in H1. apply Pos.eqb_eq in H2.
    destruct q, q'; simpl in *; by subst.
  - intros H. by apply String.eqb_eq in H as ->.
  - intros H. f_equal. revert l' H.
    induction IH as [| x r Hx _ IHr]; intros [| y r'] H;
      try discriminate; [done |].
    apply andb_prop in H as [H1 H2]. f_equal; auto.
  - intros H. f_equal. revert l' H.
    induction IH as [| [k x] r Hx _ IHr]; intros [| [k' y] r'] H;
      try discriminate; [done |].
    apply andb_prop in H as [[H1 H2]%andb_prop H3].
    apply String.eqb_eq in H1. simpl in Hx. f_equal; [f_equal |]; auto.
Qed.

(** [occurrences] counts the elements equal to [x]. *)
Lemma occurrences_spec (x : json) (l : list json) :
  occurrences x l = length (List.filter (fun y => bool_decide (json_eqb x y = true)) l)
  /\ (occurrences x l = 0 <-> x ∉ l).
Proof.
  split.
  - unfold occurrences. f_equal. apply List.filter_ext. intros y.
    by destruct (json_eqb x y).
  - unfold occurrences. induction l as [| y r IH]; simpl.
    + split; [intros _; apply not_elem_of_nil | done].
    + destruct (json_eqb x y) eqn:E; simpl.
      * apply json_eqb_eq in E as ->. split; [done |].
        intros H. exfalso. apply H. left.
      * rewrite IH. rewrite not_elem_of_cons. split; [| tauto].
        intros H. split; [| done]. intros ->.
        by rewrite json_eqb_refl in E.
Qed.

(** ** The parser always decides *)

Module JsonParseFacts.
Import JsonParse.

Lemma skip_ws_length (s : string) : String.length (skip_ws s) <= String.length s.
Proof.
induction s as [| a r IH]; simpl; [lia |].
destruct (is_ws a); simpl; lia.
Qed.

Lemma strip_prefix_length (p s r : string) :
JsString.strip_prefix p s = Some r ->
String.length s = String.length p + String.length r.
Proof.
revert s. induction p as [| a p IH]; intros [| b s]; simpl; try done.
- by intros [= <-].
- by intros [= <-].
- destruct (Ascii.eqb a b); [| done]. intros H. apply IH in H. lia.
Qed.

Lemma digits_length (s : string) (acc : N) (n : nat) :
String.length (digits s acc n).2 <= String.length s.
Proof.
revert acc n. induction s as [| a r IH]; intros acc n; simpl; [lia |].
destruct (is_digit a); simpl; [| lia].
specialize (IH (acc * 10 + (code a - 48))%N (S n)). lia.
Qed.

Lemma parse_exponent_length (s r : string) (e : Z) :
parse_exponent s = Some (e, r) -> String.length r <= String.length s.
Proof.
unfold parse_exponent. destruct s as [| a s]; [by intros [= <- <-] |].
destruct (_ || _)%bool; [| by intros [= <- <-]].
set (sr := match s with EmptyString => _ | String b r' => _ end).
assert (Hsr : String.length sr.2 <= String.length s).
{ subst sr. destruct s as [| b r']; simpl; [lia |].
  destruct (code b =? 45)%N; simpl; [lia |].
  destruct (code b =? 43)%N; simpl; lia. }
destruct sr as [neg r1]. simpl in Hsr.
pose proof (digits_length r1 0%N 0) as Hd.
destruct (digits r1 0%N 0) as [[v n] r2]. simpl in Hd.
destruct n; [done |]. intros [= <- <-]. simpl. lia.
Qed.

Lemma parse_number_length (s r : string) (q : Q) :
parse_number s = Some (q, r) -> String.length r < String.length s.
Proof.
unfold parse_number.
set (ns := match s with EmptyString => _ | String a r => _ end).
assert (Hns : String.length ns.2 <= String.length s).
{ subst ns. destruct s as [| a r']; simpl; [lia |].
  destruct (code a =? 45)%N; simpl; lia. }
destruct ns as [neg s1]. simpl in Hns.
destruct s1 as [| a r1]; [done |].
destruct (is_digit a) eqn:Ea; [| done].
set (ir := if (code a =? 48)%N then _ else _).
assert (Hir : String.length ir.2 <= String.length r1).
{ subst ir. destruct (code a =? 48)%N; simpl; [lia |].
  rewrite Ea. apply digits_length. }
destruct ir as [[int k] r2]. simpl in Hir.
set (fr := match r2 with EmptyString => _ | String d r' => _ end).
assert (Hfr : forall m fl r3, fr = Some (m, fl, r3) ->
                String.length r3 <= String.length r2).
{ subst fr. intros m fl r3. destruct r2 as [| d r']; [by intros [= <- <- <-] |].
  destruct (code d =? 46)%N; [| by intros [= <- <- <-]].
  pose proof (digits_length r' int 0) as Hd.
  destruct (digits r' int 0) as [[v n] r'']. simpl in Hd.
  destruct n; [done |]. intros [= <- <- <-]. simpl. lia. }
destruct fr as [[[m fl] r3] |]; simpl; [| done].
specialize (Hfr _ _ _ eq_refl).
destruct (parse_exponent r3) as [[e r4] |] eqn:Ee; simpl; [| done].
apply parse_exponent_length in Ee.
intros [= <- <-]. simpl in *. lia.
Qed.

Lemma string_items_length (s r : string) (its : list item) :
string_items s = Some (its, r) -> String.length r < String.length s.
Proof.
revert its r.
assert (IH : forall n s its r, String.length s <= n ->
               string_items s = Some (its, r) ->
               String.length r < String.length s); [| by eauto].
clear s. intros n. induction n as [| n IHn]; intros s its r Hn.
{ destruct s; [done | simpl in Hn; lia]. }
assert (IH : forall s' its r, String.length s' < String.length s ->
               string_items s' = Some (its, r) ->
               String.length r < String.length s').
{ intros s' its' r' Hs'. apply IHn. lia. }
clear IHn. destruct s as [| a s]; [done |]. simpl.
destruct (code a =? 34)%N; [intros [= <- <-]; simpl; lia |].
destruct (code a <? 32)%N; [done |].
destruct (code a =? 92)%N.
- destruct s as [| b s1]; [done |].
  destruct (code b =? 117)%N.
  + destruct s1 as [| h1 [| h2 [| h3 [| h4 r2]]]]; try done.
    destruct (hex_digit h1), (hex_digit h2), (hex_digit h3), (hex_digit h4);
      simpl; try done.
    destruct (string_items r2) as [[its' rest] |] eqn:E; simpl; [| done].
    apply IH in E; [| simpl; lia]. intros [= <- <-]. simpl in *. lia.
  + destruct (simple_escape b); simpl; [| done].
    destruct (string_items s1) as [[its' rest] |] eqn:E; simpl; [| done].
    apply IH in E; [| simpl; lia]. intros [= <- <-]. simpl in *. lia.
- destruct (string_items s) as [[its' rest] |] eqn:E; simpl; [| done].
  apply IH in E; [| simpl; lia]. intros [= <- <-]. simpl in *. lia.
Qed.

Lemma parse_string_length (s r str : string) :
parse_string s = Some (str, r) -> String.length r < String.length s.
Proof.
unfold parse_string.
destruct (string_items s) as [[its rest] |] eqn:E; simpl; [| done].
intros [= <- <-]. by eapply string_items_length.
Qed.

#[local] Arguments JsString.strip_prefix : simpl never.
#[local] Arguments parse_number : simpl never.
#[local] Arguments parse_string : simpl never.
#[local] Arguments skip_ws : simpl never.

(** A successful parse consumes at least one character. *)
Lemma parse_consumes (f : nat) :
(forall s v r, parse_value f s = Parsed v r ->
   String.length r < String.length s)
/\ (forall s acc v r, parse_elements f s acc = Parsed v r ->
      String.length r < String.length s)
/\ (forall s acc v r, parse_members f s acc = Parsed v r ->
      String.length r < String.length s).
Proof.
induction f as [| f (IHv & IHe & IHm)]; [by repeat split |].
split; [| split].
- intros s v r. simpl.
  pose proof (skip_ws_length s) as Hs.
  destruct (skip_ws s) as [| a t] eqn:Et; [done |]. simpl in Hs.
  destruct (code a =? 123)%N.
  { pose proof (skip_ws_length t) as Ht.
    destruct (skip_ws t) as [| b t'] eqn:Et'; [done |]. simpl in Ht.
    destruct (code b =? 125)%N; [inversion 1; subst; lia |].
    intros H. apply IHm in H. lia. }
  destruct (code a =? 91)%N.
  { pose proof (skip_ws_length t) as Ht.
    destruct (skip_ws t) as [| b t'] eqn:Et'; [done |]. simpl in Ht.
    destruct (code b =? 93)%N; [inversion 1; subst; lia |].
    intros H. apply IHe in H. lia. }
  destruct (code a =? QUOTE)%N.
  { destruct (parse_string t) as [[str t'] |] eqn:E; [| done].
    apply parse_string_length in E. inversion 1; subst; lia. }
  destruct (JsString.strip_prefix "true" (String a t)) as [t' |] eqn:E1.
  { apply strip_prefix_length in E1. simpl in E1. inversion 1; subst; lia. }
  destruct (JsString.strip_prefix "false" (String a t)) as [t' |] eqn:E2.
  { apply strip_prefix_length in E2. simpl in E2. inversion 1; subst; lia. }
  destruct (JsString.strip_prefix "null" (String a t)) as [t' |] eqn:E3.
  { apply strip_prefix_length in E3. simpl in E3. inversion 1; subst; lia. }
  destruct (parse_number (String a t)) as [[q t'] |] eqn:E4; [| done].
  apply parse_number_length in E4. simpl in E4. inversion 1; subst; lia.
- intros s acc v r. simpl.
  destruct (parse_value f s) as [x t | |] eqn:E; try done.
  apply IHv in E.
  pose proof (skip_ws_length t) as Ht.
  destruct (skip_ws t) as [| b t'] eqn:Et'; [done |]. simpl in Ht.
  destruct (code b =? 44)%N; [intros H; apply IHe in H; lia |].
  destruct (code b =? 93)%N; [| done]. inversion 1; subst; lia.
- intros s acc v r. simpl.
  pose proof (skip_ws_length s) as Hs.
  destruct (skip_ws s) as [| q t] eqn:Et; [done |]. simpl in Hs.
  destruct (code q =? QUOTE)%N; [| done].
  destruct (parse_string t) as [[k t1] |] eqn:E; [| done].
  apply parse_string_length in E.
  pose proof (skip_ws_length t1) as Ht1.
  destruct (skip_ws t1) as [| c t2] eqn:Et2; [done |]. simpl in Ht1.
  destruct (code c =? 58)%N; [| done].
  destruct (parse_value f t2) as [x t3 | |] eqn:Ev; try done.
  apply IHv in Ev.
  pose proof (skip_ws_length t3) as Ht3.
  destruct (skip_ws t3) as [| b t'] eqn:Et'; [done |]. simpl in Ht3.
  destruct (code b =? 44)%N; [intros H; apply IHm in H; lia |].
  destruct (code b =? 125)%N; [| done]. inversion 1; subst; lia.
Qed.

(** With fuel above twice the length of the input the parser decides. *)
Lemma parse_decides (f : nat) :
(forall s, 2 * String.length s + 1 <= f -> parse_value f s <> OutOfFuel)
/\ (forall s acc, 2 * String.length s + 2 <= f ->
      parse_elements f s acc <> OutOfFuel)
/\ (forall s acc, 2 * String.length s + 2 <= f ->
      parse_members f s acc <> OutOfFuel).
Proof.
induction f as [| f (IHv & IHe & IHm)]; [repeat split; intros; lia |].
destruct (parse_consumes f) as (Cv & Ce & Cm).
split; [| split].
- intros s Hf. simpl.
  pose proof (skip_ws_length s) as Hs.
  destruct (skip_ws s) as [| a t] eqn:Et; [done |]. simpl in Hs.
  destruct (code a =? 123)%N.
  { pose proof (skip_ws_length t) as Ht.
    destruct (skip_ws t) as [| b t'] eqn:Et'; [done |]. simpl in Ht.
    destruct (code b =? 125)%N; [done |]. apply IHm. lia. }
  destruct (code a =? 91)%N.
  { pose proof (skip_ws_length t) as Ht.
    destruct (skip_ws t) as [| b t'] eqn:Et'; [done |]. simpl in Ht.
    destruct (code b =? 93)%N; [done |]. apply IHe. lia. }
  destruct (code a =? QUOTE)%N.
  { by destruct (parse_string t) as [[str t'] |]. }
  destruct (JsString.strip_prefix "true" (String a t)); [done |].
  destruct (JsString.strip_prefix "false" (String a t)); [done |].
  destruct (JsString.strip_prefix "null" (String a t)); [done |].
  by destruct (parse_number (String a t)) as [[q t'] |].
- intros s acc Hf. simpl.
  pose proof (IHv s) as Hv.
  destruct (parse_value f s) as [x t | |] eqn:E; [| done | apply Hv; lia].
  apply Cv in E.
  pose proof (skip_ws_length t) as Ht.
  destruct (skip_ws t) as [| b t'] eqn:Et'; [done |]. simpl in Ht.
  destruct (code b =? 44)%N; [apply IHe; lia |].
  by destruct (code b =? 93)%N.
- intros s acc Hf. simpl.
  pose proof (skip_ws_length s) as Hs.
  destruct (skip_ws s) as [| q t] eqn:Et; [done |]. simpl in Hs.
  destruct (code q =? QUOTE)%N; [| done].
  destruct (parse_string t) as [[k t1] |] eqn:E; [| done].
  apply parse_string_length in E.
  pose proof (skip_ws_length t1) as Ht1.
  destruct (skip_ws t1) as [| c t2] eqn:Et2; [done |]. simpl in Ht1.
  destruct (code c =? 58)%N; [| done].
  pose proof (IHv t2) as Hv.
  destruct (parse_value f t2) as [x t3 | |] eqn:Ev; [| done | apply Hv; lia].
  apply Cv in Ev.
  pose proof (skip_ws_length t3) as Ht3.
  destruct (skip_ws t3) as [| b t'] eqn:Et'; [done |]. simpl in Ht3.
  destruct (code b =? 44)%N; [apply IHm; lia |].
  by destruct (code b =? 125)%N.
Qed.

(** The fuel [JSON_parse] gives the parser is enough for every text. *)
Lemma JSON_parse_decides (text : string) :
parse_value (2 * String.length text + 2) text <> OutOfFuel.
Proof. apply parse_decides. lia. Qed.

End JsonParseFacts.

(** ** cleanJson and JSON.parse *)

(** C9. The fenced text [```json\n{"a":1}\n```] is cleaned to the plain text
    [{"a":1}], so both parse to the same value, the object with the one field
    [a = 1]; the empty string is cleaned to [{}], which parses to the empty
    object. *)
Theorem cleanJson_strips_fence :
  cleanJson fenced_sample = plain_sample
  /\ JSON_parse (cleanJson fenced_sample) = JSON_parse plain_sample
  /\ JSON_parse plain_sample = Return (JObject [("a", JNumber 1)])
  /\ cleanJson EmptyString = "{}"
  /\ JSON_parse (cleanJson EmptyString) = Return (JObject []).
Proof. repeat split; vm_compute; reflexivity. Qed.

(** ** The helpers without a client *)

(** C10. Without a client the full mock test is the mock quiz twice: ten
    questions, each of the five mock questions twice, the first five being
    what [generateQuiz] returns without a client. *)
Theorem generateFullMockTest_offline_duplicates
    (net net' : Network) (role role' : string) (d : Difficulty)
    (topic : option string) :
  (generateFullMockTest None net role).2 = Return (JArray (MOCK_QUIZ ++ MOCK_QUIZ))
  /\ length (MOCK_QUIZ ++ MOCK_QUIZ) = 10
  /\ length MOCK_QUIZ = 5
  /\ Forall (fun q => occurrences q (MOCK_QUIZ ++ MOCK_QUIZ) = 2) MOCK_QUIZ
  /\ Forall (fun q => q ∈ MOCK_QUIZ) (MOCK_QUIZ ++ MOCK_QUIZ)
  /\ (generateQuiz None net' role' d topic).2
     = Return (JArray (take 5 (MOCK_QUIZ ++ MOCK_QUIZ))).
Proof.
  split; [reflexivity |]. split; [reflexivity |]. split; [reflexivity |].
  split; [| split; [| reflexivity]].
  - repeat constructor.
  - apply Forall_app. split; by apply Forall_forall.
Qed.

(** C4, as the spec states it, fails for [generateAptitudePrep]: without a
    client it returns the shared mock resources, whose first entry has the
    type ["Course"], outside the enum of that helper's response schema. *)
Lemma generateAptitudePrep_mock_outside_enum :
  (generateAptitudePrep None unreachable).2 = Return (JArray MOCK_RESOURCES)
  /\ responseSchema (config generateAptitudePrep_request)
     = Some aptitudePrepSchema
  /\ conforms aptitudePrepSchema (JArray MOCK_RESOURCES) = false
  /\ MOCK_RESOURCES !! 0 ≫= (fun r => match r with
                                      | JObject fs => field "type" fs
                                      | _ => None
                                      end) = Some (JString "Course").
Proof. repeat split; vm_compute; reflexivity. Qed.

(** C4, amended. Without a client every helper returns its fixed mock data,
    whatever its arguments and whatever the network would do, so two calls
    return the same value.  The mock data has the field names and the kinds
    of values of the helper's response schema; it also meets the enum
    constraints, except that of [generateAptitudePrep]. [searchJobs] declares
    no response schema; its mock data is a list of job listings. *)
Theorem offline_helpers_return_mock_data
    (net net' : Network) (data mime data' mime' role role' : string)
    (skills skills' : list string) (d d' : Difficulty)
    (topic topic' location location' : option string) :
  ((parseResumeDocument None net data mime).2 = Return MOCK_RESUME
   /\ parseResumeDocument None net data mime
      = parseResumeDocument None net' data' mime'
   /\ conforms resumeSchema MOCK_RESUME = true)
  /\ ((generateLearningPath None net role skills).2
      = Return (JArray MOCK_RESOURCES)
      /\ generateLearningPath None net role skills
         = generateLearningPath None net' role' skills'
      /\ conforms learningPathSchema (JArray MOCK_RESOURCES) = true)
  /\ ((generateQuiz None net role d topic).2 = Return (JArray MOCK_QUIZ)
      /\ generateQuiz None net role d topic
         = generateQuiz None net' role' d' topic'
      /\ conforms quizSchema (JArray MOCK_QUIZ) = true)
  /\ ((generateAptitudePrep None net).2 = Return (JArray MOCK_RESOURCES)
      /\ generateAptitudePrep None net = generateAptitudePrep None net'
      /\ conforms (relax aptitudePrepSchema) (JArray MOCK_RESOURCES) = true)
  /\ ((generateFullMockTest None net role).2
      = Return (JArray (MOCK_QUIZ ++ MOCK_QUIZ))
      /\ generateFullMockTest None net role
         = generateFullMockTest None net' role'
      /\ conforms fullMockTestSchema (JArray (MOCK_QUIZ ++ MOCK_QUIZ)) = true)
  /\ ((searchJobs None net role location).2 = Return (JArray MOCK_JOBS)
      /\ searchJobs None net role location
         = searchJobs None net' role' location'
      /\ responseSchema (config (searchJobs_request role "Remote")) = None
      /\ conforms jobListingShape (JArray MOCK_JOBS) = true).
Proof. repeat split; vm_compute; reflexivity. Qed.

(** ** The helpers with a client *)

(** C5, as the spec states it, fails: an answer that parses as JSON but does
    not have the declared shape is returned as it is.  Here the service
    answers the resume request with an empty array. *)
Lemma parseResumeDocument_returns_mismatching_answer :
  exists v,
    (parseResumeDocument (Some demo_client) (answering "[]")
       "JVBERi0=" "application/pdf").2 = Return v
    /\ v = JArray []
    /\ v <> MOCK_RESUME
    /\ conforms resumeSchema v = false
    /\ conforms (relax resumeSchema) v = false.
Proof. exists (JArray []). repeat split; try (vm_compute; reflexivity). discriminate. Qed.

(** C5, amended. No helper ever rejects.  With a client, a request that
    throws or an answer that is not JSON is absorbed: the helper warns under
    its own name and resolves to its mock data; an answer that parses is
    returned as parsed, without a check against the schema.  [searchJobs]
    resolves to the mock jobs when its request throws. *)
Theorem helpers_absorb_thrown_failures
    (ai : option GoogleGenAI) (client : GoogleGenAI) (net : Network)
    (data mime role : string) (skills : list string) (d : Difficulty)
    (topic location : option string) :
  (rejected (parseResumeDocument ai net data mime) = false
   /\ rejected (generateLearningPath ai net role skills) = false
   /\ rejected (generateQuiz ai net role d topic) = false
   /\ rejected (generateAptitudePrep ai net) = false
   /\ rejected (generateFullMockTest ai net role) = false
   /\ rejected (searchJobs ai net role location) = false)
  /\ parseResumeDocument (Some client) net data mime
     = absorbed "parseResumeDocument" "{}" MOCK_RESUME net client
         (parseResumeDocument_request data mime)
  /\ generateLearningPath (Some client) net role skills
     = absorbed "generateLearningPath" "[]" (JArray MOCK_RESOURCES) net client
         (generateLearningPath_request role skills)
  /\ generateQuiz (Some client) net role d topic
     = absorbed "generateQuiz" "[]" (JArray MOCK_QUIZ) net client
         (generateQuiz_request role (Difficulty_text d)
            (default "Technical" topic))
  /\ generateAptitudePrep (Some client) net
     = absorbed "generateAptitudePrep" "[]" (JArray MOCK_RESOURCES) net client
         generateAptitudePrep_request
  /\ generateFullMockTest (Some client) net role
     = absorbed "generateFullMockTest" "[]" (JArray (MOCK_QUIZ ++ MOCK_QUIZ))
         net client (generateFullMockTest_request role)
  /\ match net client (searchJobs_request role (default "Remote" location)) with
     | Throw e =>
         searchJobs (Some client) net role location
         = ([Request client (searchJobs_request role (default "Remote" location));
             ConsoleWarn "Gemini API Error in searchJobs (or Offline Mode). Returning mock data." e],
            Return (JArray MOCK_JOBS))
     | Return _ => True
     end.
Proof.
  split.
  - destruct ai as [c |]; [| by repeat split].
    unfold rejected, parseResumeDocument, generateLearningPath, generateQuiz,
      generateAptitudePrep, generateFullMockTest, searchJobs, try_catch,
      generateContent, handleOfflineError, settle, perform; simpl.
    repeat split;
      repeat match goal with
        | |- context [net ?c ?r] => destruct (net c r); simpl
        | |- context [JSON_parse ?t] => destruct (JSON_parse t); simpl
        | |- context [Nat.eqb ?a ?b] => destruct (Nat.eqb a b); simpl
        | |- context [Uri.encodeURIComponent ?t] =>
            destruct (Uri.encodeURIComponent t); simpl
        end; reflexivity.
  - unfold absorbed, parseResumeDocument, generateLearningPath, generateQuiz,
      generateAptitudePrep, generateFullMockTest, searchJobs, try_catch,
      generateContent, handleOfflineError, settle, perform; simpl.
    repeat split;
      repeat match goal with
        | |- context [net ?c ?r] => destruct (net c r); simpl
        | |- context [JSON_parse ?t] => destruct (JSON_parse t); simpl
        end; reflexivity.
Qed.

(** ** Job search with a client *)






(** ** Credential resolution *)

Lemma precedence_truthy (a b : option string) (k : string) :
  precedence a b = Some k -> JsString.truthy k = true.
Proof.
  unfold precedence.
  destruct (truthy_opt a) eqn:Ea; [intros ->; exact Ea |].
  destruct (truthy_opt b) eqn:Eb; [intros ->; exact Eb | discriminate].
Qed.

(** The three cases of the precedence, on the spec's side. *)
Lemma precedence_cases (persisted environment : option string) :
  (truthy_opt persisted = true -> precedence persisted environment = persisted)
  /\ (truthy_opt persisted = false -> truthy_opt environment = true ->
      precedence persisted environment = environment)
  /\ (truthy_opt persisted = false -> truthy_opt environment = false ->
      precedence persisted environment = None).
Proof.
  unfold precedence. repeat split; intros H; rewrite H; try done.
  all: by intros ->.
Qed.

(** Both places compute the key of the precedence. *)
Lemma credential_paths (m : gmap string string) (p : option Process)
    (stream : LiveInterview.MediaStream) (role : string)
    (v : option LiveInterview.Video) :
  let h := {| localStorage := Store m; process := p |} in
  let key := precedence (m !! STORAGE_KEY) (env_API_KEY p) in
  let pg := {| LiveInterview.host := h;
               LiveInterview.userMedia := Return stream;
               LiveInterview.AudioContextClass := true |} in
  let after := LiveInterview.connect pg role (LiveInterview.initial v) in
  ai_at_load h = (fun k => {| apiKey := k |}) <$> key
  /\ (if truthy_opt (LiveInterview.retrieve_apiKey h)
      then LiveInterview.retrieve_apiKey h else None) = key
  /\ LiveInterview.apiKey <$> LiveInterview.session after = key
  /\ match key with
     | Some _ =>
         hasApiKey (ai_at_load h) = true
         /\ LiveInterview.demoIntervalRef after = None
     | None =>
         hasApiKey (ai_at_load h) = false
         /\ LiveInterview.isConnected after = true
         /\ LiveInterview.demoIntervalRef after = Some 1%Z
     end.
Proof.
  intros h key pg after.
  unfold after, LiveInterview.connect, LiveInterview.connect_try,
    ai_at_load, initializeAI, LiveInterview.retrieve_apiKey.
  subst key pg h. unfold precedence, env_API_KEY. simpl.
  destruct (m !! STORAGE_KEY) as [[| a s] |]; simpl;
    try (destruct v; repeat split; reflexivity);
    (destruct p as [[[e |]] |]; simpl;
     [ destruct (e !! "API_KEY") as [[| b t] |]; simpl | | ]);
    destruct v; repeat split; reflexivity.
Qed.

(** With readable storage, both the module's initialisation and [connect]
    use the key the precedence gives: the persisted one when there is one,
    whatever the environment holds; else the environment's; and when there
    is neither, no client is active and [connect] runs the demo. *)
Theorem credential_precedence (m : gmap string string) (p : option Process)
    (stream : LiveInterview.MediaStream) (role : string)
    (v : option LiveInterview.Video) :
  let h := {| localStorage := Store m; process := p |} in
  let key := precedence (m !! STORAGE_KEY) (env_API_KEY p) in
  let pg := {| LiveInterview.host := h;
               LiveInterview.userMedia := Return stream;
               LiveInterview.AudioContextClass := true |} in
  let after := LiveInterview.connect pg role (LiveInterview.initial v) in
  ai_at_load h = (fun k => {| apiKey := k |}) <$> key
  /\ (if truthy_opt (LiveInterview.retrieve_apiKey h)
      then LiveInterview.retrieve_apiKey h else None) = key
  /\ LiveInterview.apiKey <$> LiveInterview.session after = key
  /\ match key with
     | Some _ =>
         hasApiKey (ai_at_load h) = true
         /\ LiveInterview.demoIntervalRef after = None
     | None =>
         hasApiKey (ai_at_load h) = false
         /\ LiveInterview.isConnected after = true
         /\ LiveInterview.demoIntervalRef after = Some 1%Z
     end
  /\ (truthy_opt (m !! STORAGE_KEY) = true -> key = m !! STORAGE_KEY)
  /\ (truthy_opt (m !! STORAGE_KEY) = false ->
      truthy_opt (env_API_KEY p) = true -> key = env_API_KEY p)
  /\ (truthy_opt (m !! STORAGE_KEY) = false ->
      truthy_opt (env_API_KEY p) = false -> key = None).
Proof.
  intros h key pg after.
  pose proof (credential_paths m p stream role v) as Hpaths.
  pose proof (precedence_cases (m !! STORAGE_KEY) (env_API_KEY p)) as Hcases.
  cbv zeta in Hpaths. fold h key pg after in Hpaths. fold key in Hcases.
  tauto.
Qed.

Lemma credential_precedence_witness :
  ai_at_load
    {| localStorage := Store {[ STORAGE_KEY := "user-key" ]};
       process := Some {| env := Some {[ "API_KEY" := "build-key" ]} |} |}
  = Some {| apiKey := "user-key" |}.
Proof.
  exact (proj1 (credential_precedence
                  {[ STORAGE_KEY := "user-key" ]}
                  (Some {| env := Some {[ "API_KEY" := "build-key" ]} |})
                  {| LiveInterview.tracks := [LiveInterview.Live] |}
                  "Engineer" None)).
Defined.

(** C7, at the input where the code departs from it.  Reading local storage
    throws (storage is blocked) and the environment provides a key: no
    persisted credential exists, so the precedence asks for the
    environment's key.  [connect] ignores the storage failure and uses that
    key for the live session.  The helper module does not: the exception
    leaves the single [try] of [initializeAI] before the environment is
    looked at, and no client is active. *)
Theorem blocked_storage_paths_differ (k role : string)
    (e : gmap string string) (stream : LiveInterview.MediaStream)
    (v : option LiveInterview.Video) :
  e !! "API_KEY" = Some k ->
  JsString.truthy k = true ->
  let h := {| localStorage := Blocked; process := Some {| env := Some e |} |} in
  let pg := {| LiveInterview.host := h;
               LiveInterview.userMedia := Return stream;
               LiveInterview.AudioContextClass := true |} in
  let after := LiveInterview.connect pg role (LiveInterview.initial v) in
  precedence None (env_API_KEY (process h)) = Some k
  /\ (LiveInterview.retrieve_apiKey h = Some k
      /\ LiveInterview.apiKey <$> LiveInterview.session after = Some k
      /\ LiveInterview.demoIntervalRef after = None
      /\ LiveInterview.error after = None)
  /\ (ai_at_load h = None /\ hasApiKey (ai_at_load h) = false).
Proof.
  intros He Hk h pg after.
  unfold after, LiveInterview.connect, LiveInterview.connect_try,
    LiveInterview.retrieve_apiKey, precedence, env_API_KEY.
  subst pg h. simpl. rewrite He. simpl. rewrite Hk. simpl. rewrite Hk.
  destruct v; repeat split; reflexivity.
Qed.

Lemma blocked_storage_paths_differ_witness :
  let h := {| localStorage := Blocked;
              process := Some {| env := Some {[ "API_KEY" := "build-key" ]} |} |} in
  LiveInterview.retrieve_apiKey h = Some "build-key" /\ ai_at_load h = None.
Proof.
  intros h.
  destruct (blocked_storage_paths_differ "build-key" "Engineer"
              {[ "API_KEY" := "build-key" ]}
              {| LiveInterview.tracks := [LiveInterview.Live] |} None)
    as (_ & (H1 & _) & (H2 & _)); [reflexivity | reflexivity |].
  split; [exact H1 | exact H2].
Defined.

(** ** Further properties of the helper module *)

(** *** Changing the credential *)

(** X1. A non-empty key given to [updateApiKey] becomes the active client
    and is persisted, and the next load of the module, whatever the
    environment holds then, starts with that key. *)
Theorem updateApiKey_persists (key : string) (ai : option GoogleGenAI)
    (m : gmap string string) (p : option Process) :
  JsString.truthy key = true ->
  updateApiKey key ai (Store m)
  = (Some {| apiKey := key |}, Store (<[STORAGE_KEY := key]> m), Return tt)
  /\ ai_at_load {| localStorage := Store (<[STORAGE_KEY := key]> m);
                   process := p |}
     = Some {| apiKey := key |}.
Proof.
  intros Hkey. split.
  - unfold updateApiKey. by rewrite Hkey.
  - unfold ai_at_load, initializeAI. simpl. rewrite lookup_insert_eq. simpl.
    by rewrite Hkey.
Qed.

Lemma updateApiKey_persists_witness :
  updateApiKey "user-key" None (Store ∅)
  = (Some {| apiKey := "user-key" |},
     Store (<[STORAGE_KEY := "user-key"]> ∅), Return tt).
Proof.
  exact (proj1 (updateApiKey_persists "user-key" None ∅ None eq_refl)).
Defined.

(** X2. The empty key clears the client and the persisted key; the next
    load of the module falls back to the environment's key, if any. *)
Theorem updateApiKey_clears (ai : option GoogleGenAI) (m : gmap string string)
    (p : option Process) :
  updateApiKey EmptyString ai (Store m)
  = (None, Store (delete STORAGE_KEY m), Return tt)
  /\ ai_at_load {| localStorage := Store (delete STORAGE_KEY m); process := p |}
     = (fun k => {| apiKey := k |})
         <$> (if truthy_opt (env_API_KEY p) then env_API_KEY p else None).
Proof.
  split; [reflexivity |].
  unfold ai_at_load, initializeAI. simpl. rewrite lookup_delete_eq. simpl.
  destruct (truthy_opt (env_API_KEY p)) eqn:E; [| done].
  destruct (env_API_KEY p); [done | discriminate].
Qed.

(** X3. After [updateApiKey] a client is active exactly when the key was
    not empty, whatever the storage does.  The call throws only when the
    empty key is given and the storage is blocked; with blocked storage
    nothing is persisted, and the next load of the module has no client. *)
Theorem updateApiKey_outcome (key : string) (ai : option GoogleGenAI)
    (st : Storage) (p : option Process) :
  let '(ai', st', r) := updateApiKey key ai st in
  hasApiKey ai' = JsString.truthy key
  /\ (r = Return tt
      \/ (key = EmptyString /\ st = Blocked /\ r = Throw SecurityError))
  /\ (st = Blocked ->
      st' = Blocked
      /\ ai_at_load {| localStorage := st'; process := p |} = None).
Proof.
  unfold updateApiKey. destruct key as [| a k], st as [| m]; simpl;
    repeat split; auto; try discriminate.
Qed.

(** *** Job search, whatever happens *)

(** X4. [searchJobs] always resolves to a list of one to six entries, each
    with the four text fields of a job listing: the mock jobs, the cited
    pages, or the one synthesized entry. *)
Theorem searchJobs_always_listings (ai : option GoogleGenAI) (net : Network)
    (role : string) (location : option string) :
  exists l,
    (searchJobs ai net role location).2 = Return (JArray l)
    /\ 1 <= length l <= 6
    /\ conforms jobListingShape (JArray l) = true.
Proof.
  assert (Hmock : exists l, Return (JArray MOCK_JOBS) = Return (JArray l)
                    /\ 1 <= length l <= 6
                    /\ conforms jobListingShape (JArray l) = true).
  { exists MOCK_JOBS. split; [reflexivity |].
    split; [simpl; lia | reflexivity]. }
  destruct ai as [client |]; [| exact Hmock].
  unfold searchJobs, try_catch, generateContent, handleOfflineError, settle,
    perform; simpl.
  destruct (net client _) as [resp | e]; simpl; [| exact Hmock].
  set (ls := take 6 (listing_of (default "Remote" location)
                       <$> List.filter cited (chunks_of resp))).
  destruct (length ls =? 0)%nat eqn:E.
  - destruct (Uri.encodeURIComponent _) as [q | e]; simpl;
      [| exact Hmock].
    eexists. split; [reflexivity |]. split; [simpl; lia | reflexivity].
  - exists ls. split; [reflexivity |]. apply Nat.eqb_neq in E.
    split; [subst ls; rewrite length_take in *; lia |].
    simpl. apply forallb_forall. intros x Hx. subst ls.
    apply list_elem_of_In, elem_of_take in Hx as (i & Hx & _).
    apply list_elem_of_lookup_2, list_elem_of_fmap in Hx as (c & -> & _).
    reflexivity.
Qed.

(** *** cleanJson on any text *)

Lemma append_cons (x : ascii) (a b : string) :
  String x a +:+ b = String x (a +:+ b).
Proof. reflexivity. Qed.

Lemma append_assoc (a b c : string) : (a +:+ b) +:+ c = a +:+ (b +:+ c).
Proof.
  induction a as [| x a IH]; [done |]. by rewrite !append_cons, IH.
Qed.

Lemma append_nil_r (a : string) : a +:+ EmptyString = a.
Proof. induction a as [| x a IH]; [done |]. by rewrite append_cons, IH. Qed.

Lemma rev_app_append (a acc : string) :
  String.rev_app a acc = String.rev a +:+ acc.
Proof.
  unfold String.rev. revert acc.
  induction a as [| x a IH]; intros acc; [done |].
  cbn [String.rev_app]. rewrite (IH (String x acc)), (IH (String x EmptyString)).
  by rewrite append_assoc.
Qed.

Lemma rev_cons (x : ascii) (a : string) :
  String.rev (String x a) = String.rev a +:+ String x EmptyString.
Proof. unfold String.rev at 1. cbn [String.rev_app]. apply rev_app_append. Qed.

Lemma rev_append (a b : string) :
  String.rev (a +:+ b) = String.rev b +:+ String.rev a.
Proof.
  induction a as [| x a IH].
  - by rewrite append_nil_r.
  - by rewrite append_cons, !rev_cons, IH, append_assoc.
Qed.

Lemma rev_rev (a : string) : String.rev (String.rev a) = a.
Proof.
  induction a as [| x a IH]; [done |].
  by rewrite rev_cons, rev_append, IH.
Qed.

Lemma rev_inj (a b : string) : String.rev a = String.rev b -> a = b.
Proof. intros H. by rewrite <- (rev_rev a), H, rev_rev. Qed.

Lemma strip_prefix_append (p s : string) :
  JsString.strip_prefix p (p +:+ s) = Some s.
Proof.
  induction p as [| a p IH]; [done |].
  rewrite append_cons. cbn [JsString.strip_prefix].
  by rewrite Ascii.eqb_refl.
Qed.

Lemma strip_suffix_append (p s : string) :
  JsString.strip_suffix p (s +:+ p) = Some s.
Proof.
  unfold JsString.strip_suffix.
  by rewrite rev_append, strip_prefix_append; cbn; rewrite rev_rev.
Qed.

Lemma strip_prefix_Some (p s r : string) :
  JsString.strip_prefix p s = Some r -> s = p +:+ r.
Proof.
  revert s. induction p as [| a p IH]; intros s.
  - by intros [= ->].
  - destruct s as [| b s]; [done |]. cbn [JsString.strip_prefix].
    destruct (Ascii.eqb_spec a b) as [<- | _]; [| done].
    intros H. by rewrite append_cons, <- (IH s H).
Qed.

Lemma strip_suffix_Some (p s b : string) :
  JsString.strip_suffix p s = Some b -> s = b +:+ p.
Proof.
  unfold JsString.strip_suffix.
  destruct (JsString.strip_prefix _ _) as [r |] eqn:E; [| done].
  intros [= <-]. apply strip_prefix_Some in E. apply rev_inj.
  by rewrite rev_append, rev_rev.
Qed.

Lemma blank_rev (s : string) : blank s = true -> blank (String.rev s) = true.
Proof.
  assert (H : forall a b, blank a = true -> blank b = true ->
                          blank (a +:+ b) = true).
  { intros a b. induction a as [| x a IH]; [done |].
    rewrite append_cons. cbn [blank]. intros [-> Ha]%andb_prop Hb.
    by rewrite IH. }
  induction s as [| x s IH]; [done |].
  cbn [blank]. intros [Hx Hs]%andb_prop. rewrite rev_cons.
  apply H; [by apply IH |]. cbn [blank]. by rewrite Hx.
Qed.

Lemma drop_blank (p2 : ascii -> ascii -> bool)
    (p3 : ascii -> ascii -> ascii -> bool) (ws s : string) :
  blank ws = true ->
  JsString.drop_spaces p2 p3 (ws +:+ s) = JsString.drop_spaces p2 p3 s.
Proof.
  induction ws as [| a ws IH]; [done |].
  cbn [blank]. intros [Ha Hws]%andb_prop.
  rewrite append_cons. cbn [JsString.drop_spaces]. rewrite Ha. by apply IH.
Qed.

Lemma plain_not_space2 (a b : ascii) :
  plain a = true ->
  JsString.is_space2 a b = false /\ JsString.is_space2 b a = false.
Proof.
  unfold plain, JsString.is_space2.
  intros [[Ha%N.ltb_lt _]%andb_prop _]%andb_prop.
  destruct (N.eqb_spec (JsString.code a) 194); [lia |].
  destruct (N.eqb_spec (JsString.code a) 160); [lia |].
  by rewrite andb_false_r.
Qed.

Lemma plain_not_space3 (a b c : ascii) :
  plain a = true ->
  JsString.is_space3 a b c = false /\ JsString.is_space3 c b a = false.
Proof.
  unfold plain, JsString.is_space3.
  intros [[Ha%N.ltb_lt _]%andb_prop _]%andb_prop.
  repeat match goal with
         | |- context [(JsString.code a =? ?k)%N] =>
             destruct (N.eqb_spec (JsString.code a) k); [lia |]
         | |- context [(?k <=? JsString.code a)%N] =>
             destruct (N.leb_spec k (JsString.code a)); [lia |]
         end.
  cbn [andb orb]. rewrite !andb_false_r. by cbn.
Qed.

Lemma drop_plain (s : string) :
  starts_plain s = true ->
  JsString.trimStart s = s
  /\ JsString.drop_spaces (fun a b => JsString.is_space2 b a)
       (fun a b c => JsString.is_space3 c b a) s = s.
Proof.
  destruct s as [| a r]; [done |]. cbn [starts_plain]. intros Ha.
  assert (Hs : JsString.is_space1 a = false).
  { unfold plain in Ha.
    apply andb_prop in Ha as [[_ H%negb_true_iff]%andb_prop _]. exact H. }
  unfold JsString.trimStart. cbn [JsString.drop_spaces]. rewrite Hs.
  destruct r as [| b r]; [done |].
  destruct (plain_not_space2 a b Ha) as [-> ->].
  destruct r as [| c r]; [done |].
  by destruct (plain_not_space3 a b c Ha) as [-> ->].
Qed.

Lemma starts_plain_append (s t : string) :
  starts_plain s = true -> starts_plain (s +:+ t) = true.
Proof. by destruct s. Qed.

Lemma trimStart_blank (ws s : string) :
  blank ws = true -> starts_plain s = true ->
  JsString.trimStart (ws +:+ s) = s.
Proof.
  intros Hws Hs. unfold JsString.trimStart. rewrite drop_blank by done.
  apply (drop_plain s Hs).
Qed.

Lemma trimEnd_blank (s ws : string) :
  blank ws = true -> starts_plain (String.rev s) = true ->
  JsString.trimEnd (s +:+ ws) = s.
Proof.
  intros Hws Hs. unfold JsString.trimEnd.
  rewrite rev_append, drop_blank by (by apply blank_rev).
  destruct (drop_plain _ Hs) as [_ ->]. apply rev_rev.
Qed.

Lemma starts_clear_append (ws s : string) :
  blank ws = true -> starts_plain s = true -> starts_clear (ws +:+ s) = true.
Proof.
  destruct ws as [| a ws].
  - intros _. destruct s as [| b s]; [done |].
    change (plain b = true -> JsString.is_space1 b || plain b = true).
    intros ->. apply orb_true_r.
  - cbn [blank]. intros [Ha _]%andb_prop _. rewrite append_cons.
    cbn [starts_clear]. by rewrite Ha.
Qed.

Lemma strip_prefix_clear (p s : string) :
  starts_clear s = true ->
  JsString.strip_prefix (String "`" p) s = None.
Proof.
  destruct s as [| a s]; [done |]. cbn [starts_clear JsString.strip_prefix].
  intros H. destruct (Ascii.eqb_spec "`" a) as [<- | _]; [| done].
  by vm_compute in H.
Qed.

(** X5. [cleanJson] takes away the white space around a text and one fence
    labelled json around that: for a text that starts and ends with an
    ASCII character other than white space and the backtick, with any
    one-byte white space before and after it, the result is the text
    itself, fenced or not, so the fenced answer parses as the bare one. *)
Theorem cleanJson_strips_fence_and_space (ws1 body ws2 : string) :
  blank ws1 = true -> blank ws2 = true -> solid body = true ->
  cleanJson ("```json" +:+ ws1 +:+ body +:+ ws2 +:+ "```") = body
  /\ cleanJson (ws1 +:+ body +:+ ws2) = body
  /\ JSON_parse (cleanJson ("```json" +:+ ws1 +:+ body +:+ ws2 +:+ "```"))
     = JSON_parse body.
Proof.
  intros H1 H2 [Hb He]%andb_prop.
  assert (Htrim : JsString.trim body = body).
  { unfold JsString.trim. destruct (drop_plain body Hb) as [-> _].
    rewrite <- (append_nil_r body) at 1. by apply trimEnd_blank. }
  assert (Hfenced : cleanJson ("```json" +:+ ws1 +:+ body +:+ ws2 +:+ "```")
                    = body).
  { unfold cleanJson, replace_fence_open, replace_fence_close.
    rewrite (strip_prefix_append "```json").
    rewrite trimStart_blank by (done || by apply starts_plain_append).
    change (JsString.truthy _) with true. cbv iota.
    rewrite <- (append_assoc body ws2 "```"), strip_suffix_append.
    rewrite trimEnd_blank by done. exact Htrim. }
  split; [exact Hfenced |]. split; [| by rewrite Hfenced].
  unfold cleanJson, replace_fence_open, replace_fence_close.
  assert (Ht : JsString.truthy (ws1 +:+ body +:+ ws2) = true).
  { destruct ws1; [by destruct body | done]. }
  rewrite Ht.
  rewrite strip_prefix_clear
    by (apply starts_clear_append; [done | by apply starts_plain_append]).
  assert (Hsuf : JsString.strip_suffix "```" (ws1 +:+ body +:+ ws2) = None).
  { unfold JsString.strip_suffix.
    rewrite <- (append_assoc ws1 body ws2), rev_append, (rev_append ws1 body).
    change (String.rev "```") with "```".
    rewrite strip_prefix_clear; [done |].
    apply starts_clear_append;
      [by apply blank_rev | by apply starts_plain_append]. }
  rewrite Hsuf. unfold JsString.trim.
  rewrite trimStart_blank by (done || by apply starts_plain_append).
  by apply trimEnd_blank.
Qed.

Lemma cleanJson_strips_fence_and_space_witness :
  cleanJson ("```json" +:+ (" " +:+ LF) +:+ "[1, 2]" +:+ LF +:+ "```")
  = "[1, 2]".
Proof.
  apply (cleanJson_strips_fence_and_space (" " +:+ LF) "[1, 2]" LF);
    reflexivity.
Defined.

Lemma drop_spaces_suffix (p2 : ascii -> ascii -> bool)
    (p3 : ascii -> ascii -> ascii -> bool) (n : nat) (s : string) :
  String.length s <= n ->
  exists pre, s = pre +:+ JsString.drop_spaces p2 p3 s.
Proof.
  revert s. induction n as [| n IH]; intros s Hn.
  - destruct s; [by exists EmptyString | simpl in Hn; lia].
  - destruct s as [| a r]; [by exists EmptyString |].
    cbn [JsString.drop_spaces]. cbn [String.length] in Hn.
    destruct (JsString.is_space1 a).
    { destruct (IH r) as [pre Hpre]; [lia |].
      exists (String a pre). by rewrite append_cons, <- Hpre. }
    destruct r as [| b r2]; [by exists EmptyString |].
    cbn [String.length] in Hn. destruct (p2 a b).
    { destruct (IH r2) as [pre Hpre]; [lia |].
      exists (String a (String b pre)). by rewrite !append_cons, <- Hpre. }
    destruct r2 as [| c r3]; [by exists EmptyString |].
    cbn [String.length] in Hn. destruct (p3 a b c); [| by exists EmptyString].
    destruct (IH r3) as [pre Hpre]; [lia |].
    exists (String a (String b (String c pre))).
    by rewrite !append_cons, <- Hpre.
Qed.

(** [trimEnd] and the removal of the closing fence keep a prefix. *)
Lemma trimEnd_prefix (s : string) : exists suf, s = JsString.trimEnd s +:+ suf.
Proof.
  unfold JsString.trimEnd.
  destruct (drop_spaces_suffix (fun a b => JsString.is_space2 b a)
              (fun a b c => JsString.is_space3 c b a)
              (String.length (String.rev s)) (String.rev s)) as [pre Hpre];
    [done |].
  exists (String.rev pre). apply rev_inj.
  by rewrite rev_append, !rev_rev.
Qed.

Lemma replace_fence_close_prefix (s : string) :
  exists suf, s = replace_fence_close s +:+ suf.
Proof.
  unfold replace_fence_close.
  destruct (JsString.strip_suffix "```" s) as [b |] eqn:E.
  - apply strip_suffix_Some in E. destruct (trimEnd_prefix b) as [suf Hsuf].
    exists (suf +:+ "```"). by rewrite <- append_assoc, <- Hsuf.
  - exists EmptyString. by rewrite append_nil_r.
Qed.

Lemma fence_or_empty_prefix (s suf : string) :
  fence_or_empty (s +:+ suf) = true -> fence_or_empty s = true.
Proof. destruct s; [done |]. by rewrite append_cons. Qed.

Lemma trimStart_fence (s : string) :
  fence_or_empty s = true -> JsString.trimStart s = s.
Proof.
  destruct s as [| a r]; [done |]. cbn [fence_or_empty].
  intros <-%Ascii.eqb_eq.
  by destruct r as [| b [| c r]].
Qed.

Lemma JSON_parse_fence (s : string) :
  fence_or_empty s = true -> JSON_parse s = Throw SyntaxError_.
Proof.
  destruct s as [| a r]; [done |]. cbn [fence_or_empty].
  intros <-%Ascii.eqb_eq. unfold JSON_parse.
  cbn [String.length]. rewrite Nat.mul_succ_r, Nat.add_comm.
  reflexivity.
Qed.

(** X6. A fence without the json label is not taken away: for a text that
    starts with three backticks not followed by json, what [cleanJson]
    returns is empty or still starts with a backtick, [JSON.parse] refuses
    it, and a helper given that answer warns and resolves to its mock
    data. *)
Theorem cleanJson_keeps_unlabelled_fence (rest role : string)
    (client : GoogleGenAI) (d : Difficulty) (topic : option string) :
  JsString.strip_prefix "json" rest = None ->
  let cleaned := cleanJson ("```" +:+ rest) in
  fence_or_empty cleaned = true
  /\ JSON_parse cleaned = Throw SyntaxError_
  /\ generateQuiz (Some client) (answering ("```" +:+ rest)) role d topic
     = ([Request client (generateQuiz_request role (Difficulty_text d)
                           (default "Technical" topic));
         ConsoleWarn "Gemini API Error in generateQuiz (or Offline Mode). Returning mock data."
           SyntaxError_],
        Return (JArray MOCK_QUIZ)).
Proof.
  intros Hrest cleaned.
  assert (H : fence_or_empty cleaned = true).
  { subst cleaned. unfold cleanJson. change (JsString.truthy _) with true.
    cbv iota. unfold replace_fence_open.
    change (JsString.strip_prefix "```json" ("```" +:+ rest))
      with (JsString.strip_prefix "json" rest).
    rewrite Hrest.
    destruct (replace_fence_close_prefix ("```" +:+ rest)) as [suf Hsuf].
    assert (Hc : fence_or_empty (replace_fence_close ("```" +:+ rest)) = true).
    { apply (fence_or_empty_prefix _ suf). by rewrite <- Hsuf. }
    unfold JsString.trim. rewrite (trimStart_fence _ Hc).
    destruct (trimEnd_prefix (replace_fence_close ("```" +:+ rest)))
      as [suf' Hsuf'].
    apply (fence_or_empty_prefix _ suf'). by rewrite <- Hsuf'. }
  pose proof (JSON_parse_fence cleaned H) as Hparse.
  split; [exact H |]. split; [exact Hparse |].
  unfold generateQuiz, try_catch, generateContent, handleOfflineError, settle,
    perform, answering, or_else.
  cbn [mbind Async_bind text app].
  change (JsString.truthy ("```" +:+ rest)) with true. cbv iota.
  fold cleaned. rewrite Hparse. reflexivity.
Qed.

Lemma cleanJson_keeps_unlabelled_fence_witness :
  JSON_parse (cleanJson ("```" +:+ LF +:+ "[]" +:+ LF +:+ "```"))
  = Throw SyntaxError_.
Proof.
  apply (cleanJson_keeps_unlabelled_fence (LF +:+ "[]" +:+ LF +:+ "```")
           "Engineer" demo_client Easy None).
  reflexivity.
Defined.

(** ** The live session: transcripts *)

Import LiveInterview LiveSpec.

(** A turn-complete message appends the flushed lines and empties both
    buffers, whatever they held. *)
Lemma turn_complete_flushes (h : Hook) (now : Q) :
  let h' := onmessage turn_complete now h in
  logs h' = logs h ++ flushed h
  /\ currentInputTranscription h' = EmptyString
  /\ currentOutputTranscription h' = EmptyString.
Proof.
  destruct h as [c sp e l a i p n vi di cin cout v ck nt ts st se ss].
  unfold onmessage, on_audio, on_turnComplete, on_transcription, flushed; simpl.
  destruct cin, cout; simpl; rewrite ?app_nil_r, <- ?app_assoc; done.
Qed.

(** A transcript delta is appended to its buffer and nothing else changes. *)
Lemma input_delta_appends (t : string) (now : Q) (h : Hook) :
  onmessage (input_delta t) now h
  = set_currentInputTranscription (currentInputTranscription h +:+ t) h.
Proof. destruct h. reflexivity. Qed.

Lemma output_delta_appends (t : string) (now : Q) (h : Hook) :
  onmessage (output_delta t) now h
  = set_currentOutputTranscription (currentOutputTranscription h +:+ t) h.
Proof. destruct h. reflexivity. Qed.

(** C2. From empty buffers, the input delta "Hello", the output delta
    "Hi there" and a turn-complete message append exactly the two lines
    "You: Hello" and "AI: Hi there", in this order, and leave both buffers
    empty; and a turn-complete message appends no line for a buffer that is
    empty. *)
Theorem transcript_flush (h : Hook) (t1 t2 t3 : Q) :
  currentInputTranscription h = EmptyString ->
  currentOutputTranscription h = EmptyString ->
  let h1 := onmessage (input_delta "Hello") t1 h in
  let h2 := onmessage (output_delta "Hi there") t2 h1 in
  let h3 := onmessage turn_complete t3 h2 in
  (logs h1 = logs h /\ logs h2 = logs h
   /\ currentInputTranscription h2 = "Hello"
   /\ currentOutputTranscription h2 = "Hi there")
  /\ logs h3 = logs h ++ ["You: Hello"; "AI: Hi there"]
  /\ currentInputTranscription h3 = EmptyString
  /\ currentOutputTranscription h3 = EmptyString
  /\ logs (onmessage turn_complete t1 h) = logs h
  /\ logs (onmessage turn_complete t2 h1) = logs h ++ ["You: Hello"]
  /\ logs (onmessage turn_complete t2 (onmessage (output_delta "Hi there") t1 h))
     = logs h ++ ["AI: Hi there"].
Proof.
  intros Hin Hout h1 h2 h3.
  destruct (turn_complete_flushes h2 t3) as (L3 & I3 & O3).
  destruct (turn_complete_flushes h t1) as (L0 & _).
  destruct (turn_complete_flushes h1 t2) as (L1 & _).
  destruct (turn_complete_flushes (onmessage (output_delta "Hi there") t1 h) t2)
    as (L2 & _).
  fold h3 in L3, I3, O3. rewrite L3, L0, L1, L2. clear L3 L0 L1 L2.
  subst h3 h2 h1. rewrite !output_delta_appends, !input_delta_appends.
  destruct h as [c sp e l a i p n vi di cin cout v ck nt ts st se ss].
  simpl in Hin, Hout. subst cin cout. unfold flushed.
  repeat split; try reflexivity; try assumption.
  apply app_nil_r.
Qed.

Lemma transcript_flush_witness :
  logs (onmessage turn_complete 2
          (onmessage (output_delta "Hi there") 1
             (onmessage (input_delta "Hello") 0 (initial None))))
  = ["You: Hello"; "AI: Hi there"].
Proof.
  apply (transcript_flush (initial None) 0 1 2); reflexivity.
Defined.

(** ** The live session: teardown *)

Lemma forEach_stop_returns (ts : list TrackState) :
  forEach_stop ts = Return (const Ended <$> ts).
Proof. induction ts as [| t r IH]; [done |]. simpl. by rewrite IH. Qed.

Lemma clear_ref_cancelled (r : option Z) (h : Hook) :
  clear_ref r h = set_timers (cancelled r (timers h)) h.
Proof.
  unfold clear_ref, cancelled, clearInterval.
  destruct (truthy_handle r); [done |]. by destruct h.
Qed.

(** [disconnect] never throws, and what it leaves is [torn_down]. *)
Lemma disconnect_returns (h : Hook) : disconnect h = Return (torn_down h).
Proof.
  destruct h as [c sp e l a i p n vi di cin cout v ck nt ts st se ss].
  destruct i as [[? ?] |], p as [[? ?] |], a as [[[| |] ?] |],
    v as [[[tr |]] |];
    cbv -[clear_ref cancelled forEach_stop];
    rewrite !clear_ref_cancelled;
    cbv -[cancelled forEach_stop];
    rewrite ?forEach_stop_returns;
    cbv -[cancelled]; reflexivity.
Qed.

Lemma cancelled_idempotent (r : option Z) (ts : list Timer) :
  cancelled r (cancelled r ts) = cancelled r ts.
Proof.
  unfold cancelled. destruct (truthy_handle r) as [n |]; [| done].
  induction ts as [| t ts IH]; [done |]. simpl.
  destruct (negb (id t =? n)%Z) eqn:E; simpl; [by rewrite E, IH | done].
Qed.

Lemma cancelled_comm (r r' : option Z) (ts : list Timer) :
  cancelled r (cancelled r' ts) = cancelled r' (cancelled r ts).
Proof.
  unfold cancelled.
  destruct (truthy_handle r) as [n |], (truthy_handle r') as [n' |]; try done.
  induction ts as [| t ts IH]; [done |]. simpl.
  destruct (negb (id t =? n)%Z) eqn:E, (negb (id t =? n')%Z) eqn:E'; simpl;
    rewrite ?E, ?E'; by rewrite ?IH.
Qed.

Lemma torn_down_idempotent (h : Hook) : torn_down (torn_down h) = torn_down h.
Proof.
  destruct h as [c sp e l a i p n vi di cin cout v ck nt ts st se ss].
  unfold torn_down; simpl. f_equal.
  - by destruct a.
  - by destruct i.
  - by destruct p.
  - by destruct v.
  - by rewrite (cancelled_comm vi di (cancelled vi ts)), !cancelled_idempotent.
Qed.

(** C6. Calling [disconnect] twice never raises, whatever the state of the
    hook (never connected, partly set up, already torn down); the second call
    changes nothing; and afterwards the session is not connected, not
    speaking, and the playback cursor is back at 0. *)
Theorem disconnect_twice (h : Hook) :
  exists h1 h2,
    disconnect h = Return h1
    /\ disconnect h1 = Return h2
    /\ h2 = h1
    /\ (isConnected h1 = false /\ isSpeaking h1 = false
        /\ nextStartTimeRef h1 = 0%Q)
    /\ (isConnected h2 = false /\ isSpeaking h2 = false
        /\ nextStartTimeRef h2 = nextStartTimeRef (initial None)).
Proof.
  exists (torn_down h), (torn_down h).
  rewrite !disconnect_returns, torn_down_idempotent. by repeat split.
Qed.

(** ** Rounding to a double *)

Module DoubleFacts.
Import Double.
#[local] Open Scope Q_scope.

Lemma pow2_pos (k : Z) : 0 < pow2 k.
Proof. apply Qpower_0_lt. reflexivity. Qed.

Lemma pow2_add (a b : Z) : pow2 (a + b) == pow2 a * pow2 b.
Proof. apply Qpower_plus. discriminate. Qed.

Lemma pow2_le (a b : Z) : (a <= b)%Z -> pow2 a <= pow2 b.
Proof. intros H. apply Qpower_le_compat_l; [exact H | discriminate]. Qed.

Lemma pow2_Z (n : Z) : (0 <= n)%Z -> pow2 n == inject_Z (2 ^ n).
Proof. intros H. unfold pow2. by rewrite (Zpower_Qpower 2 n H). Qed.

Lemma nearest_floor (x : Q) :
  (Qfloor x <= nearest x <= Qfloor x + 1)%Z.
Proof.
  unfold nearest. destruct (Qcompare _ _); [destruct (Z.even _) | |]; lia.
Qed.

Lemma nearest_ge (x : Q) (j : Z) : inject_Z j <= x -> (j <= nearest x)%Z.
Proof.
  intros H. apply Qfloor_resp_le in H. rewrite Qfloor_Z in H.
  pose proof (nearest_floor x). lia.
Qed.

Lemma nearest_le (x : Q) (j : Z) : x <= inject_Z j -> (nearest x <= j)%Z.
Proof.
  intros H. pose proof (nearest_floor x) as Hn.
  pose proof (Qfloor_resp_le _ _ H) as Hf. rewrite Qfloor_Z in Hf.
  destruct (Z.eq_dec (Qfloor x) j) as [E | E]; [| lia].
  assert (Hx : x == inject_Z j).
  { apply Qle_antisym; [exact H |]. rewrite <- E. apply Qfloor_le. }
  unfold nearest. rewrite E.
  assert (Hc : Qcompare (2 * (x - inject_Z j)) 1 = Lt).
  { apply Qlt_alt.
    assert (E0 : 2 * (x - inject_Z j) == 0) by (rewrite Hx; ring).
    by rewrite E0. }
  rewrite Hc. lia.
Qed.

Lemma ilog2_spec (x : Q) :
  0 < x -> pow2 (ilog2 x) <= x /\ x < pow2 (ilog2 x + 1).
Proof.
  destruct x as [p q]. intros Hx.
  assert (Hp : (0 < p)%Z) by (unfold Qlt in Hx; simpl in Hx; lia).
  unfold ilog2. cbn [Qnum Qden].
  set (a := Z.log2 p). set (b := Z.log2 (Z.pos q)).
  assert (Ha : (0 <= a)%Z) by apply Z.log2_nonneg.
  assert (Hb : (0 <= b)%Z) by apply Z.log2_nonneg.
  destruct (Z.log2_spec p Hp) as [Ha1 Ha2]. fold a in Ha1, Ha2.
  destruct (Z.log2_spec (Z.pos q) eq_refl) as [Hb1 Hb2]. fold b in Hb1, Hb2.
  rewrite Z.pow_succ_r in Ha2, Hb2 by assumption.
  assert (HA : (0 < 2 ^ a)%Z) by (apply Z.pow_pos_nonneg; lia).
  assert (HB : (0 < 2 ^ b)%Z) by (apply Z.pow_pos_nonneg; lia).
  assert (Hk : pow2 (a - b) == inject_Z (2 ^ a) / inject_Z (2 ^ b)).
  { unfold pow2. rewrite Qpower_minus by discriminate.
    by rewrite <- !(pow2_Z) by assumption. }
  assert (HiB : 0 < inject_Z (2 ^ b)) by (by rewrite <- (Zlt_Qlt 0)).
  assert (Hlo : pow2 (a - b - 1) <= p # q).
  { replace (a - b - 1)%Z with ((a - b) + (-1))%Z by lia.
    rewrite pow2_add, Hk. change (pow2 (-1)) with (1 # 2).
    assert (E0 : inject_Z (2 ^ a) / inject_Z (2 ^ b) * (1 # 2)
                 == (inject_Z (2 ^ a) * (1 # 2)) / inject_Z (2 ^ b))
      by (unfold Qdiv; ring).
    rewrite E0.
    apply Qle_shift_div_r; [exact HiB |].
    unfold Qle; simpl. nia. }
  assert (Hhi : p # q < pow2 (a - b + 1)).
  { rewrite pow2_add, Hk. change (pow2 1) with 2.
    assert (E0 : inject_Z (2 ^ a) / inject_Z (2 ^ b) * 2
                 == (inject_Z (2 ^ a) * 2) / inject_Z (2 ^ b))
      by (unfold Qdiv; ring).
    rewrite E0.
    apply Qlt_shift_div_l; [exact HiB |].
    unfold Qlt; simpl. nia. }
  destruct (Qle_bool (pow2 (a - b)) (p # q)) eqn:E.
  - apply Qle_bool_iff in E. split; assumption.
  - split; [exact Hlo |].
    replace (a - b - 1 + 1)%Z with (a - b)%Z by lia.
    apply Qnot_le_lt. intros H. apply Qle_bool_iff in H. congruence.
Qed.


Lemma Qabs_pos_lt (x : Q) : ~ x == 0 -> 0 < Qabs x.
Proof.
  intros Hx. destruct (Qlt_le_dec 0 x) as [H | H].
  - by rewrite Qabs_pos by (by apply Qlt_le_weak).
  - rewrite Qabs_neg by done.
    destruct (Qle_lt_or_eq _ _ H) as [H' | H']; [lra | done].
Qed.

Lemma exponent_spec (x : Q) :
  ~ x == 0 ->
  (-1074 <= exponent x)%Z
  /\ Qabs x < pow2 (exponent x + 53)
  /\ ((-1074 < exponent x)%Z -> pow2 (exponent x + 52) <= Qabs x).
Proof.
  intros Hx. destruct (ilog2_spec (Qabs x) (Qabs_pos_lt x Hx)) as [Hlo Hhi].
  unfold exponent. set (k := ilog2 (Qabs x)) in *.
  split; [lia |]. split.
  - eapply Qlt_le_trans; [exact Hhi |]. apply pow2_le. lia.
  - intros He. replace (Z.max (k - 52) (-1074) + 52)%Z with k by lia.
    exact Hlo.
Qed.

Lemma round_zero (x : Q) : x == 0 -> round x = 0.
Proof. intros H. unfold round. by rewrite (Qeq_eq_bool _ _ H). Qed.

Lemma round_nonzero (x : Q) :
  ~ x == 0 ->
  round x == inject_Z (nearest (x / pow2 (exponent x))) * pow2 (exponent x).
Proof.
  intros H. unfold round. destruct (Qeq_bool x 0) eqn:E.
  - by apply Qeq_bool_eq in E.
  - apply Qred_correct.
Qed.

Lemma grid_above (x : Q) (j : Z) :
  ~ x == 0 ->
  inject_Z j * pow2 (exponent x) <= x ->
  inject_Z j * pow2 (exponent x) <= round x.
Proof.
  intros Hx H. rewrite (round_nonzero x Hx).
  apply Qmult_le_compat_r; [| apply Qlt_le_weak, pow2_pos].
  rewrite <- Zle_Qle. apply nearest_ge.
  apply Qle_shift_div_l; [apply pow2_pos | exact H].
Qed.

Lemma grid_below (x : Q) (j : Z) :
  ~ x == 0 ->
  x <= inject_Z j * pow2 (exponent x) ->
  round x <= inject_Z j * pow2 (exponent x).
Proof.
  intros Hx H. rewrite (round_nonzero x Hx).
  apply Qmult_le_compat_r; [| apply Qlt_le_weak, pow2_pos].
  rewrite <- Zle_Qle. apply nearest_le.
  apply Qle_shift_div_r; [apply pow2_pos | exact H].
Qed.

Lemma grid_of (m es e : Z) :
  (e <= es)%Z ->
  inject_Z m * pow2 es == inject_Z (m * 2 ^ (es - e)) * pow2 e.
Proof.
  intros H. replace es with ((es - e) + e)%Z at 1 by lia.
  rewrite pow2_add, pow2_Z by lia. rewrite inject_Z_mult. ring.
Qed.

Lemma Qabs_inject_Z (m : Z) : Qabs (inject_Z m) == inject_Z (Z.abs m).
Proof. unfold inject_Z. by rewrite Zabs_Qabs. Qed.

Lemma representable_bound (s : Q) (m es e : Z) :
  (Z.abs m <= 2 ^ 53)%Z -> (es < e)%Z ->
  s == inject_Z m * pow2 es ->
  - pow2 (e + 52) <= s /\ s <= pow2 (e + 52).
Proof.
  intros Hm He Hs. apply Qabs_Qle_condition.
  rewrite Hs, Qabs_Qmult, Qabs_inject_Z.
  rewrite (Qabs_pos (pow2 es)) by apply Qlt_le_weak, pow2_pos.
  apply Qle_trans with (inject_Z (2 ^ 53) * pow2 es).
  - apply Qmult_le_compat_r; [| apply Qlt_le_weak, pow2_pos].
    by rewrite <- Zle_Qle.
  - rewrite <- (pow2_Z 53) by lia. rewrite <- pow2_add. apply pow2_le. lia.
Qed.

Lemma grid_52 (e : Z) : inject_Z (2 ^ 52) * pow2 e == pow2 (e + 52).
Proof. rewrite <- (pow2_Z 52) by lia. by rewrite <- pow2_add, Z.add_comm. Qed.

Lemma grid_52_opp (e : Z) : inject_Z (- 2 ^ 52) * pow2 e == - pow2 (e + 52).
Proof. rewrite <- grid_52, inject_Z_opp. ring. Qed.

(** The rounded value is a double. *)
Lemma round_representable (x : Q) : representable (round x).
Proof.
  destruct (Qeq_dec x 0) as [Hx | Hx].
  { rewrite (round_zero x Hx). exists 0%Z, 0%Z. repeat split; done. }
  destruct (exponent_spec x Hx) as (He & Hup & _).
  exists (nearest (x / pow2 (exponent x))), (exponent x).
  split; [exact He |]. split; [| apply round_nonzero, Hx].
  assert (H53 : pow2 (exponent x + 53) == inject_Z (2 ^ 53) * pow2 (exponent x)).
  { rewrite <- (pow2_Z 53) by lia. by rewrite <- pow2_add, Z.add_comm. }
  rewrite H53 in Hup. apply Qlt_le_weak, Qabs_Qle_condition in Hup.
  destruct Hup as [H1 H2].
  apply Z.abs_le. split.
  - apply nearest_ge. apply Qle_shift_div_l; [apply pow2_pos |].
    rewrite inject_Z_opp. lra.
  - apply nearest_le. apply Qle_shift_div_r; [apply pow2_pos | exact H2].
Qed.

(** Rounding never crosses a double: one below the value stays below the
    rounded value. *)
Lemma round_above (s z : Q) : representable s -> s <= z -> s <= round z.
Proof.
  intros (m & es & Hes & Hm & Hs) Hsz.
  destruct (Qeq_dec z 0) as [Hz | Hz].
  { rewrite (round_zero z Hz). by rewrite <- Hz. }
  destruct (exponent_spec z Hz) as (He & _ & Hlo).
  destruct (Z_le_gt_dec (exponent z) es) as [Hle | Hgt].
  - rewrite Hs, (grid_of m es _ Hle). apply grid_above; [exact Hz |].
    by rewrite <- grid_of, <- Hs.
  - assert (Hk : pow2 (exponent z + 52) <= Qabs z) by (apply Hlo; lia).
    destruct (representable_bound s m es (exponent z) Hm) as [Hb1 Hb2];
      [lia | exact Hs |].
    destruct (Qlt_le_dec 0 z) as [Hpos | Hneg].
    + rewrite Qabs_pos in Hk by (by apply Qlt_le_weak).
      apply Qle_trans with (pow2 (exponent z + 52)); [exact Hb2 |].
      rewrite <- grid_52. apply grid_above; [exact Hz |]. by rewrite grid_52.
    + rewrite Qabs_neg in Hk by done.
      apply Qle_trans with (- pow2 (exponent z + 52)); [lra |].
      rewrite <- grid_52_opp. apply grid_above; [exact Hz |].
      rewrite grid_52_opp. lra.
Qed.

(** And one above the value stays above the rounded value. *)
Lemma round_below (s z : Q) : representable s -> z <= s -> round z <= s.
Proof.
  intros (m & es & Hes & Hm & Hs) Hsz.
  destruct (Qeq_dec z 0) as [Hz | Hz].
  { rewrite (round_zero z Hz). by rewrite <- Hz. }
  destruct (exponent_spec z Hz) as (He & _ & Hlo).
  destruct (Z_le_gt_dec (exponent z) es) as [Hle | Hgt].
  - rewrite Hs, (grid_of m es _ Hle). apply grid_below; [exact Hz |].
    by rewrite <- grid_of, <- Hs.
  - assert (Hk : pow2 (exponent z + 52) <= Qabs z) by (apply Hlo; lia).
    destruct (representable_bound s m es (exponent z) Hm) as [Hb1 Hb2];
      [lia | exact Hs |].
    destruct (Qlt_le_dec 0 z) as [Hpos | Hneg].
    + rewrite Qabs_pos in Hk by (by apply Qlt_le_weak).
      apply Qle_trans with (pow2 (exponent z + 52)); [| lra].
      rewrite <- grid_52. apply grid_below; [exact Hz |].
      rewrite grid_52. lra.
    + rewrite Qabs_neg in Hk by done.
      apply Qle_trans with (- pow2 (exponent z + 52)); [| exact Hb1].
      rewrite <- grid_52_opp. apply grid_below; [exact Hz |].
      rewrite grid_52_opp. lra.
Qed.

(** A double rounds to itself. *)
Lemma round_exact (x : Q) : representable x -> round x == x.
Proof.
  intros H. apply Qle_antisym.
  - apply round_below; [exact H | apply Qle_refl].
  - apply round_above; [exact H | apply Qle_refl].
Qed.

Lemma is_double_representable (x : Q) :
  is_double x = true <-> representable x.
Proof.
  unfold is_double. split.
  - intros H%Qeq_bool_eq.
    destruct (round_representable x) as (m & e & He & Hm & Hr).
    exists m, e. repeat split; try done. by rewrite <- H.
  - intros H. apply Qeq_eq_bool, round_exact, H.
Qed.

Lemma round_is_double (x : Q) : is_double (round x) = true.
Proof. apply is_double_representable, round_representable. Qed.

(** Adding a non-negative double never moves a double backwards. *)
Lemma add_ge (s d : Q) : is_double s = true -> 0 <= d -> s <= add s d.
Proof.
  intros Hs Hd. apply round_above; [by apply is_double_representable | lra].
Qed.

Lemma nearest_half (s : Q) :
  - (1 # 2) <= s - inject_Z (nearest s) /\ s - inject_Z (nearest s) <= 1 # 2.
Proof.
  pose proof (Qfloor_le s) as H1. pose proof (Qlt_floor s) as H2.
  rewrite inject_Z_plus in H2. change (inject_Z 1) with 1 in H2.
  unfold nearest.
  destruct (Qcompare_spec (2 * (s - inject_Z (Qfloor s))) 1) as [E | E | E].
  - destruct (Z.even (Qfloor s)); rewrite ?inject_Z_plus;
      change (inject_Z 1) with 1; lra.
  - lra.
  - rewrite inject_Z_plus. change (inject_Z 1) with 1. lra.
Qed.

Lemma nearest_integer (s : Q) (j : Z) :
  Qabs (s - inject_Z (nearest s)) <= Qabs (s - inject_Z j).
Proof.
  destruct (nearest_half s) as [H1 H2].
  apply Qabs_Qle_condition.
  destruct (Z.eq_dec j (nearest s)) as [-> | Hne].
  - split; [| apply Qle_Qabs].
    rewrite <- (Qopp_involutive (s - _)) at 2. apply Qopp_le_compat.
    rewrite <- Qabs_opp. apply Qle_Qabs.
  - assert (Hj : inject_Z j <= inject_Z (nearest s) - 1
                 \/ inject_Z (nearest s) + 1 <= inject_Z j).
    { destruct (Z_lt_le_dec j (nearest s)).
      - left. assert (H : (j <= nearest s - 1)%Z) by lia.
        rewrite Zle_Qle in H. unfold Z.sub in H.
        rewrite inject_Z_plus in H. exact H.
      - right. assert (H : (nearest s + 1 <= j)%Z) by lia.
        rewrite Zle_Qle, inject_Z_plus in H. exact H. }
    pose proof (Qle_Qabs (s - inject_Z j)) as Ha.
    pose proof (Qle_Qabs (- (s - inject_Z j))) as Hb.
    rewrite Qabs_opp in Hb.
    destruct Hj; split; lra.
Qed.

Lemma scaled (x : Q) (e : Z) (j : Z) :
  x - inject_Z j * pow2 e == (x / pow2 e - inject_Z j) * pow2 e.
Proof.
  pose proof (pow2_pos e) as HP.
  assert (E : x == x / pow2 e * pow2 e).
  { rewrite Qmult_comm, Qmult_div_r; [reflexivity |]. intros H. rewrite H in HP.
    by apply Qlt_irrefl in HP. }
  rewrite E at 1. ring.
Qed.

Lemma grid_nearest (x : Q) (j : Z) :
  ~ x == 0 ->
  Qabs (x - round x) <= Qabs (x - inject_Z j * pow2 (exponent x)).
Proof.
  intros Hx. rewrite (round_nonzero x Hx), !scaled, !Qabs_Qmult.
  apply Qmult_le_compat_r; [apply nearest_integer | apply Qabs_nonneg].
Qed.

(** Rounding moves a value by at most half a unit in the last place. *)
Lemma round_error (x : Q) :
  Qabs (x - round x) <= pow2 (exponent x) * (1 # 2).
Proof.
  pose proof (pow2_pos (exponent x)) as HP.
  destruct (Qeq_dec x 0) as [Hx | Hx].
  { rewrite (round_zero x Hx).
    assert (E : Qabs (x - 0) == 0) by (by rewrite Hx).
    rewrite E. lra. }
  rewrite (round_nonzero x Hx), scaled, Qabs_Qmult, (Qabs_pos (pow2 _)) by lra.
  rewrite (Qmult_comm (pow2 _)).
  apply Qmult_le_compat_r; [| lra].
  apply Qabs_Qle_condition. destruct (nearest_half (x / pow2 (exponent x))).
  split; lra.
Qed.

(** The rounded value is a double nearest to the value. *)
Theorem round_nearest (x d : Q) :
  representable d -> Qabs (x - round x) <= Qabs (x - d).
Proof.
  intros (m & es & Hes & Hm & Hd).
  destruct (Qeq_dec x 0) as [Hx | Hx].
  { rewrite (round_zero x Hx), Hx. apply Qabs_nonneg. }
  destruct (exponent_spec x Hx) as (He & _ & Hlo).
  destruct (Z_le_gt_dec (exponent x) es) as [Hle | Hgt].
  - rewrite Hd, (grid_of m es _ Hle). by apply grid_nearest.
  - assert (Hk : pow2 (exponent x + 52) <= Qabs x) by (apply Hlo; lia).
    destruct (representable_bound d m es (exponent x) Hm) as [Hb1 Hb2];
      [lia | exact Hd |].
    destruct (Qlt_le_dec 0 x) as [Hpos | Hneg].
    + rewrite Qabs_pos in Hk by (by apply Qlt_le_weak).
      eapply Qle_trans; [apply (grid_nearest x (2 ^ 52) Hx) |].
      rewrite grid_52, !Qabs_pos by lra. lra.
    + rewrite Qabs_neg in Hk by done.
      eapply Qle_trans; [apply (grid_nearest x (- 2 ^ 52) Hx) |].
      rewrite grid_52_opp, !Qabs_neg by lra. lra.
Qed.

Lemma ilog2_unique (x : Q) (k : Z) :
  0 < x -> pow2 k <= x -> x < pow2 (k + 1) -> ilog2 x = k.
Proof.
  intros Hx H1 H2. destruct (ilog2_spec x Hx) as [H3 H4].
  assert (Ha : (ilog2 x < k + 1)%Z).
  { apply (Qpower_lt_compat_l_inv 2); [| reflexivity].
    eapply Qle_lt_trans; [exact H3 | exact H2]. }
  assert (Hb : (k < ilog2 x + 1)%Z).
  { apply (Qpower_lt_compat_l_inv 2); [| reflexivity].
    eapply Qle_lt_trans; [exact H1 | exact H4]. }
  lia.
Qed.

Lemma ilog2_comp (x y : Q) : 0 < x -> x == y -> ilog2 x = ilog2 y.
Proof.
  intros Hx E. assert (Hy : 0 < y) by (by rewrite <- E).
  destruct (ilog2_spec y Hy) as [H1 H2].
  apply ilog2_unique; [exact Hx | by rewrite E | by rewrite E].
Qed.

Lemma nearest_comp (s t : Q) : s == t -> nearest s = nearest t.
Proof.
  intros E. unfold nearest. rewrite (Qfloor_comp _ _ E).
  assert (Ec : Qcompare (2 * (s - inject_Z (Qfloor t))) 1
               = Qcompare (2 * (t - inject_Z (Qfloor t))) 1)
    by (by rewrite E).
  by rewrite Ec.
Qed.

(** Equal rationals round to the same fraction. *)
Lemma round_comp (x y : Q) : x == y -> round x = round y.
Proof.
  intros E. unfold round. rewrite (Qeqb_comp _ _ E 0 0 (Qeq_refl 0)).
  destruct (Qeq_bool y 0) eqn:Hy; [reflexivity |].
  apply Qeq_bool_neq in Hy.
  assert (Hx : ~ x == 0) by (by rewrite E).
  assert (Ee : exponent x = exponent y).
  { unfold exponent. f_equal. f_equal.
    apply ilog2_comp; [by apply Qabs_pos_lt | by rewrite E]. }
  rewrite Ee. apply Qred_complete.
  rewrite (nearest_comp (x / pow2 (exponent y)) (y / pow2 (exponent y)))
    by (by rewrite E).
  reflexivity.
Qed.

Lemma closer_above (x a b : Q) :
  b < a -> Qabs (x - a) <= Qabs (x - b) -> a + b <= 2 * x.
Proof.
  intros Hab H. apply Qnot_lt_le. intros Hlt.
  pose proof (Qle_Qabs (- (x - a))) as Ha. rewrite Qabs_opp in Ha.
  destruct (Qlt_le_dec x b) as [Hb | Hb].
  - rewrite (Qabs_neg (x - b)) in H by lra. lra.
  - rewrite (Qabs_pos (x - b)) in H by lra. lra.
Qed.

Lemma closer_below (y a b : Q) :
  b < a -> Qabs (y - b) <= Qabs (y - a) -> 2 * y <= a + b.
Proof.
  intros Hab H. apply Qnot_lt_le. intros Hlt.
  pose proof (Qle_Qabs (y - b)) as Hb.
  destruct (Qlt_le_dec y a) as [Ha | Ha].
  - rewrite (Qabs_neg (y - a)) in H by lra. lra.
  - rewrite (Qabs_pos (y - a)) in H by lra. lra.
Qed.

(** Rounding is monotone. *)
Theorem round_le (x y : Q) : x <= y -> round x <= round y.
Proof.
  intros Hxy. apply Qnot_lt_le. intros Hlt.
  pose proof (closer_above x _ _ Hlt
                (round_nearest x (round y) (round_representable y))) as H1.
  pose proof (closer_below y _ _ Hlt
                (round_nearest y (round x) (round_representable x))) as H2.
  assert (E : x == y) by lra.
  rewrite (round_comp x y E) in Hlt. by apply Qlt_irrefl in Hlt.
Qed.

(** Some values: one tenth and one third, halfway cases going to the even
    neighbour, and the smallest doubles. *)
Example round_values :
  round (1 # 10) = 3602879701896397 # 36028797018963968
  /\ round (1 # 3) = 6004799503160661 # 18014398509481984
  /\ round (- (1 # 3)) = -6004799503160661 # 18014398509481984
  /\ round (9007199254740993 # 1) = 9007199254740992 # 1
  /\ round (9007199254740995 # 1) = 9007199254740996 # 1
  /\ round (pow2 (-1075)) = 0
  /\ round (3 * pow2 (-1075)) == 2 * pow2 (-1074)
  /\ round (pow2 (-1074)) == pow2 (-1074).
Proof. by vm_compute. Qed.

End DoubleFacts.

(** ** The live session: playback schedule *)

(** A clip decoded at 24 kHz has at least one frame, so its duration, as a
    double, is at least 2^-15 s. *)
Lemma decodeAudioData_frames (bytes : list N) (n : nat) (b : AudioBuffer) :
  decodeAudioData bytes 24000 n = Return b ->
  (0 < duration b)%Q /\ representable (duration b).
Proof.
  unfold decodeAudioData. destruct (int16s bytes) as [xs | e]; simpl; [| done].
  destruct (length xs / n)%nat as [| k] eqn:E; simpl; [done |].
  intros [= <-]. unfold duration, Double.div. cbn [frameCount sampleRate].
  split; [| apply DoubleFacts.round_representable].
  apply Qlt_le_trans with (Double.pow2 (-15)); [apply DoubleFacts.pow2_pos |].
  apply DoubleFacts.round_above.
  - exists 1%Z, (-15)%Z. split; [done |]. split; [done |].
    by rewrite Qmult_1_l.
  - apply Qle_shift_div_l; [reflexivity |].
    change (Double.pow2 (-15)) with (1 # 32768)%Q.
    unfold Qle; simpl. lia.
Qed.

Lemma clip_of_positive (msg : LiveServerMessage) (b : AudioBuffer) :
  clip_of msg = Some b -> (0 < duration b)%Q /\ representable (duration b).
Proof.
  unfold clip_of. destruct (audioData_of msg) as [a |]; simpl; [| done].
  destruct (JsString.truthy a); [| done].
  destruct (decode a) as [bytes | e]; simpl; [| done].
  destruct (decodeAudioData bytes 24000 1) as [b' | e] eqn:E; [| done].
  intros [= <-]. by eapply decodeAudioData_frames.
Qed.

Lemma clips_positive (events : list (LiveServerMessage * Q)) :
  Forall (fun c => (0 < c.2)%Q /\ representable c.2) (clips events).
Proof.
  unfold clips. induction events as [| [msg now] r IH]; simpl; [constructor |].
  destruct (clip_of msg) as [b |] eqn:E; simpl; [| exact IH].
  constructor; [| exact IH]. by eapply clip_of_positive.
Qed.

(** The clock readings of the clips are those of their messages. *)
Lemma clips_clock (events : list (LiveServerMessage * Q)) :
  Forall (fun ev => Double.is_double ev.2 = true) events ->
  Forall (fun c => representable c.1) (clips events).
Proof.
  unfold clips. induction 1 as [| [msg now] r Hnow _ IH]; simpl; [constructor |].
  destruct (clip_of msg) as [b |]; simpl; [| exact IH].
  constructor; [| exact IH]. by apply DoubleFacts.is_double_representable.
Qed.

(** One message: the transcript part and the turn-complete part leave the
    playback state alone, and the audio part schedules the clip, if any. *)
Lemma onmessage_schedules (msg : LiveServerMessage) (now : Q) (h : Hook) :
  is_Some (audioContextRef h) ->
  let h' := onmessage msg now h in
  audioContextRef h' = audioContextRef h
  /\ match clip_of msg with
     | Some b =>
         started h' = started h ++ [(Qmax now (nextStartTimeRef h), duration b)]
         /\ nextStartTimeRef h'
            = Double.add (Qmax now (nextStartTimeRef h)) (duration b)
     | None =>
         started h' = started h /\ nextStartTimeRef h' = nextStartTimeRef h
     end.
Proof.
  intros [ctx Hctx].
  destruct h as [c sp e l a i p n vi di cin cout v ck nt ts st se ss].
  simpl in Hctx. subst a.
  unfold onmessage, on_audio, clip_of.
  destruct (audioData_of msg) as [a |]; simpl.
  - destruct (JsString.truthy a); simpl.
    + assert (Hpre : forall g,
                 audioContextRef (on_turnComplete msg (on_transcription msg g))
                 = audioContextRef g
                 /\ started (on_turnComplete msg (on_transcription msg g))
                    = started g
                 /\ nextStartTimeRef (on_turnComplete msg (on_transcription msg g))
                    = nextStartTimeRef g).
      { intros g. unfold on_turnComplete, on_transcription.
        destruct g; simpl.
        repeat match goal with
               | |- context [match ?x with _ => _ end] => destruct x; simpl
               end; done. }
      match goal with
      | |- context [on_turnComplete msg (on_transcription msg ?g)] =>
          destruct (Hpre g) as (H1 & H2 & H3);
          destruct (on_turnComplete msg (on_transcription msg g))
      end.
      simpl in *. subst.
      destruct (decode a ≫= _); simpl; done.
    + unfold on_turnComplete, on_transcription; simpl.
      repeat match goal with
             | |- context [match ?x with _ => _ end] => destruct x; simpl
             end; done.
  - unfold on_turnComplete, on_transcription; simpl.
    repeat match goal with
           | |- context [match ?x with _ => _ end] => destruct x; simpl
           end; done.
Qed.

Lemma handle_schedules (events : list (LiveServerMessage * Q)) (h : Hook) :
  is_Some (audioContextRef h) ->
  started (handle events h)
  = started h ++ schedule (nextStartTimeRef h) (clips events)
  /\ nextStartTimeRef (handle events h)
     = cursor_before (nextStartTimeRef h) (clips events) (length (clips events)).
Proof.
  revert h. induction events as [| [msg now] r IH]; intros h Hctx.
  - simpl. by rewrite app_nil_r.
  - destruct (onmessage_schedules msg now h Hctx) as [Ha Hs].
    assert (Hctx' : is_Some (audioContextRef (onmessage msg now h)))
      by (by rewrite Ha).
    destruct (IH _ Hctx') as [IH1 IH2].
    unfold handle in *. simpl. rewrite IH1, IH2. unfold clips. simpl.
    destruct (clip_of msg) as [b |]; simpl; destruct Hs as [-> ->].
    + by rewrite <- app_assoc.
    + done.
Qed.

Lemma schedule_length (c : Q) (cs : list (Q * Q)) :
  length (schedule c cs) = length cs.
Proof.
  revert c. induction cs as [| [now d] r IH]; intros c; simpl; [done |].
  by rewrite IH.
Qed.

Lemma schedule_lookup (c : Q) (cs : list (Q * Q)) (i : nat) (now d : Q) :
  cs !! i = Some (now, d) ->
  schedule c cs !! i = Some (Qmax now (cursor_before c cs i), d)
  /\ cursor_before c cs (S i) = Double.add (Qmax now (cursor_before c cs i)) d.
Proof.
  revert c i. induction cs as [| [now' d'] r IH]; intros c i H; [done |].
  destruct i as [| j]; simpl in *.
  - injection H as -> ->. split; [done |]. by destruct r.
  - destruct (IH (Double.add (Qmax now' c) d') j H) as [H1 H2].
    split; [exact H1 |]. exact H2.
Qed.

Lemma representable_max (a b : Q) :
  representable a -> representable b -> representable (Qmax a b).
Proof.
  intros (m & e & He & Hm & Ha) (m' & e' & He' & Hm' & Hb).
  destruct (Q.max_dec a b) as [E | E].
  - exists m, e. by rewrite E.
  - exists m', e'. by rewrite E.
Qed.

(** The cursor is a double all along. *)
Lemma cursor_representable (c : Q) (cs : list (Q * Q)) (i : nat) :
  representable c -> representable (cursor_before c cs i).
Proof.
  revert c cs. induction i as [| j IH]; intros c cs Hc.
  - by destruct cs.
  - destruct cs as [| [now d] r]; simpl; [done |].
    apply IH, DoubleFacts.round_representable.
Qed.

(** The sum the program computes can lie below the exact sum: with the
    clock at the double nearest to 10.7 s, a clip of 480 frames (the double
    nearest to 0.02 s) moves the cursor to 10.719999999999999, less than the
    exact sum of the two doubles. *)
Example rounded_sum_below_exact :
  let s := Double.round (107 # 10) in
  let d := Double.div 480 24000 in
  s = (3011782250804019 # 281474976710656)%Q
  /\ d = (5764607523034235 # 288230376151711744)%Q
  /\ Double.add s d = (377176468792279 # 35184372088832)%Q
  /\ (Double.add s d < s + d)%Q
  /\ Double.add s d = Double.round (10719999999999999 # 1000000000000000).
Proof. by vm_compute. Qed.

(** C1. For the clips among any sequence of messages, handled in arrival
    order: each clip starts at the later of the playback clock and the
    cursor, the cursor then moves to that start plus the clip's duration, so
    the start times never decrease and a clip starts no earlier than the
    previous clip's start plus the previous clip's duration.  The sum is the
    one the program computes, the double nearest to the exact sum, which the
    exact sum exceeds by at most half a unit in its last place; the clock
    readings and the cursor at the outset are doubles. *)
Theorem playback_schedule (h : Hook) (events : list (LiveServerMessage * Q)) :
  is_Some (audioContextRef h) ->
  Double.is_double (nextStartTimeRef h) = true ->
  Forall (fun ev => Double.is_double ev.2 = true) events ->
  let cs := clips events in
  let new := schedule (nextStartTimeRef h) cs in
  let cursor := cursor_before (nextStartTimeRef h) cs in
  started (handle events h) = started h ++ new
  /\ nextStartTimeRef (handle events h) = cursor (length cs)
  /\ length new = length cs
  /\ (forall i now d, cs !! i = Some (now, d) ->
        new !! i = Some (Qmax now (cursor i), d)
        /\ cursor (S i) = Double.add (Qmax now (cursor i)) d
        /\ (0 < d)%Q)
  /\ (forall i s d s' d', new !! i = Some (s, d) -> new !! S i = Some (s', d') ->
        (s <= s')%Q /\ (Double.add s d <= s')%Q
        /\ (s + d <= s' + Double.pow2 (Double.exponent (s + d)) * (1 # 2))%Q).
Proof.
  intros Hctx Hcur Hclock cs new cursor.
  destruct (handle_schedules events h Hctx) as [H1 H2].
  pose proof (clips_positive events) as Hpos. rewrite Forall_forall in Hpos.
  pose proof (clips_clock events Hclock) as Hnow. rewrite Forall_forall in Hnow.
  assert (Hclip : forall i now d, cs !! i = Some (now, d) ->
            new !! i = Some (Qmax now (cursor i), d)
            /\ cursor (S i) = Double.add (Qmax now (cursor i)) d
            /\ (0 < d)%Q).
  { intros i now d Hi.
    destruct (schedule_lookup (nextStartTimeRef h) cs i now d Hi) as [Ha Hb].
    split; [exact Ha |]. split; [exact Hb |].
    apply (Hpos (now, d)). by eapply list_elem_of_lookup_2. }
  split; [exact H1 |]. split; [exact H2 |].
  split; [apply schedule_length |]. split; [exact Hclip |].
  intros i s d s' d' Hi Hsi.
  assert (Hlen : length new = length cs) by apply schedule_length.
  destruct (lookup_lt_is_Some_2 cs i) as [[n1 e1] Hc1].
  { rewrite <- Hlen. by eapply lookup_lt_Some. }
  destruct (lookup_lt_is_Some_2 cs (S i)) as [[n2 e2] Hc2].
  { rewrite <- Hlen. by eapply lookup_lt_Some. }
  destruct (Hclip _ _ _ Hc1) as (Ha & Hb & Hd).
  destruct (Hclip _ _ _ Hc2) as (Ha' & _ & _).
  rewrite Ha in Hi. rewrite Ha' in Hsi.
  injection Hi as <- <-. injection Hsi as <- <-.
  rewrite Hb.
  pose proof (Q.le_max_r n2 (Double.add (Qmax n1 (cursor i)) e1)) as Hmax.
  split; [| split; [exact Hmax |]].
  2: { pose proof (DoubleFacts.round_error (Qmax n1 (cursor i) + e1)) as Herr.
       apply Qabs_Qle_condition in Herr as [_ Herr].
       unfold Double.add in *. lra. }
  eapply Qle_trans; [| exact Hmax].
  apply DoubleFacts.round_above.
  - apply representable_max.
    + apply (Hnow (n1, e1)). by eapply list_elem_of_lookup_2.
    + apply cursor_representable.
      by apply DoubleFacts.is_double_representable.
  - rewrite <- (Qplus_0_r (Qmax n1 (cursor i))) at 1.
    apply Qplus_le_r. by apply Qlt_le_weak.
Qed.

Lemma playback_schedule_witness :
  started (handle two_clips ready)
  = started ready
    ++ schedule (nextStartTimeRef ready) (clips two_clips).
Proof.
  apply (playback_schedule ready two_clips).
  - vm_compute. eauto.
  - reflexivity.
  - by repeat constructor.
Defined.

(** The two clips of the example: the second starts where the first ends,
    at the double nearest to 3/24000 s. *)
Example two_clips_back_to_back :
  started (handle two_clips ready)
  = [(0, 1152921504606847 # 9223372036854775808);
     (1152921504606847 # 9223372036854775808,
      1152921504606847 # 9223372036854775808)]%Q.
Proof. vm_compute. reflexivity. Qed.

(** ** The live session: the demo script *)

(** The demo branch of [connect], spelled out. *)
Lemma connect_demo (pg : Page) (role : string) (h : Hook) :
  truthy_opt (retrieve_apiKey (host pg)) = false ->
  AudioContextClass pg = true ->
  connect pg role h
  = let h := set_audioContextRef (Some {| state := Running; rate := 24000 |})
               (setError None h) in
    let h := match userMedia pg, video h with
             | Return s, Some _ => set_video (Some {| srcObject := Some s |}) h
             | _, _ => h
             end in
    let h := addLog demo_greeting (addLog demo_notice (setIsConnected true h)) in
    set_demoIntervalRef (Some (nextTimerId h))
      (setInterval (DemoTick 0 (demoScripts role)) 6000 h).1.
Proof.
  intros Hkey Hctx. unfold connect, connect_try. rewrite Hkey, Hctx. simpl.
  rewrite andb_false_r.
  destruct (userMedia pg) as [s | e], h; simpl; try reflexivity.
  all: by destruct video0.
Qed.

(** The demo from a hook that was not connected before.  Without a
    credential [connect] marks the session connected and appends the demo
    notice and then the one greeting before it returns.  The interval then
    fires every 6 s: four times it appends the next scripted line and sets
    the speaking flag, which a timeout clears 3 s later; the fifth time it
    appends the closing line and cancels itself.  No timer is left, so at
    most 5 lines are ever added after [connect] returned. *)
Theorem demo_script (pg : Page) (role : string) (v : option Video) :
  truthy_opt (retrieve_apiKey (host pg)) = false ->
  AudioContextClass pg = true ->
  let h0 := connect pg role (initial v) in
  (isConnected h0 = true /\ error h0 = None /\ isSpeaking h0 = false)
  /\ logs h0 = [demo_notice; demo_greeting]
  /\ observe <$> run 9 h0
     = [(6000%Z, true, 3, 2); (9000%Z, false, 3, 1);
        (12000%Z, true, 4, 2); (15000%Z, false, 4, 1);
        (18000%Z, true, 5, 2); (21000%Z, false, 5, 1);
        (24000%Z, true, 6, 2); (27000%Z, false, 6, 1);
        (30000%Z, false, 7, 0)]
  /\ logs <$> last (run 9 h0)
     = Some ([demo_notice; demo_greeting] ++ demoScripts role ++ [demo_closing])
  /\ (forall n, length (run n h0) <= 9)
  /\ (forall n, Forall (fun h => length (logs h) <= length (logs h0) + 5)
                  (run n h0)).
Proof.
  intros Hkey Hctx h0. unfold h0. rewrite (connect_demo pg role _ Hkey Hctx).
  destruct (userMedia pg) as [s | e], v as [v |];
    (split; [by repeat split |]);
    (split; [reflexivity |]);
    (split; [vm_compute; reflexivity |]);
    (split; [vm_compute; reflexivity |]);
    (split; intros n; do 10 (try destruct n as [| n]); vm_compute;
     repeat constructor).
Qed.

Lemma demo_script_witness :
  logs (connect bare_page "Engineer" (initial None))
  = [demo_notice; demo_greeting].
Proof.
  apply (demo_script bare_page "Engineer" None); reflexivity.
Defined.

(** *** A second [connect] without a [disconnect] *)

Lemma leaking_step (h : Hook) :
  leaking h = true ->
  exists h', step h = Some h' /\ leaking h' = true
    /\ logs h' = logs h ++ [demo_closing].
Proof.
  destruct h as [c sp e l a ii p n vi di cin cout v ck nt ts st se ss].
  unfold leaking. simpl.
  destruct ts as [| [i d [ms |] [k sc | |]] [| ? ?]]; try discriminate.
  intros [Hlen Href]%andb_prop. simpl in Href.
  unfold step. simpl. eexists. split; [reflexivity |].
  unfold fire, demo_tick. simpl. rewrite Z.eqb_refl. simpl.
  apply Nat.leb_le in Hlen.
  destruct (k <? length sc)%nat eqn:E; [apply Nat.ltb_lt in E; lia |].
  apply Nat.leb_le in Hlen.
  unfold clear_ref, clearInterval, leaking. simpl.
  destruct (truthy_handle di) as [r |] eqn:Eth; simpl.
  - apply negb_true_iff in Href. rewrite (Z.eqb_sym i r), Href. simpl.
    rewrite Z.eqb_refl. simpl. by rewrite Eth, Hlen, Href.
  - rewrite Z.eqb_refl. simpl. by rewrite Eth, Hlen.
Qed.

Lemma replicate_snoc {A} (n : nat) (x : A) :
  replicate n x ++ [x] = replicate (S n) x.
Proof. induction n as [| n IH]; [done |]. simpl. by rewrite IH. Qed.

(** A leaking interval fires for ever, and each time appends the closing
    line. *)
Lemma leaking_run (h : Hook) (n : nat) :
  leaking h = true ->
  length (run n h) = n
  /\ forall k s, run n h !! k = Some s ->
       leaking s = true
       /\ logs s = logs h ++ replicate (S k) demo_closing.
Proof.
  revert h. induction n as [| n IH]; intros h Hl; [done |].
  destruct (leaking_step h Hl) as (h' & Hstep & Hl' & Hlogs).
  simpl. rewrite Hstep. destruct (IH h' Hl') as [IHlen IHk].
  split; [simpl; by rewrite IHlen |].
  intros [| k] s Hk; simpl in Hk.
  - by injection Hk as <-.
  - destruct (IHk k s Hk) as [Hs ->]. split; [exact Hs |].
    rewrite Hlogs, <- app_assoc. reflexivity.
Qed.

Lemma run_app (a b : nat) (h s : Hook) :
  length (run a h) = a -> last (run a h) = Some s ->
  run (a + b) h = run a h ++ run b s.
Proof.
  revert h. induction a as [| a IH]; intros h Hlen Hlast; [done |].
  simpl in *. destruct (step h) as [h' |]; [| done]. simpl in *.
  f_equal. destruct a as [| a].
  - simpl in *. by injection Hlast as ->.
  - apply IH; [lia |]. simpl in *.
    destruct (step h') as [h'' |]; [| done]. exact Hlast.
Qed.

(** C3, at the input where the code departs from it.  [connect] is called
    a second time in demo mode without a [disconnect] in between.  The
    second call stores the handle of its own interval in [demoIntervalRef]
    and leaves the first interval running.  When the first interval has used
    up its script it cancels the handle in the reference, which is the
    second interval, and itself goes on firing: after the 17 timer events
    that bring the log to 13 lines, every further tick appends the closing
    line again.  The timer events never end, and the log grows past any
    bound, where the claim has the interval stop and at most 5 lines added
    after [connect] returned. *)
Theorem second_connect_leaks_interval (pg : Page) (role : string)
    (v : option Video) (n : nat) :
  truthy_opt (retrieve_apiKey (host pg)) = false ->
  AudioContextClass pg = true ->
  let h := connect pg role (connect pg role (initial v)) in
  (isConnected h = true /\ length (logs h) = 4 /\ length (timers h) = 2)
  /\ length (run (17 + n) h) = 17 + n
  /\ exists s, run (17 + n) h !! (16 + n) = Some s
       /\ leaking s = true
       /\ length (logs s) = length (logs h) + 9 + n
       /\ last (logs s) = Some demo_closing.
Proof.
  intros Hkey Hctx h.
  assert (H17 : (isConnected h = true /\ length (logs h) = 4
                 /\ length (timers h) = 2)
                /\ length (run 17 h) = 17
                /\ (fun s => (leaking s, length (logs s), last (logs s)))
                     <$> last (run 17 h)
                   = Some (true, 13, Some demo_closing)).
  { unfold h. rewrite !(connect_demo pg role _ Hkey Hctx).
    destruct (userMedia pg) as [s | e], v as [v |];
      (split; [| split]); vm_compute; by repeat split. }
  destruct H17 as (H0 & Hlen & H17).
  split; [exact H0 |]. destruct H0 as (_ & H4 & _). rewrite H4.
  destruct (last (run 17 h)) as [s17 |] eqn:Hlast; [| discriminate].
  injection H17 as Hleak Hlogs Hcl.
  rewrite (run_app 17 n h s17 Hlen Hlast).
  destruct (leaking_run s17 n Hleak) as [Hn Hk].
  split; [rewrite length_app; lia |].
  destruct n as [| n].
  - exists s17. rewrite app_nil_r. rewrite last_lookup, Hlen in Hlast.
    repeat split; [exact Hlast | exact Hleak | lia | done].
  - destruct (lookup_lt_is_Some_2 (run (S n) s17) n) as [s Hs]; [lia |].
    exists s. split.
    + rewrite lookup_app_r; rewrite Hlen; [| lia].
      by replace (16 + S n - 17) with n by lia.
    + destruct (Hk n s Hs) as [Hl ->]. split; [exact Hl |].
      rewrite length_app, length_replicate, Hlogs.
      split; [lia |].
      by rewrite <- replicate_snoc, app_assoc, last_snoc.
Qed.

Lemma second_connect_leaks_interval_witness :
  length (run 20 (connect bare_page "Engineer"
                    (connect bare_page "Engineer" (initial None)))) = 20.
Proof.
  apply (second_connect_leaks_interval bare_page "Engineer" None 3);
    reflexivity.
Defined.

(** ** Further properties of the live session *)

(** *** connect *)

(** X7. How [connect] fails.  It ends with an error exactly when the window
    has no audio context class, or a credential was found and capture was
    refused; the hook then is not connected and its timers, session, log
    and preview are as before.  With a credential and capture refused the
    error is the one about microphone and camera, and the playback context
    created before stays open.  The error about a stream that was not
    initialised is never raised. *)
Theorem connect_failure (pg : Page) (role : string) (h : Hook) :
  let h' := connect pg role h in
  (if negb (AudioContextClass pg) || has_key pg && denied pg
   then is_Some (error h') /\ isConnected h' = false
        /\ timers h' = timers h /\ session h' = session h /\ logs h' = logs h
        /\ video h' = video h
   else error h' = None)
  /\ (AudioContextClass pg = true -> has_key pg = true -> denied pg = true ->
      error h'
      = Some "Microphone and Camera access are required for the live interview."
      /\ audioContextRef h' = Some {| state := Running; rate := 24000 |})
  /\ error h' <> Some "Stream not initialized".
Proof.
  destruct h as [c sp e l a i p n vi di cin cout v ck nt ts st se ss].
  unfold connect, connect_try, has_key, denied.
  destruct (AudioContextClass pg); simpl.
  2: { split; [| split]; [repeat split; eauto | done | done]. }
  destruct (truthy_opt (retrieve_apiKey (host pg))) eqn:Hk;
    destruct (userMedia pg) as [s | err]; destruct v as [v |]; simpl;
    (split; [| split]); repeat split; eauto; try done.
Qed.

(** X8. The live connection.  With a credential and capture granted,
    [connect] from a fresh hook prepares the session (model, voice, system
    instruction for the role) without marking the hook connected; [onopen]
    then marks it connected, logs the line, starts the audio producer and
    the video interval of one second. *)
Theorem connect_then_onopen (pg : Page) (role k : string) (stream : MediaStream)
    (v : option Video) :
  retrieve_apiKey (host pg) = Some k ->
  JsString.truthy k = true ->
  userMedia pg = Return stream ->
  AudioContextClass pg = true ->
  let h1 := connect pg role (initial v) in
  let h2 := onopen h1 in
  (session h1
   = Some {| apiKey := k;
             model := "gemini-2.5-flash-native-audio-preview-09-2025";
             voiceName := "Fenrir";
             systemInstruction := systemInstruction_for role |}
   /\ isConnected h1 = false /\ error h1 = None /\ logs h1 = []
   /\ timers h1 = [] /\ demoIntervalRef h1 = None
   /\ video h1 = (fun _ => {| srcObject := Some stream |}) <$> v)
  /\ isConnected h2 = true
  /\ logs h2 = ["Connected to Interviewer"]
  /\ videoIntervalRef h2 = Some 1%Z
  /\ timers h2 = [{| id := 1; due := 1000; every := Some 1000%Z;
                     action := VideoFrame |}]
  /\ processorRef h2 = Some {| connected := true; onaudioprocess := true |}.
Proof.
  intros Hk Ht Hm Hc h1 h2. subst h2 h1.
  unfold connect, connect_try. rewrite Hk, Hm, Hc. simpl. rewrite Ht. simpl.
  destruct v as [v |]; repeat split; reflexivity.
Qed.

Lemma connect_then_onopen_witness :
  isConnected (onopen (connect live_page "Engineer" (initial None))) = true.
Proof.
  apply (connect_then_onopen live_page "Engineer" "user-key"
           {| tracks := [Live] |} None); reflexivity.
Defined.

(** *** The video interval *)

Lemma streaming_step (h : Hook) (i d : Z) :
  streaming h i d ->
  exists h', step h = Some h'
    /\ streaming h' i (d + 1000)
    /\ clock h' = d
    /\ sent h' = sent h ++ frames h 1
    /\ video h' = video h
    /\ isConnected h' = isConnected h
    /\ logs h' = logs h.
Proof.
  destruct h as [c sp e l a ii p n vi di cin cout v ck nt ts st se ss].
  unfold streaming, step, frames. simpl. intros ->. simpl.
  eexists. split; [reflexivity |].
  unfold fire, video_tick. simpl. rewrite Z.eqb_refl. simpl.
  destruct v; simpl; rewrite ?app_nil_r; repeat split; reflexivity.
Qed.

Lemma streaming_run (h : Hook) (i d : Z) (n : nat) :
  streaming h i d ->
  length (run n h) = n
  /\ (forall k s, run n h !! k = Some s ->
        clock s = (d + 1000 * Z.of_nat k)%Z
        /\ sent s = sent h ++ frames h (S k)
        /\ isConnected s = isConnected h
        /\ logs s = logs h).
Proof.
  revert h d. induction n as [| n IH]; intros h d Hs; [done |].
  destruct (streaming_step h i d Hs)
    as (h' & Hstep & Hs' & Hc & Hsent & Hv & Hcon & Hl).
  simpl. rewrite Hstep. destruct (IH h' _ Hs') as [IHlen IHk].
  split; [simpl; by rewrite IHlen |].
  intros [| k] s Hk; simpl in Hk.
  - injection Hk as <-. rewrite Hc, Hsent, Hcon, Hl. repeat split; lia.
  - destruct (IHk k s Hk) as (-> & -> & -> & ->).
    rewrite Hsent, Hcon, Hl. split; [lia |]. split; [| done].
    unfold frames. rewrite Hv. destruct (video h); [| by rewrite !app_nil_r].
    by rewrite <- app_assoc.
Qed.

(** X9. Once the video interval is the pending timer it fires every second
    without end: the event number [k] happens [k] seconds after the first
    one, one JPEG frame has been sent per event when the video element is
    there (none when it is not), and the flags and the log are untouched. *)
Theorem video_frames_every_second (h : Hook) (i d : Z) (n : nat) :
  streaming h i d ->
  length (run n h) = n
  /\ (forall k s, run n h !! k = Some s ->
        clock s = (d + 1000 * Z.of_nat k)%Z
        /\ sent s = sent h ++ frames h (S k)
        /\ isConnected s = isConnected h
        /\ logs s = logs h).
Proof. apply streaming_run. Qed.

Lemma video_frames_every_second_witness :
  length (run 5 live) = 5.
Proof.
  apply (video_frames_every_second live 1 1000 5). reflexivity.
Defined.

(** X10. The end of the session does not stop the video interval: after
    [onclose] or [onerror] the hook is not connected and the interval goes
    on firing; only [disconnect] cancels it, after which no timer event is
    left. *)
Theorem close_keeps_streaming (h : Hook) (i d : Z) (n : nat) :
  streaming h i d ->
  (streaming (onclose h) i d /\ isConnected (onclose h) = false)
  /\ (streaming (onerror h) i d /\ isConnected (onerror h) = false)
  /\ length (run n (onclose h)) = n
  /\ length (run n (onerror h)) = n
  /\ (truthy_handle (videoIntervalRef h) = Some i ->
      exists h', disconnect h = Return h' /\ timers h' = []
                 /\ forall m, run m h' = []).
Proof.
  intros Hs.
  assert (H1 : streaming (onclose h) i d) by (by destruct h).
  assert (H2 : streaming (onerror h) i d) by (by destruct h).
  split; [split; [exact H1 | by destruct h] |].
  split; [split; [exact H2 | by destruct h] |].
  split; [apply (streaming_run _ i d n H1) |].
  split; [apply (streaming_run _ i d n H2) |].
  intros Href. exists (torn_down h). split; [apply disconnect_returns |].
  assert (Ht : timers (torn_down h) = []).
  { destruct h as [c sp e l a ii p nn vi di cin cout v ck nt ts st se ss].
    unfold streaming in Hs. simpl in *. subst ts.
    unfold cancelled at 2. rewrite Href. simpl. rewrite Z.eqb_refl. simpl.
    unfold cancelled. by destruct (truthy_handle di). }
  split; [exact Ht |]. intros [| m]; [done |]. simpl. unfold step.
  by rewrite Ht.
Qed.

Lemma close_keeps_streaming_witness :
  length (run 5 (onclose live)) = 5.
Proof.
  apply (close_keeps_streaming live 1 1000 5). reflexivity.
Defined.

(** *** Tearing down the demo *)

Lemma earliest_elem (ts : list Timer) (t : Timer) :
  earliest ts = Some t -> t ∈ ts.
Proof.
  revert t. induction ts as [| u r IH]; intros t; simpl; [done |].
  destruct (earliest r) as [w |].
  - destruct (due w <? due u)%Z; intros [= <-]; [right; by apply IH | left].
  - intros [= <-]. left.
Qed.

Lemma fire_off (t : Timer) (h : Hook) :
  is_off t = true ->
  forallb is_off (timers h) = true ->
  let h' := fire t h in
  forallb is_off (timers h') = true
  /\ isSpeaking h' = false /\ logs h' = logs h
  /\ isConnected h' = isConnected h /\ sent h' = sent h.
Proof.
  destruct h as [c sp e l a ii p n vi di cin cout v ck nt ts st se ss].
  destruct t as [i d ev ac]. unfold is_off at 1. simpl.
  destruct ac; try discriminate. intros _ Hall. unfold fire. simpl.
  repeat split.
  assert (Hf : forallb is_off
                 (List.filter (fun u => negb (id u =? i)%Z) ts) = true).
  { apply forallb_forall. intros x [Hx _]%filter_In.
    by eapply forallb_forall in Hall. }
  destruct ev; simpl; [| exact Hf].
  rewrite forallb_app, Hf. reflexivity.
Qed.

(** When only timeouts that clear the speaking flag are pending, nothing
    else ever happens. *)
Lemma only_timeouts_left (h : Hook) (n : nat) :
  forallb is_off (timers h) = true ->
  Forall (fun s => isSpeaking s = false /\ logs s = logs h
                   /\ isConnected s = isConnected h /\ sent s = sent h)
    (run n h).
Proof.
  revert h. induction n as [| n IH]; intros h Hall; [constructor |].
  simpl. unfold step. destruct (earliest (timers h)) as [t |] eqn:E;
    [| constructor].
  simpl.
  assert (Ht : is_off t = true).
  { apply earliest_elem, list_elem_of_In in E.
    by eapply forallb_forall in Hall. }
  destruct (fire_off t h Ht Hall) as (Hall' & Hsp & Hl & Hc & Hs).
  constructor; [done |].
  eapply Forall_impl; [apply IH, Hall' |].
  intros s (-> & -> & -> & ->). by rewrite Hl, Hc, Hs.
Qed.

Lemma stopped_state (h : Hook) :
  forallb is_off (timers (torn_down h)) = true ->
  exists h', disconnect h = Return h'
    /\ forall n, Forall (fun s => logs s = logs h /\ isSpeaking s = false
                                  /\ isConnected s = false) (run n h').
Proof.
  intros Hall. exists (torn_down h). split; [apply disconnect_returns |].
  intros n. eapply Forall_impl; [apply (only_timeouts_left _ n Hall) |].
  intros s (-> & -> & -> & _). by destruct h.
Qed.

(** X11. [disconnect] stops the demo at any point of the script: called
    right after [connect] or after any number of timer events, it returns,
    and from then on no line is added to the log and the hook stays
    disconnected and silent, although timeouts of scripted lines may still
    be pending. *)
Theorem disconnect_stops_demo (pg : Page) (role : string) (v : option Video)
    (k : nat) :
  truthy_opt (retrieve_apiKey (host pg)) = false ->
  AudioContextClass pg = true ->
  let h0 := connect pg role (initial v) in
  Forall (fun h =>
            exists h', disconnect h = Return h'
              /\ forall n, Forall (fun s => logs s = logs h
                                            /\ isSpeaking s = false
                                            /\ isConnected s = false)
                             (run n h'))
    (h0 :: run k h0).
Proof.
  intros Hkey Hctx h0.
  eapply Forall_impl; [| intros h; apply stopped_state].
  apply Forall_forall. intros h Hh. apply list_elem_of_In in Hh.
  revert h Hh. apply forallb_forall.
  unfold h0. rewrite (connect_demo pg role _ Hkey Hctx).
  destruct (userMedia pg) as [s | e], v as [v |];
    do 10 (try destruct k as [| k]); vm_compute; reflexivity.
Qed.

Lemma disconnect_stops_demo_witness :
  Forall (fun h =>
            exists h', disconnect h = Return h'
              /\ forall n, Forall (fun s => logs s = logs h
                                            /\ isSpeaking s = false
                                            /\ isConnected s = false)
                             (run n h'))
    (connect bare_page "Engineer" (initial None)
       :: run 3 (connect bare_page "Engineer" (initial None))).
Proof.
  apply (disconnect_stops_demo bare_page "Engineer" None 3); reflexivity.
Defined.

(** *** A second connect after a disconnect *)

Lemma run_stops (m : nat) (h : Hook) :
  length (run m h) < m -> forall n, length (run n h) <= length (run m h).
Proof.
  revert h. induction m as [| m IH]; intros h Hm n; [lia |].
  destruct n as [| n]; [simpl; lia |].
  simpl in *. destruct (step h) as [h' |]; [| done]. simpl in *.
  specialize (IH h' ltac:(lia) n). lia.
Qed.

Lemma run_prefix (k m : nat) (h : Hook) :
  length (run m h) < m -> exists r, run m h = run k h ++ r.
Proof.
  revert m h. induction k as [| k IH]; intros m h Hm; [by eexists |].
  destruct m as [| m]; [lia |]. simpl in *.
  destruct (step h) as [h' |]; [| by exists []]. simpl in Hm.
  destruct (IH m h') as [r Hr]; [lia |]. exists r. simpl. by rewrite Hr.
Qed.

(** X12. A [disconnect] in between makes a second [connect] safe: whenever
    the first demo is torn down, right after [connect] or after any number
    of timer events, the demo started by the next [connect] runs its whole
    script once and stops, at most ten timer events later (a timeout of the
    first demo may still fire), leaving no timer. *)
Theorem reconnect_after_disconnect (pg : Page) (role : string)
    (v : option Video) (k : nat) :
  truthy_opt (retrieve_apiKey (host pg)) = false ->
  AudioContextClass pg = true ->
  let h0 := connect pg role (initial v) in
  Forall (fun h =>
            let h1 := connect pg role (torn_down h) in
            reconnected role h h1 /\ forall n, length (run n h1) <= 10)
    (h0 :: run k h0).
Proof.
  intros Hkey Hctx h0.
  assert (H : Forall (fun h => reconnected role h (connect pg role (torn_down h)))
                (h0 :: run k h0)).
  { assert (H10 : Forall (fun h => reconnected role h
                                      (connect pg role (torn_down h)))
                     (h0 :: run 10 h0)).
    { unfold h0. rewrite (connect_demo pg role _ Hkey Hctx).
      destruct (userMedia pg) as [s | e] eqn:Hmedia, v as [v |];
        match goal with
        | |- Forall ?P ?l =>
            let l' := eval vm_compute in l in
            replace l with l' by (vm_compute; reflexivity)
        end;
        repeat (constructor;
                [unfold reconnected;
                 rewrite (connect_demo pg role _ Hkey Hctx), Hmedia;
                 vm_compute; repeat split; lia |]);
        constructor. }
    apply Forall_cons in H10 as [Hh0 Hrun]. constructor; [exact Hh0 |].
    destruct (run_prefix k 10 h0) as [r Hr].
    { unfold h0. rewrite (connect_demo pg role _ Hkey Hctx).
      destruct (userMedia pg), v; vm_compute; lia. }
    rewrite Hr in Hrun. by apply Forall_app in Hrun as [Hrun _]. }
  eapply Forall_impl; [exact H |].
  intros h (H1 & H2 & H3 & H4). cbv zeta. split; [by repeat split |].
  intros n. etransitivity; [apply (run_stops 11); lia | exact H3].
Qed.

Lemma reconnect_after_disconnect_witness :
  Forall (fun h =>
            let h1 := connect bare_page "Engineer" (torn_down h) in
            reconnected "Engineer" h h1 /\ forall n, length (run n h1) <= 10)
    (connect bare_page "Engineer" (initial None)
       :: run 2 (connect bare_page "Engineer" (initial None))).
Proof.
  apply (reconnect_after_disconnect bare_page "Engineer" None 2); reflexivity.
Defined.

(** *** Transcripts *)

Lemma handle_cons (ev : LiveServerMessage * Q)
    (events : list (LiveServerMessage * Q)) (h : Hook) :
  handle (ev :: events) h = handle events (onmessage ev.1 ev.2 h).
Proof. reflexivity. Qed.

(** X13. Transcript deltas accumulate: after any sequence of input and
    output deltas, each buffer holds what it held before followed by the
    texts of its deltas in arrival order, nothing is logged, and the next
    turn-complete message logs the filled buffers. *)
Theorem deltas_accumulate (ds : list (bool * string * Q)) (h : Hook) :
  let h' := handle ((fun d => (delta_message d.1, d.2)) <$> ds) h in
  currentInputTranscription h'
  = currentInputTranscription h +:+ joined (said true ds)
  /\ currentOutputTranscription h'
     = currentOutputTranscription h +:+ joined (said false ds)
  /\ logs h' = logs h
  /\ forall now, logs (onmessage turn_complete now h') = logs h ++ flushed h'.
Proof.
  assert (H : forall ds h,
            let h' := handle ((fun d => (delta_message d.1, d.2)) <$> ds) h in
            currentInputTranscription h'
            = currentInputTranscription h +:+ joined (said true ds)
            /\ currentOutputTranscription h'
               = currentOutputTranscription h +:+ joined (said false ds)
            /\ logs h' = logs h).
  { clear. intros ds. induction ds as [| [[who t] now] r IH]; intros h.
    - simpl. by rewrite !append_nil_r.
    - rewrite fmap_cons, handle_cons. cbv zeta. cbn [fst snd].
      destruct (IH (onmessage (delta_message (who, t)) now h)) as (-> & -> & ->).
      unfold delta_message, said. cbn [fst snd List.filter].
      destruct who; cbn [Bool.eqb fmap list_fmap joined foldr fst snd].
      + rewrite input_delta_appends. destruct h; cbn.
        by rewrite append_assoc.
      + rewrite output_delta_appends. destruct h; cbn.
        by rewrite append_assoc. }
  intros h'. destruct (H ds h) as (H1 & H2 & H3). fold h' in H1, H2, H3.
  repeat split; try done.
  intros now. destruct (turn_complete_flushes h' now) as [-> _].
  by rewrite H3.
Qed.

Lemma both_deltas_appends (o i : option string) (now : Q) (h : Hook) :
  onmessage (both_deltas o i) now h
  = set_currentOutputTranscription
      (currentOutputTranscription h +:+ default "undefined" o) h.
Proof. destruct h. reflexivity. Qed.

(** X14. A message that carries an output delta and an input delta loses
    the input delta: only the output buffer grows, and the turn is logged
    without a line of the user.  A delta without a text appends the word
    undefined. *)
Theorem input_delta_lost (o i : string) (now now' : Q) (h : Hook) :
  currentInputTranscription h = EmptyString ->
  currentOutputTranscription h = EmptyString ->
  JsString.truthy o = true ->
  let h1 := onmessage (both_deltas (Some o) (Some i)) now h in
  currentOutputTranscription h1 = o
  /\ currentInputTranscription h1 = EmptyString
  /\ logs (onmessage turn_complete now' h1) = logs h ++ ["AI: " +:+ o]
  /\ currentOutputTranscription (onmessage (both_deltas None (Some i)) now h)
     = "undefined".
Proof.
  intros Hi Ho Ht h1.
  destruct (turn_complete_flushes h1 now') as [-> _].
  subst h1. rewrite !both_deltas_appends. unfold flushed.
  destruct h. cbn in Hi, Ho. subst. cbn.
  change (EmptyString +:+ o) with o. rewrite Ht. by repeat split.
Qed.

Lemma input_delta_lost_witness :
  logs (onmessage turn_complete 0
          (onmessage (both_deltas (Some "Hi there") (Some "Hello")) 0
             (initial None)))
  = ["AI: Hi there"].
Proof.
  apply (input_delta_lost "Hi there" "Hello" 0 0 (initial None)); reflexivity.
Defined.

(** *** Audio that cannot be played *)

(** X15. A payload that is not base64, or holds no whole frame, still
    raises the speaking flag, but nothing is scheduled: no clip is started,
    the cursor stays, and no line is logged. *)
Theorem undecodable_audio (base64 : string) (now : Q) (h : Hook) :
  JsString.truthy base64 = true ->
  clip_of (audio_chunk base64) = None ->
  let h' := onmessage (audio_chunk base64) now h in
  isSpeaking h' = true
  /\ started h' = started h
  /\ nextStartTimeRef h' = nextStartTimeRef h
  /\ logs h' = logs h.
Proof.
  intros Ht Hclip. destruct h.
  unfold clip_of in Hclip. unfold onmessage, on_audio.
  change (audioData_of (audio_chunk base64)) with (Some base64) in *.
  unfold on_turnComplete, on_transcription.
  cbn [mbind option_bind] in Hclip. cbn. rewrite Ht in *.
  set (r := decode base64 ≫= _) in *.
  destruct r; [discriminate |].
  by destruct audioContextRef0.
Qed.

Lemma undecodable_audio_witness :
  isSpeaking (onmessage (audio_chunk "!") 0 ready) = true.
Proof.
  apply (undecodable_audio "!" 0 ready); reflexivity.
Defined.

(** *** The end of a clip *)

(** X16. The speaking flag around one clip.  The message that carries a
    clip raises the flag; when the clip has ended, that is at any reading of
    the playback clock at or after its start plus its duration, [onended]
    lowers the flag again, provided no further clip was queued meanwhile. *)
Theorem onended_after_clip (msg : LiveServerMessage) (b : AudioBuffer)
    (now t : Q) (h : Hook) :
  is_Some (audioContextRef h) ->
  clip_of msg = Some b ->
  Double.is_double t = true ->
  (Qmax now (nextStartTimeRef h) + duration b <= t)%Q ->
  let h' := onmessage msg now h in
  isSpeaking h' = true
  /\ (nextStartTimeRef h' <= t)%Q
  /\ isSpeaking (onended t h') = false.
Proof.
  intros Hctx Hclip Ht Hend h'.
  destruct (onmessage_schedules msg now h Hctx) as [_ Hs]. fold h' in Hs.
  rewrite Hclip in Hs. destruct Hs as [_ Hcur].
  assert (Hle : (nextStartTimeRef h' <= t)%Q).
  { rewrite Hcur. apply DoubleFacts.round_below; [| exact Hend].
    by apply DoubleFacts.is_double_representable. }
  split; [| split; [exact Hle |]].
  - subst h'. unfold onmessage, on_audio. unfold clip_of in Hclip.
    destruct (audioData_of msg) as [a |]; [| done].
    cbn [mbind option_bind] in Hclip.
    destruct (JsString.truthy a); [| done].
    destruct (on_turnComplete msg (on_transcription msg h)).
    cbn. destruct audioContextRef0; [| done].
    by destruct (decode a ≫= _).
  - unfold onended. apply Qle_bool_iff in Hle. rewrite Hle.
    by destruct h'.
Qed.

Lemma onended_after_clip_witness :
  isSpeaking (onended 1 (onmessage (audio_chunk "AAABAP//") 0 ready)) = false.
Proof.
  apply (onended_after_clip (audio_chunk "AAABAP//")
           {| sampleRate := 24000; frameCount := 3;
              channelData := [[0 # 32768; 1 # 32768; -1 # 32768]%Q] |}
           0 1 ready); [vm_compute; eauto | reflexivity | reflexivity |].
  vm_compute. discriminate.
Defined.

(** *** The audio codec *)

Lemma sextet_digit (n : N) :
  (n < 64)%N -> Base64.sextet (Base64.digit n) = Some n.
Proof.
  intros Hn. destruct n as [| p]; [reflexivity |].
  do 6 (destruct p as [p | p |]; try reflexivity); lia.
Qed.

Lemma digit_plain (n : N) :
  Base64.is_ascii_ws (Base64.digit n) = false
  /\ Base64.is_pad (Base64.digit n) = false.
Proof.
  destruct (N.ltb_spec n 64) as [Hn | Hn].
  - destruct n as [| p]; [by split |].
    do 6 (destruct p as [p | p |]; try (by split)); lia.
  - unfold Base64.digit.
    destruct (N.ltb_spec n 26); [lia |]. destruct (N.ltb_spec n 52); [lia |].
    destruct (N.ltb_spec n 62); [lia |]. destruct (N.eqb_spec n 62); [lia |].
    by split.
Qed.

Lemma unpad_app (pre rest : list ascii) :
  2 <= length rest ->
  Base64.unpad (pre ++ rest) = pre ++ Base64.unpad rest.
Proof.
  intros Hlen. unfold Base64.unpad. rewrite rev_app_distr.
  destruct (rev rest) as [| a [| b t]] eqn:E.
  - apply (f_equal length) in E. rewrite length_rev in E. simpl in E. lia.
  - apply (f_equal length) in E. rewrite length_rev in E. simpl in E. lia.
  - simpl. destruct (Base64.is_pad a); [| done].
    destruct (Base64.is_pad b).
    + by rewrite rev_app_distr, rev_involutive.
    + by rewrite rev_app_distr, rev_involutive, <- app_assoc.
Qed.

Lemma btoa_length (bytes : list N) :
  length (Base64.btoa bytes) = 4 * ((length bytes + 2) / 3).
Proof.
  induction bytes as [| a | a b | a b c r IH] using list_ind3; try reflexivity.
  cbn [Base64.btoa length]. rewrite IH.
  replace (S (S (S (length r))) + 2) with (length r + 2 + 1 * 3) by lia.
  rewrite Nat.div_add by lia. lia.
Qed.

Lemma unpad_btoa (bytes : list N) :
  Base64.unpad (Base64.btoa bytes) = Base64.digit <$> sextets bytes.
Proof.
  induction bytes as [| a | a b | a b c r IH] using list_ind3.
  - reflexivity.
  - unfold Base64.unpad. simpl. reflexivity.
  - unfold Base64.unpad. simpl.
    by destruct (digit_plain ((b mod 16) * 4)) as [_ ->].
  - cbn [Base64.btoa sextets fmap list_fmap]. rewrite <- IH.
    destruct r as [| x r'].
    + unfold Base64.unpad. simpl.
      by destruct (digit_plain (c mod 64)) as [_ ->].
    + change (?a :: ?b :: ?c :: ?d :: ?l) with ([a; b; c; d] ++ l).
      rewrite unpad_app; [done |].
      rewrite btoa_length. simpl length.
      assert (1 <= (S (length r') + 2) / 3); [| lia].
      apply Nat.div_le_lower_bound; lia.
Qed.

Lemma btoa_plain (bytes : list N) :
  List.filter (fun a => negb (Base64.is_ascii_ws a)) (Base64.btoa bytes)
  = Base64.btoa bytes.
Proof.
  induction bytes as [| a | a b | a b c r IH] using list_ind3;
    cbn [Base64.btoa List.filter];
    repeat match goal with
      | |- context [Base64.is_ascii_ws (Base64.digit ?n)] =>
          destruct (digit_plain n) as [-> _]
      end; cbn [negb]; try reflexivity.
  by rewrite IH.
Qed.

Lemma sextets_small (bytes : list N) :
  Forall (fun b => (b < 256)%N) bytes ->
  Forall (fun s => (s < 64)%N) (sextets bytes).
Proof.
  induction bytes as [| a | a b | a b c r IH] using list_ind3; intros H.
  - constructor.
  - inversion_clear H. repeat constructor; simpl.
    + apply N.Div0.div_lt_upper_bound; lia.
    + pose proof (N.mod_upper_bound a 4). lia.
  - inversion_clear H as [| ? ? Ha H']. inversion_clear H' as [| ? ? Hb _].
    repeat constructor; simpl.
    + apply N.Div0.div_lt_upper_bound; lia.
    + pose proof (N.mod_upper_bound a 4).
      assert (b / 16 < 16)%N by (apply N.Div0.div_lt_upper_bound; lia). lia.
    + pose proof (N.mod_upper_bound b 16). lia.
  - inversion_clear H as [| ? ? Ha H']. inversion_clear H' as [| ? ? Hb H''].
    inversion_clear H'' as [| ? ? Hc Hr].
    cbn [sextets]. repeat constructor; [.. | by apply IH].
    + apply N.Div0.div_lt_upper_bound; lia.
    + pose proof (N.mod_upper_bound a 4).
      assert (b / 16 < 16)%N by (apply N.Div0.div_lt_upper_bound; lia). lia.
    + pose proof (N.mod_upper_bound b 16).
      assert (c / 64 < 4)%N by (apply N.Div0.div_lt_upper_bound; lia). lia.
    + apply N.mod_upper_bound. lia.
Qed.

Lemma mapM_sextet_digit (l : list N) :
  Forall (fun s => (s < 64)%N) l ->
  mapM Base64.sextet (Base64.digit <$> l) = Some l.
Proof.
  induction 1 as [| s l Hs _ IH]; [done |].
  change (mapM Base64.sextet (Base64.digit <$> s :: l))
    with (y ← Base64.sextet (Base64.digit s);
          k ← mapM Base64.sextet (Base64.digit <$> l); mret (y :: k)).
  by rewrite (sextet_digit s Hs), IH.
Qed.

#[local] Ltac Zify.zify_post_hook ::= Z.to_euclidean_division_equations.

Lemma bytes_sextets (bytes : list N) :
  Forall (fun b => (b < 256)%N) bytes -> Base64.bytes (sextets bytes) = bytes.
Proof.
  induction bytes as [| a | a b | a b c r IH] using list_ind3; intros H.
  - reflexivity.
  - inversion_clear H. cbn. f_equal. lia.
  - inversion_clear H as [| ? ? Ha H']. inversion_clear H' as [| ? ? Hb _].
    cbn. f_equal; [lia |]. f_equal. lia.
  - inversion_clear H as [| ? ? Ha H']. inversion_clear H' as [| ? ? Hb H''].
    inversion_clear H'' as [| ? ? Hc Hr].
    cbn [sextets Base64.bytes]. rewrite (IH Hr).
    f_equal; [lia |]. f_equal; [lia |]. f_equal. lia.
Qed.

Lemma sextets_length (bytes : list N) : length (sextets bytes) mod 4 <> 1.
Proof.
  induction bytes as [| a | a b | a b c r IH] using list_ind3; try done.
  cbn [sextets length].
  replace (S (S (S (S (length (sextets r)))))) with (length (sextets r) + 1 * 4)
    by lia.
  by rewrite Nat.Div0.mod_add.
Qed.

Lemma atob_btoa (bytes : list N) :
  Forall (fun b => (b < 256)%N) bytes ->
  Base64.atob (string_of_list_ascii (Base64.btoa bytes)) = Return bytes.
Proof.
  intros Hb. unfold Base64.atob.
  rewrite list_ascii_of_string_of_list_ascii, btoa_plain.
  assert (Hlen : (length (Base64.btoa bytes) mod 4 =? 0)%nat = true).
  { rewrite btoa_length, Nat.mul_comm, Nat.Div0.mod_mul. reflexivity. }
  rewrite Hlen, unpad_btoa, length_fmap.
  pose proof (sextets_length bytes) as H1.
  destruct (Nat.eqb_spec (length (sextets bytes) mod 4) 1); [done |].
  rewrite (mapM_sextet_digit _ (sextets_small bytes Hb)).
  by rewrite (bytes_sextets bytes Hb).
Qed.

(** X17. Decoding what [encode] produced gives the bytes back, for every
    sequence of bytes. *)
Theorem decode_encode (bytes : list N) :
  Forall (fun b => (b < 256)%N) bytes ->
  decode (encode bytes) = Return bytes.
Proof. apply atob_btoa. Qed.

Lemma decode_encode_witness :
  decode (encode [0; 1; 127; 128; 255]%N) = Return [0; 1; 127; 128; 255]%N.
Proof.
  apply (decode_encode [0; 1; 127; 128; 255]%N). by repeat constructor.
Defined.

Lemma int16_bytes_small (xs : list Z) :
  Forall (fun b => (b < 256)%N) (flat_map int16_bytes xs).
Proof.
  induction xs as [| x r IH]; [constructor |].
  cbn [flat_map]. apply Forall_app. split; [| exact IH].
  unfold int16_bytes. repeat constructor; lia.
Qed.

Lemma int16s_bytes (xs : list Z) :
  Forall int16 xs -> int16s (flat_map int16_bytes xs) = Return xs.
Proof.
  induction 1 as [| x r Hx _ IH]; [done |].
  cbn [flat_map int16_bytes app int16s]. rewrite IH. cbn [mbind exn_bind].
  unfold int16 in Hx. f_equal. f_equal.
  destruct (Z.ltb_spec (Z.of_N (Z.to_N (x mod 65536) mod 256
                                + 256 * (Z.to_N (x mod 65536) / 256))) 32768);
    lia.
Qed.

Lemma ToInt16_range (x : Q) : int16 (ToInt16 x).
Proof.
  unfold ToInt16, int16.
  destruct (Z.ltb_spec (Z.quot (Qnum x) (Z.pos (Qden x)) mod 65536) 32768);
    lia.
Qed.

Lemma seq_lookup_total (l : list Z) :
  (fun i => (l !!! (i * 1 + 0)) # 32768) <$> seq 0 (length l)
  = (fun z => z # 32768) <$> l.
Proof.
  apply list_eq. intros i. rewrite !list_lookup_fmap.
  destruct (decide (i < length l)) as [Hi | Hi].
  - rewrite lookup_seq_lt by done. simpl.
    destruct (lookup_lt_is_Some_2 l i Hi) as [z Hz]. rewrite Hz. simpl.
    f_equal. f_equal. apply list_lookup_total_correct.
    by replace (i * 1 + 0) with i by lia.
  - rewrite lookup_seq_ge by lia. by rewrite lookup_ge_None_2 by lia.
Qed.

(** X18. What [createBlob] encoded is what the receiving side decodes: the
    payload, decoded from base64 and read by [decodeAudioData] as one
    channel, holds one frame per sample, each the sample quantised to 16
    bits. *)
Theorem createBlob_decodes (samples : list Q) (r : positive) :
  samples <> [] ->
  exists base64,
    data (createBlob samples) = Some base64
    /\ mimeType (createBlob samples) = Some "audio/pcm;rate=16000"
    /\ decode base64 ≫= (fun bytes => decodeAudioData bytes r 1)
       = Return {| sampleRate := r;
                   frameCount := length samples;
                   channelData :=
                     [(fun x => ToInt16 (x * 32768) # 32768) <$> samples] |}.
Proof.
  intros Hne. eexists. split; [reflexivity |]. split; [reflexivity |].
  unfold decode, encode. rewrite atob_btoa by apply int16_bytes_small.
  cbn [mbind exn_bind]. unfold decodeAudioData.
  rewrite int16s_bytes.
  2: { apply Forall_fmap, Forall_forall. intros x _. apply ToInt16_range. }
  cbn [mbind exn_bind]. rewrite Nat.div_1_r, length_fmap.
  destruct samples as [| x xs]; [done |]. cbn [length Nat.eqb].
  set (l := (fun x => ToInt16 (x * 32768)) <$> x :: xs).
  assert (Hlen : S (length xs) = length l) by (unfold l; by rewrite length_fmap).
  assert (Hl : (fun z => z # 32768) <$> l
               = (fun x => ToInt16 (x * 32768) # 32768) <$> x :: xs)
    by (unfold l; by rewrite <- list_fmap_compose).
  clearbody l. rewrite <- Hl, Hlen. cbn [seq fmap list_fmap].
  by rewrite (seq_lookup_total l).
Qed.

Lemma createBlob_decodes_witness :
  exists base64,
    data (createBlob [1 # 2; - (1 # 4)]%Q) = Some base64
    /\ mimeType (createBlob [1 # 2; - (1 # 4)]%Q) = Some "audio/pcm;rate=16000"
    /\ decode base64 ≫= (fun bytes => decodeAudioData bytes 16000 1)
       = Return {| sampleRate := 16000;
                   frameCount := 2;
                   channelData := [[16384 # 32768; -8192 # 32768]%Q] |}.
Proof.
  apply (createBlob_decodes [1 # 2; - (1 # 4)]%Q 16000). discriminate.
Defined.


Lemma int16s_parity (bytes : list N) :
  match int16s bytes with
  | Return xs =>
      length bytes = 2 * length xs
      /\ (Forall (fun b => (b < 256)%N) bytes -> Forall int16 xs)
  | Throw e => length bytes mod 2 = 1 /\ e = Error_ "RangeError"
  end.
Proof.
  induction bytes as [| a | a b r IH] using list_ind2.
  - by split.
  - by split.
  - cbn [int16s]. destruct (int16s r) as [xs | e]; cbn [mbind exn_bind].
    + destruct IH as [Hlen Hsmall]. split; [simpl; lia |].
      intros H. inversion_clear H as [| ? ? Ha H'].
      inversion_clear H' as [| ? ? Hb Hr].
      constructor; [| by apply Hsmall]. unfold int16.
      destruct (Z.ltb_spec (Z.of_N (a + 256 * b)) 32768); lia.
    + destruct IH as [Hodd ->]. split; [| done].
      change (length (a :: b :: r)) with (2 + length r).
      by rewrite <- Nat.Div0.add_mod_idemp_l.
Qed.

Lemma sextet_small (a : ascii) (n : N) :
  Base64.sextet a = Some n -> (n < 64)%N.
Proof.
  unfold Base64.sextet.
  unfold Base64.code, JsString.code.
  repeat match goal with
         | |- context [(?x && ?y)%bool] => destruct (x && y)%bool eqn:?
         | |- context [(?x =? ?y)%N] => destruct (N.eqb_spec x y)
         end; intros [= <-]; try lia;
    repeat match goal with
           | H : (_ && _)%bool = true |- _ =>
               apply andb_prop in H as [?%N.leb_le ?%N.leb_le]
           end; lia.
Qed.

Lemma mapM_sextet_small (l : list ascii) (xs : list N) :
  mapM Base64.sextet l = Some xs -> Forall (fun s => (s < 64)%N) xs.
Proof.
  intros H. apply mapM_Some in H. induction H as [| a n l xs Ha _ IH];
    constructor; [by eapply sextet_small | done].
Qed.

Lemma bytes_small (n : nat) (l : list N) :
  length l <= n -> Forall (fun s => (s < 64)%N) l ->
  Forall (fun b => (b < 256)%N) (Base64.bytes l).
Proof.
  revert l. induction n as [| n IH]; intros l Hn Hl.
  - destruct l; [constructor | simpl in Hn; lia].
  - destruct l as [| a [| b [| c [| d r]]]]; try constructor;
      repeat match goal with
             | H : Forall _ (_ :: _) |- _ => inversion_clear H
             end; cbn [Base64.bytes]; repeat constructor; try lia.
    apply IH; [simpl in Hn; lia | done].
Qed.

Lemma decode_bytes (base64 : string) (bytes : list N) :
  decode base64 = Return bytes -> Forall (fun b => (b < 256)%N) bytes.
Proof.
  unfold decode, Base64.atob.
  cbv zeta.
  match goal with
  | |- context [mapM Base64.sextet ?x] => generalize x
  end. intros l.
  destruct (length l mod 4 =? 1)%nat; [done |].
  destruct (mapM Base64.sextet l) as [xs |] eqn:E; [| done].
  intros [= <-]. eapply bytes_small; [done |]. by eapply mapM_sextet_small.
Qed.

(** X20. Every clip the handler schedules has at least one frame at 24 kHz
    and one channel, and its samples lie in [-1, 1). *)
Theorem decoded_clip_bounds (msg : LiveServerMessage) (b : AudioBuffer) :
  clip_of msg = Some b ->
  1 <= frameCount b
  /\ sampleRate b = 24000%positive
  /\ exists samples,
       channelData b = [samples]
       /\ length samples = frameCount b
       /\ Forall (fun x => (-1 <= x)%Q /\ (x < 1)%Q) samples.
Proof.
  unfold clip_of. destruct (audioData_of msg) as [a |]; [| done].
  cbn [mbind option_bind]. destruct (JsString.truthy a); [| done].
  destruct (decode a) as [bytes | e] eqn:Hd; [| done].
  cbn [mbind exn_bind]. apply decode_bytes in Hd.
  unfold decodeAudioData. pose proof (int16s_parity bytes) as Hp.
  destruct (int16s bytes) as [xs | e]; [| done]. cbn [mbind exn_bind].
  destruct Hp as [_ Hx]. specialize (Hx Hd).
  rewrite Nat.div_1_r. destruct (Nat.eqb_spec (length xs) 0); [done |].
  intros [= <-]. cbn [frameCount sampleRate channelData].
  split; [lia |]. split; [done |].
  eexists. split; [reflexivity |].
  rewrite seq_lookup_total. split; [by rewrite length_fmap |].
  apply Forall_fmap. eapply Forall_impl; [exact Hx |].
  intros z Hz. unfold int16 in Hz. cbn. unfold Qle, Qlt. cbn. lia.
Qed.

Lemma decoded_clip_bounds_witness :
  1 <= frameCount {| sampleRate := 24000; frameCount := 3;
                     channelData := [[0 # 32768; 1 # 32768; -1 # 32768]%Q] |}.
Proof.
  apply (decoded_clip_bounds (audio_chunk "AAABAP//")). reflexivity.
Defined.

(** X21. What [decodeAudioData] refuses: an odd number of bytes (a range
    error of the 16-bit view) and no bytes at all (a buffer without frames
    cannot be created); every other payload gives a buffer with one frame
    per two bytes. *)
Theorem decodeAudioData_refuses (bytes : list N) (r : positive) :
  (length bytes mod 2 = 1 ->
   decodeAudioData bytes r 1 = Throw (Error_ "RangeError"))
  /\ decodeAudioData [] r 1 = Throw (Error_ "NotSupportedError")
  /\ (length bytes mod 2 = 0 -> bytes <> [] ->
      exists b, decodeAudioData bytes r 1 = Return b
                /\ 2 * frameCount b = length bytes).
Proof.
  unfold decodeAudioData. pose proof (int16s_parity bytes) as Hp.
  split; [| split; [reflexivity |]].
  - intros Hodd. destruct (int16s bytes) as [xs | e].
    + destruct Hp as [Hlen _].
      rewrite Hlen, Nat.mul_comm, Nat.Div0.mod_mul in Hodd.
      discriminate.
    + by destruct Hp as [_ ->].
  - intros Heven Hne. destruct (int16s bytes) as [xs | e].
    + destruct Hp as [Hlen _]. cbn [mbind exn_bind]. rewrite Nat.div_1_r.
      destruct (Nat.eqb_spec (length xs) 0) as [E | E].
      * destruct bytes; [done | simpl in Hlen; lia].
      * eexists. split; [reflexivity |]. cbn. lia.
    + destruct Hp as [Hodd _]. rewrite Hodd in Heven. discriminate.
Qed.
